(** * Package mst: graph container, union-find, Kruskal, Prim, connectivity

    A shallow embedding of the Go package [mst] and the properties its
    specification states about it.

    Conventions of the embedding.
    - Go's [int] is a 64-bit two's complement integer: it is a [Z], and the
      arithmetic that can leave the range ([totalWeight += w], [rank++]) is
      written with [wrap_int].
    - A Go map read at a missing key yields the zero value of the element
      type; maps are stdpp [gmap]s read through [default].
    - [*Vertex] and [*Edge] are never written through after they are built
      (every update of a vertex goes through [g.Vertices[id] = v]), so a
      pointer is modelled by the value it points to.  A vertex held by an
      edge is therefore the snapshot taken when the edge was created, as in
      the source, where [GetVertex] returns the address of a copy.  Nil
      endpoints are outside the model of the graph; an [Edge] value handed
      to [NewEdge] or [AddEdge], whose endpoints may be nil, is an
      [EdgeValue].
    - Methods with a pointer receiver [g *Graph] are state passing
      computations in [M]; [panic] is the outcome [Panicked].
    - The iteration order of [for id := range g.Vertices] is chosen by the Go
      runtime: the functions that iterate take that order as an argument.
    - [sort.Slice] belongs to the Go standard library; it is an interface
      ([GoSort]) with the contract the library documents.  [container/heap]
      is embedded from the library's [up]/[down] loops, which call the
      [PriorityQueue] methods of this package.
    - [fmt.Sprintf] with the verb [%d] is the decimal notation of stdpp's
      [pretty]; the functions that write to the console ([Print],
      [PrintMST]) are not embedded. *)

From Stdlib Require Import ZArith Lia Sorted Permutation Ascii.
From stdpp Require Import gmap strings list fin_maps sorting pretty.

(** ** Machine integers *)

Definition wrap_int (z : Z) : Z := ((z + 2 ^ 63) mod 2 ^ 64 - 2 ^ 63)%Z.

(** ** Outcomes of a call *)

Inductive outcome (A : Type) : Type :=
| Returned (a : A)
| Panicked (msg : string)
| OutOfFuel.
Arguments Returned {A} a.
Arguments Panicked {A} msg.
Arguments OutOfFuel {A}.

Definition is_panic {A} (o : outcome A) : bool :=
  match o with Panicked _ => true | _ => false end.

Definition is_returned {A} (o : outcome A) : bool :=
  match o with Returned _ => true | _ => false end.

Definition obind {A B} (o : outcome A) (k : A -> outcome B) : outcome B :=
  match o with
  | Returned a => k a
  | Panicked msg => Panicked msg
  | OutOfFuel => OutOfFuel
  end.

Notation "x <~ c1 ;; c2" := (obind c1 (fun x => c2))
  (at level 100, c1 at next level, right associativity).

Definition index_out_of_range {A} : outcome A :=
  Panicked "runtime error: index out of range".

(** [s[i]] on a slice: a run-time panic when [i] is out of range. *)
Definition index {A} (s : list A) (i : nat) : outcome A :=
  match s !! i with
  | Some a => Returned a
  | None => index_out_of_range
  end.

(** ** The library sort

    [sort.Slice(x, less)] sorts [x] in place by [less]; the library promises
    a permutation that is ordered by [less] when [less] is a strict weak
    order, and states that the sort is not guaranteed to be stable. *)

Definition strict_weak {A} (less : A -> A -> bool) : Prop :=
  (forall a b, less a b = true -> less b a = false) /\
  (forall a b c, less a b = false -> less b c = false -> less a c = false).

Class GoSort : Type := {
  sort_Slice : forall {A : Type}, (A -> A -> bool) -> list A -> list A;
  sort_Slice_perm : forall (A : Type) (less : A -> A -> bool) (l : list A),
    sort_Slice less l ≡ₚ l;
  sort_Slice_sorted : forall (A : Type) (less : A -> A -> bool) (l : list A),
    strict_weak less ->
    StronglySorted (fun a b => less b a = false) (sort_Slice less l)
}.

Section Model.
Context {Any : Type}.

(** ** Vertex, Edge, Graph *)

Inductive Vertex : Type :=
  mkVertex { ID : Z; Name : string; VData : option Any; VEdges : list Edge }
with Edge : Type :=
  mkEdge { From : Vertex; To : Vertex; Weight : Z; EData : option Any }.

Record Graph : Type :=
  mkGraph { Vertices : gmap Z Vertex; Edges : list Edge; Directed : bool }.

(** The zero value of [Vertex], read from [g.Vertices] at a missing key. *)
Definition zero_Vertex : Vertex := mkVertex 0 "" None [].

Definition Reverse (e : Edge) : Edge :=
  mkEdge (To e) (From e) (Weight e) (EData e).

Definition Compare (e other : Edge) : Z :=
  if (Weight e <? Weight other)%Z then (-1)%Z
  else if (Weight e >? Weight other)%Z then 1%Z
  else 0%Z.

Definition NewGraph (directed : bool) : Graph := mkGraph ∅ [] directed.

(** ** The state monad of the graph methods *)

Definition M (A : Type) : Type := Graph -> outcome A * Graph.

Definition ret {A} (a : A) : M A := fun g => (Returned a, g).

Definition bind {A B} (c : M A) (k : A -> M B) : M B := fun g =>
  match c g with
  | (Returned a, g') => k a g'
  | (Panicked msg, g') => (Panicked msg, g')
  | (OutOfFuel, g') => (OutOfFuel, g')
  end.

Definition get : M Graph := fun g => (Returned g, g).
Definition put (g' : Graph) : M unit := fun _ => (Returned tt, g').
Definition panic {A} (msg : string) : M A := fun g => (Panicked msg, g).

Notation "x <- c1 ;; c2" := (bind c1 (fun x => c2))
  (at level 100, c1 at next level, right associativity).

(** [g.Vertices[id]]: the stored record, or the zero value. *)
Definition vertex_at (g : Graph) (id : Z) : Vertex :=
  default zero_Vertex (Vertices g !! id).

Definition has_vertex (g : Graph) (id : Z) : bool :=
  bool_decide (is_Some (Vertices g !! id)).

Definition set_vertex (id : Z) (v : Vertex) : M unit :=
  g <- get ;; put (mkGraph (<[id := v]> (Vertices g)) (Edges g) (Directed g)).

Definition GetVertex (id : Z) : M (Vertex * bool) :=
  g <- get ;; ret (vertex_at g id, has_vertex g id).

Definition AddVertex (vertex : Vertex) : M Vertex :=
  found <- GetVertex (ID vertex) ;;
  let '(v, exists_) := found in
  if exists_ then ret v
  else _ <- set_vertex (ID vertex) vertex ;; ret vertex.

Definition AddEdge (edge : Edge) : M Edge :=
  foundFrom <- GetVertex (ID (From edge)) ;;
  let '(from, fromExists) := foundFrom in
  foundTo <- GetVertex (ID (To edge)) ;;
  let '(to, toExists) := foundTo in
  from <- (if fromExists then ret from else AddVertex (From edge)) ;;
  to <- (if toExists then ret to else AddVertex (To edge)) ;;
  let newEdge := mkEdge from to (Weight edge) (EData edge) in
  g <- get ;;
  _ <- put (mkGraph (Vertices g) (Edges g ++ [newEdge]) (Directed g)) ;;
  g <- get ;;
  let fromVertex := vertex_at g (ID from) in
  let fromVertex :=
    mkVertex (ID fromVertex) (Name fromVertex) (VData fromVertex)
             (VEdges fromVertex ++ [newEdge]) in
  _ <- set_vertex (ID from) fromVertex ;;
  g <- get ;;
  _ <- (if Directed g then ret tt
        else
          let reverseEdge := Reverse newEdge in
          let toVertex := vertex_at g (ID to) in
          let toVertex :=
            mkVertex (ID toVertex) (Name toVertex) (VData toVertex)
                     (VEdges toVertex ++ [reverseEdge]) in
          set_vertex (ID to) toVertex) ;;
  ret newEdge.

Definition vertexCount (g : Graph) : Z := Z.of_nat (size (Vertices g)).

Definition VertexCount : M Z := g <- get ;; ret (vertexCount g).

Definition EdgeCount : M Z :=
  g <- get ;; ret (Z.of_nat (length (Edges g))).

(** ** Union-Find *)

Record UnionFind : Type := mkUnionFind { parent : gmap Z Z; rank : gmap Z Z }.

Definition NewUnionFind : UnionFind := mkUnionFind ∅ ∅.

Definition parent_at (uf : UnionFind) (x : Z) : Z := default 0%Z (parent uf !! x).
Definition rank_at (uf : UnionFind) (x : Z) : Z := default 0%Z (rank uf !! x).

Definition set_parent (x p : Z) (uf : UnionFind) : UnionFind :=
  mkUnionFind (<[x := p]> (parent uf)) (rank uf).
Definition set_rank (x r : Z) (uf : UnionFind) : UnionFind :=
  mkUnionFind (parent uf) (<[x := r]> (rank uf)).

Definition MakeSet (x : Z) (uf : UnionFind) : UnionFind :=
  if bool_decide (is_Some (parent uf !! x)) then uf
  else set_rank x 0 (set_parent x x uf).

(** [Find] is recursive along the parent links; the recursion depth is the
    fuel, and [None] is a call that would not return. *)
Fixpoint Find (fuel : nat) (x : Z) (uf : UnionFind) : option (Z * UnionFind) :=
  match fuel with
  | O => None
  | S fuel' =>
      if bool_decide (parent_at uf x ≠ x) then
        match Find fuel' (parent_at uf x) uf with
        | Some (r, uf') =>
            let uf'' := set_parent x r uf' in
            Some (parent_at uf'' x, uf'')
        | None => None
        end
      else Some (parent_at uf x, uf)
  end.

Definition Union (fuel : nat) (x y : Z) (uf : UnionFind)
  : option (bool * UnionFind) :=
  match Find fuel x uf with
  | None => None
  | Some (rootX, uf) =>
      match Find fuel y uf with
      | None => None
      | Some (rootY, uf) =>
          if bool_decide (rootX = rootY) then Some (false, uf)
          else if (rank_at uf rootX <? rank_at uf rootY)%Z then
            Some (true, set_parent rootX rootY uf)
          else if (rank_at uf rootX >? rank_at uf rootY)%Z then
            Some (true, set_parent rootY rootX uf)
          else
            let uf := set_parent rootY rootX uf in
            Some (true, set_rank rootX (wrap_int (rank_at uf rootX + 1)) uf)
      end
  end.

(** ** Kruskal *)

Definition by_weight (a b : Edge) : bool := (Weight a <? Weight b)%Z.

(** The loop [for _, edge := range edges] of [Kruskal]. *)
Fixpoint kruskal_loop (fuel : nat) (count : Z) (edges : list Edge)
    (uf : UnionFind) (mst : list Edge) (totalWeight : Z)
  : outcome (list Edge * Z) :=
  match edges with
  | [] => Returned (mst, totalWeight)
  | edge :: edges' =>
      match Union fuel (ID (From edge)) (ID (To edge)) uf with
      | None => OutOfFuel
      | Some (true, uf) =>
          let mst := mst ++ [edge] in
          let totalWeight := wrap_int (totalWeight + Weight edge) in
          if (Z.of_nat (length mst) =? count - 1)%Z
          then Returned (mst, totalWeight)
          else kruskal_loop fuel count edges' uf mst totalWeight
      | Some (false, uf) =>
          kruskal_loop fuel count edges' uf mst totalWeight
      end
  end.

Definition lift {A} (o : outcome A) : M A := fun g => (o, g).

(** [order] is the order in which [range g.Vertices] yields the keys. *)
Definition Kruskal `{GoSort} (order : list Z) : M (list Edge * Z) :=
  g <- get ;;
  if Directed g then
    panic "Kruskal algorithm only works for undirected graphs"
  else
    let mst := [] in
    let totalWeight := 0%Z in
    let edges := sort_Slice by_weight (Edges g) in
    let uf := foldl (fun uf id => MakeSet id uf) NewUnionFind order in
    lift (kruskal_loop (S (length (Edges g))) (vertexCount g)
                       edges uf mst totalWeight).

(** ** The priority queue of Prim *)

Abbreviation PriorityQueue := (list Edge).

Definition Len (pq : PriorityQueue) : nat := length pq.

Definition Less (pq : PriorityQueue) (i j : nat) : outcome bool :=
  a <~ index pq i ;;
  b <~ index pq j ;;
  Returned (Weight a <? Weight b)%Z.

Definition Swap (pq : PriorityQueue) (i j : nat) : outcome PriorityQueue :=
  a <~ index pq i ;;
  b <~ index pq j ;;
  Returned (<[i := b]> (<[j := a]> pq)).

Definition Push (pq : PriorityQueue) (x : Edge) : PriorityQueue := pq ++ [x].

Definition Pop (pq : PriorityQueue) : outcome (Edge * PriorityQueue) :=
  let old := pq in
  let n := length old in
  match n with
  | O => index_out_of_range
  | S n' =>
      item <~ index old n' ;;
      Returned (item, take n' old)
  end.

(** [container/heap]: [up], [down], [Init], [Push], [Pop].  Indices are
    naturals; [(j - 1) / 2] is [0] at [j = 0], as Go's truncated division
    gives.  The fuel bounds the number of iterations of the two loops. *)
Fixpoint up (fuel : nat) (h : PriorityQueue) (j : nat) : outcome PriorityQueue :=
  match fuel with
  | O => OutOfFuel
  | S fuel' =>
      let i := (j - 1) / 2 in
      if (i =? j)%nat then Returned h
      else
        lt <~ Less h j i ;;
        if negb lt then Returned h
        else h <~ Swap h i j ;; up fuel' h i
  end.

Fixpoint down (fuel : nat) (h : PriorityQueue) (i n : nat)
  : outcome PriorityQueue :=
  match fuel with
  | O => OutOfFuel
  | S fuel' =>
      let j1 := 2 * i + 1 in
      if (n <=? j1)%nat then Returned h
      else
        let j2 := j1 + 1 in
        j <~ (if (j2 <? n)%nat
              then lt <~ Less h j2 j1 ;; Returned (if lt then j2 else j1)
              else Returned j1) ;;
        lt <~ Less h j i ;;
        if negb lt then Returned h
        else h <~ Swap h i j ;; down fuel' h j n
  end.

Definition heap_Init (h : PriorityQueue) : outcome PriorityQueue :=
  let n := Len h in
  foldl (fun acc i => h <~ acc ;; down (S n) h i n) (Returned h)
        (rev (seq 0 (n / 2))).

Definition heap_Push (h : PriorityQueue) (x : Edge) : outcome PriorityQueue :=
  let h := Push h x in
  up (S (Len h)) h (Len h - 1).

Definition heap_Pop (h : PriorityQueue) : outcome (Edge * PriorityQueue) :=
  let n := Len h - 1 in
  h <~ Swap h 0 n ;;
  h <~ down (S n) h 0 n ;;
  Pop h.

(** ** Prim *)

Definition visited_at (visited : gmap Z bool) (id : Z) : bool :=
  default false (visited !! id).

Definition push_all (pq : PriorityQueue) (edges : list Edge)
  : outcome PriorityQueue :=
  foldl (fun acc edge => pq <~ acc ;; heap_Push pq edge) (Returned pq) edges.

Definition push_unvisited (visited : gmap Z bool) (pq : PriorityQueue)
    (edges : list Edge) : outcome PriorityQueue :=
  foldl (fun acc nextEdge =>
           pq <~ acc ;;
           if negb (visited_at visited (ID (To nextEdge)))
           then heap_Push pq nextEdge else Returned pq)
        (Returned pq) edges.

(** The loop [for pq.Len() > 0 && len(mst) < g.VertexCount()-1]. *)
Fixpoint prim_loop (fuel : nat) (g : Graph) (pq : PriorityQueue)
    (mst : list Edge) (totalWeight : Z) (visited : gmap Z bool)
  : outcome (list Edge * Z) :=
  match fuel with
  | O => OutOfFuel
  | S fuel' =>
      if (0 <? Len pq)%nat && (Z.of_nat (length mst) <? vertexCount g - 1)%Z
      then
        popped <~ heap_Pop pq ;;
        let '(edge, pq) := popped in
        if visited_at visited (ID (To edge)) then
          prim_loop fuel' g pq mst totalWeight visited
        else
          let mst := mst ++ [edge] in
          let totalWeight := wrap_int (totalWeight + Weight edge) in
          let visited := <[ID (To edge) := true]> visited in
          let toVertex := vertex_at g (ID (To edge)) in
          pq <~ push_unvisited visited pq (VEdges toVertex) ;;
          prim_loop fuel' g pq mst totalWeight visited
      else Returned (mst, totalWeight)
  end.

(** The number of adjacency entries stored in the graph. *)
Definition adjacency_total (g : Graph) : nat :=
  sum_list (map (fun kv => length (VEdges (snd kv))) (map_to_list (Vertices g))).

(** The result slice is [None] for Go's [nil]. *)
Definition Prim (startID : Z) : M (option (list Edge) * Z) :=
  g <- get ;;
  if Directed g then
    panic "Prim algorithm only works for undirected graphs"
  else
    match Vertices g !! startID with
    | None => ret (None, 0%Z)
    | Some start =>
        let mst := [] in
        let totalWeight := 0%Z in
        let visited : gmap Z bool := ∅ in
        lift (pq <~ heap_Init [] ;;
              let visited := <[ID start := true]> visited in
              pq <~ push_all pq (VEdges start) ;;
              r <~ prim_loop (S (length (VEdges start) + adjacency_total g))
                     g pq mst totalWeight visited ;;
              Returned (Some (fst r), snd r))
    end.

(** ** Connectivity *)

Fixpoint dfs (fuel : nat) (g : Graph) (nodeID : Z) (visited : gmap Z bool)
  : outcome (gmap Z bool) :=
  match fuel with
  | O => OutOfFuel
  | S fuel' =>
      let visited := <[nodeID := true]> visited in
      let vertex := vertex_at g nodeID in
      foldl (fun acc edge =>
               visited <~ acc ;;
               if negb (visited_at visited (ID (To edge)))
               then dfs fuel' g (ID (To edge)) visited
               else Returned visited)
            (Returned visited) (VEdges vertex)
  end.

(** [order] is the order in which [range g.Vertices] yields the keys; the
    loop keeps the first one. *)
Definition IsConnected (order : list Z) : M bool :=
  g <- get ;;
  if (vertexCount g =? 0)%Z then ret true
  else
    let startID := hd 0%Z order in
    let visited : gmap Z bool := ∅ in
    lift (visited <~ dfs (S (size (Vertices g))) g startID visited ;;
          Returned (Z.of_nat (size visited) =? vertexCount g)%Z).

Definition GetMSTWeight (mst : list Edge) : Z :=
  foldl (fun weight edge => wrap_int (weight + Weight edge)) 0%Z mst.

(** An iteration order of [range g.Vertices]: the keys, each once. *)
Definition range_order (g : Graph) (order : list Z) : Prop :=
  order ≡ₚ (map_to_list (Vertices g)).*1.

End Model.

(** ** The constructors *)

(** A call that returns a value or an error. *)
Inductive result (A : Type) : Type :=
| Ok (a : A)
| Err (msg : string).
Arguments Ok {A} a.
Arguments Err {A} msg.

Definition nil_dereference : string :=
  "runtime error: invalid memory address or nil pointer dereference".

Section Constructors.
Context {Any : Type}.
Implicit Types (g : @Graph Any) (v : @Vertex Any) (e : @Edge Any).

Definition NewVertex (id : Z) (name : string) (data : option Any)
    (edges : list (@Edge Any)) : result (@Vertex Any) :=
  if (length edges =? 0)%nat then Err "Vertex has no any edge"
  else Ok (mkVertex id name data edges).

(** An [Edge] value as a caller hands it in: each endpoint is a pointer,
    [None] when it is nil. *)
Record EdgeValue : Type :=
  mkEdgeValue { FromPtr : option (@Vertex Any); ToPtr : option (@Vertex Any);
                WeightOf : Z; DataOf : option Any }.

Definition NewEdge (From To : option (@Vertex Any)) (weight : Z)
    (data : option Any) : result EdgeValue :=
  match From, To with
  | None, None => Err "Edge has no any Vertex"
  | _, _ => Ok (mkEdgeValue From To weight data)
  end.

(** [AddEdge] on such a value: its first two statements read [edge.From.ID]
    and then [edge.To.ID], before the graph is written to. *)
Definition AddEdge_value (edge : EdgeValue) : M (@Edge Any) :=
  match FromPtr edge with
  | None => panic nil_dereference
  | Some from =>
      match ToPtr edge with
      | None => panic nil_dereference
      | Some to => AddEdge (mkEdge from to (WeightOf edge) (DataOf edge))
      end
  end.

End Constructors.

(** ** Printing vertices and edges *)

Section Printing.
Context {Any : Type}.
Implicit Types (v : @Vertex Any) (e : @Edge Any).

(** [fmt.Sprintf] with the verb [%d] writes an [int] in decimal, with a
    leading minus sign when it is negative: this is [pretty] on [Z]. *)
Definition Vertex_String v : string := "ID : " +:+ pretty (ID v).

Definition Edge_String e : string :=
  Vertex_String (From e) +:+ " ---> " +:+ pretty (Weight e) +:+ " ---> "
  +:+ Vertex_String (To e).

End Printing.

(** ** Two sorts that meet the library contract

    [insertion_sort] is the insertion sort of the Go library
    ([for j := i; j > a && less(j, j-1); j--]), which keeps equal elements
    in their order.  [eager_sort] moves an element left past every element
    that is not smaller ([!less(j-1, j)]): it orders by [less] as well, but
    reverses equal elements. *)

Section Sorts.
Context {A : Type}.

(** [acc] is the sorted prefix, last element first. *)
Fixpoint ins_gen (pass : A -> A -> bool) (x : A) (acc : list A) : list A :=
  match acc with
  | [] => [x]
  | y :: r => if pass x y then y :: ins_gen pass x r else x :: acc
  end.

Definition sort_gen (pass : A -> A -> bool) (l : list A) : list A :=
  rev (foldl (fun acc x => ins_gen pass x acc) [] l).

Definition insertion_sort (less : A -> A -> bool) : list A -> list A :=
  sort_gen less.

Definition eager_sort (less : A -> A -> bool) : list A -> list A :=
  sort_gen (fun x y => negb (less y x)).

Lemma ins_gen_perm pass x acc : ins_gen pass x acc ≡ₚ x :: acc.
Proof.
  induction acc as [|y r IH]; simpl; [done|].
  destruct (pass x y); [|done].
  rewrite IH. apply perm_swap.
Qed.

Lemma sort_gen_perm pass l : sort_gen pass l ≡ₚ l.
Proof.
  unfold sort_gen. rewrite <- Permutation_rev.
  assert (Hgen : forall acc, foldl (fun acc x => ins_gen pass x acc) acc l ≡ₚ l ++ acc).
  { induction l as [|x l IH]; intros acc; simpl; [done|].
    rewrite IH, ins_gen_perm. by rewrite Permutation_middle. }
  rewrite Hgen. by rewrite app_nil_r.
Qed.

Lemma ins_gen_sorted (less pass : A -> A -> bool) x acc :
  strict_weak less ->
  (forall a b, pass a b = true -> less b a = false) ->
  (forall a b, pass a b = false -> less a b = false) ->
  StronglySorted (fun a b => less a b = false) acc ->
  StronglySorted (fun a b => less a b = false) (ins_gen pass x acc).
Proof.
  intros [Hasym Htrans] Hp1 Hp2. induction acc as [|y r IH]; intros Hs; simpl.
  - repeat constructor.
  - apply StronglySorted_inv in Hs as [Hr Hy].
    destruct (pass x y) eqn:Hpass.
    + constructor; [by apply IH|].
      rewrite ins_gen_perm. constructor; [by apply Hp1 | done].
    + constructor; [by constructor|].
      constructor; [by apply Hp2|].
      eapply Forall_impl; [exact Hy|]. intros z Hz.
      eapply Htrans; [by apply Hp2 | done].
Qed.

Lemma rev_sorted (Q : A -> A -> Prop) l :
  StronglySorted Q l -> StronglySorted (fun a b => Q b a) (rev l).
Proof.
  induction 1 as [|a l Hl IH Ha]; simpl; [constructor|].
  apply StronglySorted_app. split_and!.
  - intros x1 x2 Hx1 Hx2. apply list_elem_of_singleton in Hx2 as ->.
    rewrite Forall_forall in Ha. apply Ha.
    apply list_elem_of_In, in_rev. by apply list_elem_of_In.
  - done.
  - repeat constructor.
Qed.

Lemma sort_gen_sorted (less pass : A -> A -> bool) l :
  strict_weak less ->
  (forall a b, pass a b = true -> less b a = false) ->
  (forall a b, pass a b = false -> less a b = false) ->
  StronglySorted (fun a b => less b a = false) (sort_gen pass l).
Proof.
  intros Hsw Hp1 Hp2. unfold sort_gen.
  apply (rev_sorted (fun a b => less a b = false)).
  assert (Hgen : forall acc,
    StronglySorted (fun a b => less a b = false) acc ->
    StronglySorted (fun a b => less a b = false)
      (foldl (fun acc x => ins_gen pass x acc) acc l)).
  { induction l as [|x l IH]; intros acc Hacc; simpl; [done|].
    apply IH. by eapply ins_gen_sorted. }
  apply Hgen. constructor.
Qed.

End Sorts.

Lemma insertion_sort_sorted (A : Type) (less : A -> A -> bool) (l : list A) :
  strict_weak less ->
  StronglySorted (fun a b => less b a = false) (insertion_sort less l).
Proof.
  intros Hsw. apply sort_gen_sorted; [done| |done].
  destruct Hsw as [Hasym _]. exact Hasym.
Qed.

Lemma eager_sort_sorted (A : Type) (less : A -> A -> bool) (l : list A) :
  strict_weak less ->
  StronglySorted (fun a b => less b a = false) (eager_sort less l).
Proof.
  intros Hsw. apply sort_gen_sorted; [done| |].
  - intros a b Hab. by apply negb_true_iff in Hab.
  - intros a b Hab. apply negb_false_iff in Hab.
    destruct Hsw as [Hasym _]. by apply Hasym.
Qed.

Definition insertion_GoSort : GoSort :=
  {| sort_Slice := @insertion_sort;
     sort_Slice_perm := fun A less l => sort_gen_perm less l;
     sort_Slice_sorted := insertion_sort_sorted |}.

Definition eager_GoSort : GoSort :=
  {| sort_Slice := @eager_sort;
     sort_Slice_perm := fun A less l => sort_gen_perm _ l;
     sort_Slice_sorted := eager_sort_sorted |}.

(** * Properties *)

Section GraphProperties.
Context {Any : Type}.
Implicit Types (g : @Graph Any) (v vertex : @Vertex Any) (e edge : @Edge Any).

(** Every record is stored under its own identity. *)
Definition ids_agree g : Prop :=
  forall k v, Vertices g !! k = Some v -> ID v = k.

(** The graph once both endpoints of [edge] are present. *)
Definition endpoints_ensured edge g : Graph :=
  snd (AddVertex (To edge) (snd (AddVertex (From edge) g))).

Lemma has_vertex_Some g k v : Vertices g !! k = Some v -> has_vertex g k = true.
Proof. intros Hk. unfold has_vertex. apply bool_decide_eq_true. by rewrite Hk. Qed.

Lemma has_vertex_None g k : Vertices g !! k = None -> has_vertex g k = false.
Proof.
  intros Hk. unfold has_vertex. apply bool_decide_eq_false. rewrite Hk.
  by intros [? ?].
Qed.

Lemma AddVertex_present g vertex stored :
  Vertices g !! ID vertex = Some stored ->
  AddVertex vertex g = (Returned stored, g).
Proof.
  intros Hk. unfold AddVertex, GetVertex, bind, get, ret, vertex_at. simpl.
  by rewrite (has_vertex_Some _ _ _ Hk), Hk.
Qed.

Lemma AddVertex_absent g vertex :
  Vertices g !! ID vertex = None ->
  AddVertex vertex g =
    (Returned vertex,
     mkGraph (<[ID vertex := vertex]> (Vertices g)) (Edges g) (Directed g)).
Proof.
  intros Hk. unfold AddVertex, GetVertex, set_vertex, bind, get, put, ret. simpl.
  by rewrite (has_vertex_None _ _ Hk).
Qed.

(** C8. Inserting a vertex whose identity is already present changes nothing
    and returns the stored record; in particular, of two insertions under
    one identity, the first is the one that stays: its name and payload are
    kept and the vertex count does not move. *)
Theorem AddVertex_first_writer_wins g vertex stored :
  Vertices g !! ID vertex = Some stored ->
  AddVertex vertex g = (Returned stored, g) /\
  vertex_at (snd (AddVertex vertex g)) (ID vertex) = stored /\
  Name (vertex_at (snd (AddVertex vertex g)) (ID vertex)) = Name stored /\
  VData (vertex_at (snd (AddVertex vertex g)) (ID vertex)) = VData stored /\
  vertexCount (snd (AddVertex vertex g)) = vertexCount g /\
  (forall first g0,
      Vertices g0 !! ID first = None -> ID vertex = ID first ->
      let g1 := snd (AddVertex first g0) in
      AddVertex vertex g1 = (Returned first, g1)).
Proof.
  intros Hk. rewrite (AddVertex_present _ _ _ Hk). simpl.
  unfold vertex_at. rewrite Hk. simpl. split_and!; try done.
  intros first g0 Hnone Hid.
  rewrite (AddVertex_absent _ _ Hnone). simpl.
  apply AddVertex_present. simpl. rewrite Hid. apply lookup_insert_eq.
Qed.

Lemma ids_agree_insert g v :
  ids_agree g ->
  ids_agree (mkGraph (<[ID v := v]> (Vertices g)) (Edges g) (Directed g)).
Proof.
  intros Hg k v'. simpl. rewrite lookup_insert. case_decide.
  - intros [= <-]. done.
  - apply Hg.
Qed.

Lemma AddVertex_lookup g vertex :
  exists stored,
    AddVertex vertex g =
      (Returned stored,
       mkGraph (<[ID vertex := stored]> (Vertices g)) (Edges g) (Directed g)) /\
    Vertices (snd (AddVertex vertex g)) !! ID vertex = Some stored /\
    stored = default vertex (Vertices g !! ID vertex).
Proof.
  destruct (Vertices g !! ID vertex) as [s|] eqn:Hk.
  - exists s. rewrite (AddVertex_present _ _ _ Hk). simpl.
    rewrite insert_id by done. by destruct g.
  - exists vertex. rewrite (AddVertex_absent _ _ Hk). simpl.
    by rewrite lookup_insert_eq.
Qed.

(** The body of [AddEdge] once the two endpoint records are known. *)
Lemma AddEdge_unfold g edge :
  let g1 := endpoints_ensured edge g in
  let from := vertex_at g1 (ID (From edge)) in
  let to := vertex_at g1 (ID (To edge)) in
  let newEdge := mkEdge from to (Weight edge) (EData edge) in
  let fromVertex := vertex_at g1 (ID from) in
  let vs2 := <[ID from :=
                 mkVertex (ID fromVertex) (Name fromVertex) (VData fromVertex)
                          (VEdges fromVertex ++ [newEdge])]> (Vertices g1) in
  let toVertex := default zero_Vertex (vs2 !! ID to) in
  let vs3 :=
    if Directed g then vs2
    else <[ID to :=
             mkVertex (ID toVertex) (Name toVertex) (VData toVertex)
                      (VEdges toVertex ++ [Reverse newEdge])]> vs2 in
  AddEdge edge g =
    (Returned newEdge, mkGraph vs3 (Edges g ++ [newEdge]) (Directed g)).
Proof.
  intros g1 from to newEdge fromVertex vs2 toVertex vs3.
  subst vs3 toVertex vs2 fromVertex newEdge to from g1.
  unfold endpoints_ensured, AddEdge, GetVertex, bind, get, put, ret, set_vertex.
  simpl.
  destruct (Vertices g !! ID (From edge)) as [sf|] eqn:Hf;
    destruct (Vertices g !! ID (To edge)) as [st|] eqn:Ht;
    rewrite ?(has_vertex_Some _ _ _ Hf), ?(has_vertex_None _ _ Hf),
            ?(has_vertex_Some _ _ _ Ht), ?(has_vertex_None _ _ Ht);
    rewrite ?(AddVertex_present _ _ _ Hf), ?(AddVertex_absent _ _ Hf); simpl.
  - rewrite (AddVertex_present _ _ _ Ht). simpl.
    unfold vertex_at. simpl. rewrite ?Hf, ?Ht. simpl. by destruct (Directed g).
  - rewrite (AddVertex_absent _ _ Ht). simpl.
    assert (Hne : ID (To edge) ≠ ID (From edge)) by congruence.
    unfold vertex_at. simpl.
    repeat progress
      (rewrite ?Hf, ?Ht, ?lookup_insert_eq;
       repeat rewrite (lookup_insert_ne _ (ID (To edge)) (ID (From edge))) by done;
       simpl).
    by destruct (Directed g).
  - assert (Hne : ID (From edge) ≠ ID (To edge)) by congruence.
    rewrite (AddVertex_present _ _ st) by (simpl; by rewrite lookup_insert_ne).
    simpl. unfold vertex_at. simpl.
    repeat progress
      (rewrite ?Hf, ?Ht, ?lookup_insert_eq;
       repeat rewrite (lookup_insert_ne _ (ID (From edge)) (ID (To edge))) by done;
       simpl).
    by destruct (Directed g).
  - destruct (decide (ID (To edge) = ID (From edge))) as [Heq|Hne].
    + rewrite (AddVertex_present _ _ (From edge))
        by (simpl; rewrite Heq; apply lookup_insert_eq).
      simpl. unfold vertex_at. simpl.
      repeat progress (rewrite ?Heq, ?Hf, ?lookup_insert_eq; simpl).
      by destruct (Directed g).
    + rewrite AddVertex_absent by (simpl; by rewrite lookup_insert_ne).
      simpl. unfold vertex_at. simpl.
      repeat progress
        (rewrite ?Hf, ?Ht, ?lookup_insert_eq;
         repeat rewrite (lookup_insert_ne _ (ID (To edge)) (ID (From edge))) by done;
         repeat rewrite (lookup_insert_ne _ (ID (From edge)) (ID (To edge))) by done;
         simpl).
      by destruct (Directed g).
Qed.

Lemma insert_default_inv (m : gmap Z (@Vertex Any)) x k v :
  <[ID x := default x (m !! ID x)]> m !! k = Some v ->
  m !! k = Some v \/ (m !! k = None /\ k = ID x /\ v = x).
Proof.
  rewrite lookup_insert. case_decide as Hk; [|by left].
  subst k. intros [= <-].
  destruct (m !! ID x) eqn:Hl; simpl; [by left | by right].
Qed.

Lemma endpoints_ensured_spec g edge :
  let g1 := endpoints_ensured edge g in
  Edges g1 = Edges g /\ Directed g1 = Directed g /\
  is_Some (Vertices g1 !! ID (From edge)) /\
  is_Some (Vertices g1 !! ID (To edge)) /\
  (forall k, k ≠ ID (From edge) -> k ≠ ID (To edge) ->
             Vertices g1 !! k = Vertices g !! k) /\
  (forall k v, Vertices g !! k = Some v -> Vertices g1 !! k = Some v) /\
  (forall k v, Vertices g1 !! k = Some v ->
     Vertices g !! k = Some v \/
     (Vertices g !! k = None /\
      ((k = ID (From edge) /\ v = From edge) \/
       (k = ID (To edge) /\ v = To edge)))).
Proof.
  unfold endpoints_ensured.
  destruct (AddVertex_lookup g (From edge)) as (sf & Hf1 & Hf2 & Hf3).
  rewrite Hf1 in *. simpl in *.
  set (ga := mkGraph (<[ID (From edge) := sf]> (Vertices g)) (Edges g) (Directed g)) in *.
  destruct (AddVertex_lookup ga (To edge)) as (st & Ht1 & Ht2 & Ht3).
  rewrite Ht1 in *. simpl in *.
  split_and!; try done.
  - destruct (decide (ID (To edge) = ID (From edge))) as [->|Hne].
    + rewrite lookup_insert_eq. by eexists.
    + rewrite lookup_insert_ne by done. rewrite lookup_insert_eq. by eexists.
  - intros k Hk1 Hk2. by rewrite !lookup_insert_ne by done.
  - intros k v Hk.
    assert (Hsf : <[ID (From edge):=sf]> (Vertices g) !! k = Some v).
    { rewrite lookup_insert. case_decide as Hk1; [|done].
      subst k sf. by rewrite Hk. }
    rewrite lookup_insert. case_decide as Hk1; [|done].
    subst k st. by rewrite Hsf.
  - intros k v Hk. subst st.
    apply insert_default_inv in Hk as [Hk | (Hnone & -> & ->)].
    + subst sf. apply insert_default_inv in Hk as [Hk | (Hnone & -> & ->)].
      * by left.
      * right. split; [done|]. by left.
    + right. split; [|by right].
      rewrite lookup_insert in Hnone. by case_decide.
Qed.

Lemma ids_agree_endpoints g edge :
  ids_agree g -> ids_agree (endpoints_ensured edge g).
Proof.
  intros Hg k v Hk.
  destruct (endpoints_ensured_spec g edge) as (_ & _ & _ & _ & _ & _ & Hinv).
  destruct (Hinv k v Hk) as [Hold | (_ & [[-> ->] | [-> ->]])]; eauto.
Qed.


End GraphProperties.

Section Guards.
Context {Any : Type} `{GoSort}.
Implicit Types (g : @Graph Any).

(** C1, as the code has it.  On a directed graph [Kruskal] and [Prim] stop at
    their first statement with a panic that carries a fixed message: nothing
    is computed, the graph is left as it was, and no value is returned to
    the caller. *)
Theorem directed_graph_panics g order startID :
  Directed g = true ->
  Kruskal order g =
    (Panicked "Kruskal algorithm only works for undirected graphs", g) /\
  Prim startID g =
    (Panicked "Prim algorithm only works for undirected graphs", g).
Proof.
  intros Hdir. unfold Kruskal, Prim, bind, get, panic. simpl.
  by rewrite Hdir.
Qed.

(** C2, as the code has it.  When the start identity is absent, [Prim] on an
    undirected graph returns at once the pair of the nil slice and weight
    zero, an ordinary return value; on a directed graph the panic of the
    first statement comes first. *)
Theorem Prim_absent_start g startID :
  Vertices g !! startID = None ->
  Prim startID g =
    (if Directed g
     then Panicked "Prim algorithm only works for undirected graphs"
     else Returned (None, 0%Z), g).
Proof.
  intros Habs. unfold Prim, bind, get, panic, ret. simpl.
  destruct (Directed g); [done|]. by rewrite Habs.
Qed.

Lemma Kruskal_frame g order : snd (Kruskal order g) = g.
Proof.
  unfold Kruskal, bind, get, panic, lift. simpl. by destruct (Directed g).
Qed.

Lemma Prim_frame g startID : snd (Prim startID g) = g.
Proof.
  unfold Prim, bind, get, panic, ret, lift. simpl.
  destruct (Directed g); [done|]. by destruct (Vertices g !! startID).
Qed.

Lemma IsConnected_frame g order : snd (IsConnected order g) = g.
Proof.
  unfold IsConnected, bind, get, ret, lift. simpl.
  by destruct (vertexCount g =? 0)%Z.
Qed.

(** C10. [Kruskal], [Prim] and [IsConnected] leave the graph as it was: the
    vertex map (with every adjacency list) and the global edge sequence are
    the same after the call as before, whatever the outcome. *)
Theorem algorithms_leave_graph_unchanged g order startID :
  snd (Kruskal order g) = g /\
  snd (Prim startID g) = g /\
  snd (IsConnected order g) = g.
Proof.
  split_and!;
    [apply Kruskal_frame | apply Prim_frame | apply IsConnected_frame].
Qed.

Lemma MakeSet_present x uf :
  is_Some (parent uf !! x) -> MakeSet x uf = uf.
Proof. intros Hx. unfold MakeSet. by rewrite bool_decide_eq_true_2. Qed.

Lemma MakeSet_absent x uf :
  parent uf !! x = None ->
  MakeSet x uf = mkUnionFind (<[x := x]> (parent uf)) (<[x := 0%Z]> (rank uf)).
Proof.
  intros Hx. unfold MakeSet. rewrite bool_decide_eq_false_2; [done|].
  rewrite Hx. by intros [? ?].
Qed.

Lemma MakeSet_comm x y uf :
  MakeSet x (MakeSet y uf) = MakeSet y (MakeSet x uf).
Proof.
  destruct (decide (x = y)) as [->|Hne]; [done|].
  destruct (parent uf !! x) as [px|] eqn:Hx;
    destruct (parent uf !! y) as [py|] eqn:Hy.
  - by rewrite !MakeSet_present by (rewrite ?MakeSet_present; by eexists).
  - rewrite (MakeSet_present x uf), (MakeSet_absent y uf) by (done || by eexists).
    apply MakeSet_present. simpl. rewrite lookup_insert_ne by done. by eexists.
  - rewrite (MakeSet_present y uf), (MakeSet_absent x uf) by (done || by eexists).
    symmetry. apply MakeSet_present. simpl.
    rewrite lookup_insert_ne by done. by eexists.
  - rewrite (MakeSet_absent y uf), (MakeSet_absent x uf) by done.
    rewrite !MakeSet_absent by (simpl; by rewrite lookup_insert_ne).
    simpl. f_equal; by apply insert_insert_ne.
Qed.

Lemma MakeSet_fold_perm (l1 l2 : list Z) :
  l1 ≡ₚ l2 -> forall uf,
  foldl (fun uf id => MakeSet id uf) uf l1 =
  foldl (fun uf id => MakeSet id uf) uf l2.
Proof.
  induction 1 as [|x l1 l2 _ IH|x y l|l1 l2 l3 _ IH1 _ IH2]; intros uf; simpl.
  - done.
  - apply IH.
  - by rewrite MakeSet_comm.
  - by rewrite IH1, IH2.
Qed.

(** C9. On a graph that is not modified between the calls, a second run of
    [Kruskal] returns the edge sequence and weight of the first, whatever
    order the map iteration takes in either run, and a second run of [Prim]
    from the same start returns those of the first. *)
Theorem algorithms_are_deterministic g order1 order2 startID :
  range_order g order1 -> range_order g order2 ->
  fst (Kruskal order2 (snd (Kruskal order1 g))) = fst (Kruskal order1 g) /\
  fst (Prim startID (snd (Prim startID g))) = fst (Prim startID g).
Proof.
  intros H1 H2.
  rewrite Kruskal_frame, Prim_frame. split; [|done].
  unfold Kruskal, bind, get, panic, lift. simpl.
  destruct (Directed g); [done|]. simpl.
  rewrite (MakeSet_fold_perm order2 order1); [done|].
  unfold range_order in *. by rewrite H1, H2.
Qed.

End Guards.

(** ** Spanning edge sets and the exchange argument

    An edge is seen here as its two endpoint identities and its weight; the
    orientation does not matter. *)

Section SpanningTrees.

Definition tri : Type := Z * Z * Z.
Definition src (e : tri) : Z := e.1.1.
Definition dst (e : tri) : Z := e.1.2.
Definition wt (e : tri) : Z := e.2.

Definition ends (e : tri) (a b : Z) : Prop :=
  (src e = a /\ dst e = b) \/ (src e = b /\ dst e = a).

(** [conn G x y]: a walk along edges of [G], taken in either direction. *)
Inductive conn (G : list tri) : Z -> Z -> Prop :=
| conn_refl x : conn G x x
| conn_step x y z e : e ∈ G -> ends e x y -> conn G y z -> conn G x z.

Definition weight_sum (T : list tri) : Z := foldr (fun e acc => (wt e + acc)%Z) 0%Z T.

Lemma ends_sym e a b : ends e a b -> ends e b a.
Proof. unfold ends. tauto. Qed.

Lemma conn_trans G x y z : conn G x y -> conn G y z -> conn G x z.
Proof. induction 1; [done|]. intros. eapply conn_step; eauto. Qed.

Lemma conn_edge G e a b : e ∈ G -> ends e a b -> conn G a b.
Proof. intros. eapply conn_step; eauto. constructor. Qed.

Lemma conn_sym G x y : conn G x y -> conn G y x.
Proof.
  induction 1 as [|x y z e He Hends _ IH]; [constructor|].
  eapply conn_trans; [exact IH|].
  eapply conn_edge; [exact He|]. by apply ends_sym.
Qed.

Lemma conn_mono G G' x y :
  (forall e, e ∈ G -> e ∈ G') -> conn G x y -> conn G' x y.
Proof. intros Hsub. induction 1; [constructor|]. eapply conn_step; eauto. Qed.

Lemma conn_perm G G' x y : G ≡ₚ G' -> conn G x y -> conn G' x y.
Proof. intros Hp. apply conn_mono. intros e. by rewrite Hp. Qed.

Lemma conn_cons G g x y : conn G x y -> conn (g :: G) x y.
Proof. apply conn_mono. intros e He. by apply list_elem_of_further. Qed.

(** A walk in [g :: G] stays in [G] or crosses [g] once. *)
Lemma conn_split G g x y :
  conn (g :: G) x y ->
  conn G x y \/ exists c d, ends g c d /\ conn G x c /\ conn G d y.
Proof.
  induction 1 as [x|x x' y e He Hends _ IH].
  - left. apply conn_refl.
  - apply elem_of_cons in He as [->|He].
    + destruct IH as [IH | (c & d & Hcd & Hc & Hd)].
      * right. exists x, x'. split_and!; [done|apply conn_refl|done].
      * assert (Hcase : (x = c /\ x' = d) \/ (x = d /\ x' = c)).
        { unfold ends in *. destruct Hends as [[? ?]|[? ?]], Hcd as [[? ?]|[? ?]];
            [left|right|right|left]; split; congruence. }
        destruct Hcase as [[-> ->]|[-> ->]].
        -- right. exists c, d. split_and!; [done|apply conn_refl|done].
        -- by left.
    + destruct IH as [IH | (c & d & Hcd & Hc & Hd)].
      * left. eapply conn_step; eauto.
      * right. exists c, d. split_and!; [done| |done].
        eapply conn_step; eauto.
Qed.

Lemma weight_sum_perm T T' : T ≡ₚ T' -> weight_sum T = weight_sum T'.
Proof.
  induction 1; unfold weight_sum in *; simpl in *; lia.
Qed.

Section Cut.
Variable S : Z -> Prop.
Hypothesis S_dec : forall z, S z \/ ~ S z.

(** A walk that leaves [S] uses an edge that leaves [S], and the rest of the
    edge set still links the two ends of the walk to the two ends of that
    edge. *)
Lemma find_bridge G : forall u v,
  conn G u v -> S u -> ~ S v ->
  exists e' Rest a b,
    G ≡ₚ e' :: Rest /\ ends e' a b /\ S a /\ ~ S b /\
    conn Rest u a /\ conn Rest b v.
Proof.
  induction G as [|g G IH]; intros u v Huv Hu Hv.
  - inversion Huv as [|? ? ? e He]; subst; [done|]. by apply elem_of_nil in He.
  - assert (Hlift : forall u v, conn G u v -> S u -> ~ S v ->
      exists e' Rest a b,
        g :: G ≡ₚ e' :: Rest /\ ends e' a b /\ S a /\ ~ S b /\
        conn Rest u a /\ conn Rest b v).
    { intros u0 v0 H0 Hu0 Hv0.
      destruct (IH u0 v0 H0 Hu0 Hv0)
        as (e' & Rest & a & b & Hp & He & Ha & Hb & H1 & H2).
      exists e', (g :: Rest), a, b. split_and!; try done.
      - rewrite Hp. apply perm_swap.
      - by apply conn_cons.
      - by apply conn_cons. }
    apply conn_split in Huv as [Huv | (c & d & Hcd & Hc & Hd)];
      [by apply Hlift|].
    destruct (S_dec c) as [Sc|Sc]; [destruct (S_dec d) as [Sd|Sd]|].
    + (* both ends of g are inside: the walk leaves S between d and v *)
      destruct (IH d v Hd Sd Hv)
        as (e' & Rest & a & b & Hp & He & Ha & Hb & H1 & H2).
      assert (Hc' : conn (e' :: Rest) u c) by (by eapply conn_perm).
      apply conn_split in Hc' as [Hc' | (c' & d' & Hcd' & Hc' & Hd')].
      * exists e', (g :: Rest), a, b. split_and!; try done.
        -- rewrite Hp. apply perm_swap.
        -- eapply conn_trans; [by apply conn_cons|].
           eapply conn_trans; [|by apply conn_cons].
           eapply conn_edge; [by left | done].
        -- by apply conn_cons.
      * assert (Hcase : (c' = a /\ d' = b) \/ (c' = b /\ d' = a)).
        { unfold ends in *. destruct He as [[? ?]|[? ?]], Hcd' as [[? ?]|[? ?]];
            [left|right|right|left]; split; congruence. }
        destruct Hcase as [[-> ->]|[-> ->]].
        -- exists e', (g :: Rest), a, b. split_and!; try done.
           ++ rewrite Hp. apply perm_swap.
           ++ by apply conn_cons.
           ++ by apply conn_cons.
        -- apply Hlift; [|done|done].
           apply (conn_perm (e' :: Rest)); [done|]. apply conn_cons.
           by eapply conn_trans.
    + exists g, G, c, d. by split_and!.
    + (* the walk leaves S between u and c *)
      destruct (IH u c Hc Hu Sc)
        as (e' & Rest & a & b & Hp & He & Ha & Hb & H1 & H2).
      assert (Hd' : conn (e' :: Rest) d v) by (by eapply conn_perm).
      apply conn_split in Hd' as [Hd' | (c' & d' & Hcd' & Hc' & Hd')].
      * exists e', (g :: Rest), a, b. split_and!; try done.
        -- rewrite Hp. apply perm_swap.
        -- by apply conn_cons.
        -- eapply conn_trans; [by apply conn_cons|].
           eapply conn_trans; [|by apply conn_cons].
           eapply conn_edge; [by left | done].
      * assert (Hcase : (c' = a /\ d' = b) \/ (c' = b /\ d' = a)).
        { unfold ends in *. destruct He as [[? ?]|[? ?]], Hcd' as [[? ?]|[? ?]];
            [left|right|right|left]; split; congruence. }
        destruct Hcase as [[-> ->]|[-> ->]].
        -- exists e', (g :: Rest), a, b. split_and!; try done.
           ++ rewrite Hp. apply perm_swap.
           ++ by apply conn_cons.
           ++ by apply conn_cons.
        -- apply Hlift; [|done|done].
           apply (conn_perm (e' :: Rest)); [done|]. apply conn_cons.
           by eapply conn_trans.
Qed.

End Cut.
End SpanningTrees.

Section Exchange.
Variable D : gset Z.
Variable Esym : tri -> Prop.

(** [T] uses edges of the graph only and links every two vertices. *)
Definition spanning (T : list tri) : Prop :=
  (forall e, e ∈ T -> Esym e) /\
  (forall x y, x ∈ D -> y ∈ D -> conn T x y).

(** [F] can be completed, at no cost, inside any spanning set of [n] edges. *)
Definition safe (n : nat) (F : list tri) : Prop :=
  forall T, spanning T -> length T = n ->
  exists T', spanning T' /\ length T' = n /\ F ⊆+ T' /\
             (weight_sum T' <= weight_sum T)%Z.

Lemma safe_nil n : safe n [].
Proof.
  intros T HT Hlen. exists T. split_and!; [done|done| |lia].
  apply submseteq_nil_l.
Qed.

(** The cut property: a lightest edge leaving [S] can be added to an edge
    set that does not leave [S]. *)
Lemma safe_step n (S : Z -> Prop) F e u v :
  (forall z, S z \/ ~ S z) ->
  (forall f a b, f ∈ F -> ends f a b -> S a -> S b) ->
  Esym e -> ends e u v -> S u -> ~ S v -> u ∈ D -> v ∈ D ->
  (forall e' a b, Esym e' -> ends e' a b -> S a -> ~ S b ->
                  (wt e <= wt e')%Z) ->
  safe n F -> safe n (e :: F).
Proof.
  intros Sdec Hin He Hends Su Sv Hu Hv Hmin Hsafe T HT Hlen.
  destruct (Hsafe T HT Hlen) as (T' & [Hmem Hconn] & Hlen' & Hsub & Hw).
  destruct (find_bridge S Sdec T' u v (Hconn u v Hu Hv) Su Sv)
    as (e' & Rest & a & b & Hp & He' & Sa & Sb & H1 & H2).
  assert (Hab : conn (e :: Rest) a b).
  { eapply conn_trans; [apply conn_cons, conn_sym, H1|].
    eapply conn_trans; [|apply conn_cons, conn_sym, H2].
    eapply conn_edge; [by left | done]. }
  exists (e :: Rest). split_and!.
  - split.
    + intros x [->|Hx]%elem_of_cons; [done|].
      apply Hmem. rewrite Hp. by right.
    + intros x y Hx Hy.
      pose proof (conn_perm _ _ _ _ Hp (Hconn x y Hx Hy)) as Hxy.
      apply conn_split in Hxy as [Hxy | (c & d & Hcd & Hc & Hd)];
        [by apply conn_cons|].
      assert (Hcase : (c = a /\ d = b) \/ (c = b /\ d = a)).
      { unfold ends in *. destruct He' as [[? ?]|[? ?]], Hcd as [[? ?]|[? ?]];
          [left|right|right|left]; split; congruence. }
      eapply conn_trans; [apply conn_cons, Hc|].
      eapply conn_trans; [|apply conn_cons, Hd].
      destruct Hcase as [[-> ->]|[-> ->]]; [done | by apply conn_sym].
  - rewrite <- Hlen'. rewrite (Permutation_length Hp). done.
  - apply submseteq_skip. rewrite Hp in Hsub.
    apply submseteq_cons_r in Hsub as [Hsub | (l' & Hl & _)]; [done|].
    exfalso. apply Sb. apply (Hin e' a b); [|done|done].
    rewrite Hl. by left.
  - assert (Hle : (wt e <= wt e')%Z).
    { apply (Hmin e' a b); try done. apply Hmem. rewrite Hp. by left. }
    rewrite (weight_sum_perm _ _ Hp) in Hw. unfold weight_sum in *. simpl in *.
    lia.
Qed.

Lemma safe_final n F T :
  safe n F -> length F = n -> spanning T -> length T = n ->
  (weight_sum F <= weight_sum T)%Z.
Proof.
  intros Hsafe HF HT Hlen.
  destruct (Hsafe T HT Hlen) as (T' & _ & Hlen' & Hsub & Hw).
  rewrite (weight_sum_perm F T'); [done|].
  apply submseteq_length_Permutation; [done|lia].
Qed.

(** Two spanning sets of the same size that are both safe weigh the same. *)
Lemma safe_weight_unique n K P :
  safe n K -> safe n P -> spanning K -> spanning P ->
  length K = n -> length P = n ->
  weight_sum K = weight_sum P.
Proof.
  intros HK HP HsK HsP HlK HlP.
  pose proof (safe_final n K P HK HlK HsP HlP).
  pose proof (safe_final n P K HP HlP HsK HlK). lia.
Qed.

End Exchange.

(** ** Union-find: representatives *)

Section UnionFindTheory.
Implicit Types (uf : UnionFind) (x y r : Z).

(** [reprn uf n x r]: following the parent links from [x] reaches the root
    [r] after [n] steps. *)
Inductive reprn uf : nat -> Z -> Z -> Prop :=
| reprn_root x : parent_at uf x = x -> reprn uf 0 x x
| reprn_step n x r :
    parent_at uf x ≠ x -> reprn uf n (parent_at uf x) r -> reprn uf (S n) x r.

Definition repr uf x r : Prop := exists n, reprn uf n x r.

Lemma reprn_fun uf n x r :
  reprn uf n x r -> forall m r', reprn uf m x r' -> n = m /\ r = r'.
Proof.
  induction 1 as [x Hx|n x r Hx _ IH]; intros m r' H'.
  - inversion H'; subst; [done|congruence].
  - inversion H' as [|m' ? ? ? Hrec]; subst; [congruence|].
    destruct (IH _ _ Hrec) as [-> ->]. done.
Qed.

Lemma repr_fun uf x r r' : repr uf x r -> repr uf x r' -> r = r'.
Proof. intros [n Hn] [m Hm]. by destruct (reprn_fun _ _ _ _ Hn _ _ Hm). Qed.

Lemma reprn_is_root uf n x r : reprn uf n x r -> parent_at uf r = r.
Proof. induction 1; done. Qed.

Lemma repr_root uf r : parent_at uf r = r -> repr uf r r.
Proof. intros Hr. exists 0. by constructor. Qed.

Lemma parent_at_set_parent uf x p y :
  parent_at (set_parent x p uf) y =
    if decide (x = y) then p else parent_at uf y.
Proof.
  unfold parent_at, set_parent. simpl. rewrite lookup_insert.
  by case_decide.
Qed.

Lemma parent_at_set_rank uf x k y :
  parent_at (set_rank x k uf) y = parent_at uf y.
Proof. done. Qed.

Lemma reprn_ext uf uf' :
  (forall z, parent_at uf' z = parent_at uf z) ->
  forall n x r, reprn uf n x r -> reprn uf' n x r.
Proof.
  intros Hext. induction 1 as [x Hx|n x r Hx _ IH].
  - constructor. by rewrite Hext.
  - constructor; rewrite Hext; done.
Qed.

(** Path compression: pointing [x] at its own root keeps every root and
    makes no path longer. *)
Lemma compress_reprn uf k x r :
  reprn uf k x r -> parent_at uf x ≠ x ->
  forall m y ry, reprn uf m y ry ->
  exists m', m' <= m /\ reprn (set_parent x r uf) m' y ry.
Proof.
  intros Hx Hnr. induction 1 as [y Hy|m y ry Hy Hrec IH].
  - exists 0. split; [lia|]. constructor.
    rewrite parent_at_set_parent. case_decide; [congruence|done].
  - destruct IH as (m' & Hle & IH).
    destruct (decide (x = y)) as [->|Hne].
    + assert (ry = r) as ->.
      { by destruct (reprn_fun _ _ _ _ Hx _ _ (reprn_step _ _ _ _ Hy Hrec)). }
      pose proof (reprn_is_root _ _ _ _ Hx) as Hroot.
      assert (Hyr : y ≠ r) by congruence.
      exists 1. split; [lia|]. constructor.
      * rewrite parent_at_set_parent. case_decide; congruence.
      * rewrite parent_at_set_parent. rewrite decide_True by done.
        constructor. rewrite parent_at_set_parent. by rewrite decide_False.
    + exists (S m'). split; [lia|]. constructor.
      * rewrite parent_at_set_parent. by rewrite decide_False.
      * rewrite parent_at_set_parent. by rewrite decide_False.
Qed.

(** What [Find] does when the links from [x] reach a root within the fuel. *)
Lemma Find_spec fuel : forall n x r uf,
  reprn uf n x r -> n < fuel ->
  exists uf',
    Find fuel x uf = Some (r, uf') /\
    rank uf' = rank uf /\
    (forall z, parent_at uf' z = z <-> parent_at uf z = z) /\
    (forall m y ry, reprn uf m y ry ->
       exists m', m' <= m /\ reprn uf' m' y ry).
Proof.
  induction fuel as [|fuel IH]; intros n x r uf Hx Hn; [lia|].
  simpl. inversion Hx as [? Hroot|n' ? ? Hnr Hrec]; subst.
  - rewrite bool_decide_eq_false_2 by (intros ?; congruence).
    exists uf. rewrite Hroot. split_and!; try done.
    intros m y ry Hy. exists m. split; [lia|done].
  - rewrite bool_decide_eq_true_2 by done.
    destruct (IH n' (parent_at uf x) r uf Hrec ltac:(lia))
      as (uf1 & -> & Hrank & Hroots & Hpres).
    destruct (Hpres _ _ _ Hx) as (k & _ & Hx1).
    assert (Hnr1 : parent_at uf1 x ≠ x) by (by rewrite Hroots).
    eexists. split_and!.
    + rewrite parent_at_set_parent. by rewrite decide_True.
    + done.
    + intros z. rewrite parent_at_set_parent. case_decide as Hz.
      * subst z. split; [|done]. intros ->.
        exfalso. apply Hnr1. by apply (reprn_is_root _ _ _ _ Hx1).
      * apply Hroots.
    + intros m y ry Hy.
      destruct (Hpres _ _ _ Hy) as (m1 & Hle1 & Hy1).
      destruct (compress_reprn _ _ _ _ Hx1 Hnr1 _ _ _ Hy1) as (m2 & Hle2 & Hy2).
      exists m2. split; [lia|done].
Qed.

(** Linking the root [ry] under another root [rx]. *)
Lemma link_reprn uf rx ry :
  rx ≠ ry -> parent_at uf rx = rx -> parent_at uf ry = ry ->
  forall m y r, reprn uf m y r ->
  reprn (set_parent ry rx uf)
        (if decide (r = ry) then S m else m) y
        (if decide (r = ry) then rx else r).
Proof.
  intros Hne Hrx Hry. induction 1 as [y Hy|m y r Hy Hrec IH].
  - case_decide as Hc.
    + subst y. constructor.
      * rewrite parent_at_set_parent. rewrite decide_True by done. congruence.
      * rewrite parent_at_set_parent. rewrite decide_True by done.
        constructor. rewrite parent_at_set_parent. by rewrite decide_False.
    + constructor. rewrite parent_at_set_parent. by rewrite decide_False.
  - assert (Hyne : ry ≠ y) by congruence.
    case_decide as Hc.
    + constructor; rewrite parent_at_set_parent, decide_False by done; done.
    + constructor; rewrite parent_at_set_parent, decide_False by done; done.
Qed.

(** The root that loses and the root that wins a union by rank. *)
Definition loser uf rx ry : Z :=
  if (rank_at uf rx <? rank_at uf ry)%Z then rx else ry.
Definition winner uf rx ry : Z :=
  if (rank_at uf rx <? rank_at uf ry)%Z then ry else rx.

Lemma Union_spec fuel uf x y n m rx ry :
  reprn uf n x rx -> reprn uf m y ry -> n < fuel -> m < fuel ->
  exists uf',
    Union fuel x y uf = Some (negb (bool_decide (rx = ry)), uf') /\
    (rx = ry ->
       rank uf' = rank uf /\
       (forall z, parent_at uf' z = z <-> parent_at uf z = z) /\
       (forall k z r, reprn uf k z r -> exists k', k' <= k /\ reprn uf' k' z r)) /\
    (rx ≠ ry ->
       parent_at uf' (loser uf rx ry) = winner uf rx ry /\
       (forall z, parent_at uf' z = z <->
                  parent_at uf z = z /\ z ≠ loser uf rx ry) /\
       rank uf' =
         (if (rank_at uf rx =? rank_at uf ry)%Z
          then <[rx := wrap_int (rank_at uf rx + 1)]> (rank uf)
          else rank uf) /\
       (forall k z r, reprn uf k z r ->
          exists k', k' <= S k /\
            reprn uf' k' z (if decide (r = loser uf rx ry)
                            then winner uf rx ry else r))).
Proof.
  intros Hx Hy Hn Hm. unfold Union.
  destruct (Find_spec fuel n x rx uf Hx Hn) as (uf1 & -> & Hrank1 & Hroots1 & Hpres1).
  destruct (Hpres1 _ _ _ Hy) as (m1 & Hm1 & Hy1).
  destruct (Find_spec fuel m1 y ry uf1 Hy1 ltac:(lia))
    as (uf2 & -> & Hrank2 & Hroots2 & Hpres2).
  assert (Hpres : forall k z r, reprn uf k z r ->
                  exists k', k' <= k /\ reprn uf2 k' z r).
  { intros k z r Hz. destruct (Hpres1 _ _ _ Hz) as (k1 & Hk1 & Hz1).
    destruct (Hpres2 _ _ _ Hz1) as (k2 & Hk2 & Hz2). exists k2. split; [lia|done]. }
  assert (Hroots : forall z, parent_at uf2 z = z <-> parent_at uf z = z).
  { intros z. by rewrite Hroots2, Hroots1. }
  assert (Hrk : forall z, rank_at uf2 z = rank_at uf z).
  { intros z. unfold rank_at. by rewrite Hrank2, Hrank1. }
  pose proof (reprn_is_root _ _ _ _ Hx) as Hrx.
  pose proof (reprn_is_root _ _ _ _ Hy) as Hry.
  apply Hroots in Hrx, Hry.
  destruct (decide (rx = ry)) as [Heq|Hne].
  - rewrite bool_decide_eq_true_2 by done. exists uf2. simpl.
    split_and!; [done| |done].
    intros _. split_and!; [congruence|done|done].
  - rewrite bool_decide_eq_false_2 by done. simpl.
    unfold loser, winner. rewrite !Hrk.
    destruct (rank_at uf rx <? rank_at uf ry)%Z eqn:Hlt.
    + eexists. split_and!; [done|done|]. intros _.
      assert ((rank_at uf rx =? rank_at uf ry)%Z = false) as -> by lia.
      split_and!.
      * rewrite parent_at_set_parent. by rewrite decide_True.
      * intros z. rewrite parent_at_set_parent. case_decide as Hz.
        -- subst z. split; [congruence | tauto].
        -- rewrite Hroots. split; [intros ?; split; congruence | tauto].
      * simpl. congruence.
      * intros k z r Hz. destruct (Hpres _ _ _ Hz) as (k' & Hk' & Hz').
        pose proof (link_reprn uf2 ry rx ltac:(congruence) Hry Hrx _ _ _ Hz') as Hl.
        eexists. split; [|exact Hl]. case_decide; lia.
    + destruct (rank_at uf rx >? rank_at uf ry)%Z eqn:Hgt.
      * eexists. split_and!; [done|done|]. intros _.
        assert ((rank_at uf rx =? rank_at uf ry)%Z = false) as -> by lia.
        split_and!.
        -- rewrite parent_at_set_parent. by rewrite decide_True.
        -- intros z. rewrite parent_at_set_parent. case_decide as Hz.
           ++ subst z. split; [congruence | tauto].
           ++ rewrite Hroots. split; [intros ?; split; congruence | tauto].
        -- simpl. congruence.
        -- intros k z r Hz. destruct (Hpres _ _ _ Hz) as (k' & Hk' & Hz').
           pose proof (link_reprn uf2 rx ry Hne Hrx Hry _ _ _ Hz') as Hl.
           eexists. split; [|exact Hl]. case_decide; lia.
      * eexists. split_and!; [done|done|]. intros _.
        assert ((rank_at uf rx =? rank_at uf ry)%Z = true) as -> by lia.
        split_and!.
        -- rewrite parent_at_set_rank, parent_at_set_parent.
           by rewrite decide_True.
        -- intros z. rewrite parent_at_set_rank, parent_at_set_parent.
           case_decide as Hz.
           ++ subst z. split; [congruence | tauto].
           ++ rewrite Hroots. split; [intros ?; split; congruence | tauto].
        -- simpl. unfold rank_at at 1. simpl. fold (rank_at uf2 rx).
           rewrite Hrk. congruence.
        -- intros k z r Hz. destruct (Hpres _ _ _ Hz) as (k' & Hk' & Hz').
           pose proof (link_reprn uf2 rx ry Hne Hrx Hry _ _ _ Hz') as Hl.
           eexists. split; [|eapply reprn_ext; [|exact Hl]; done].
           case_decide; lia.
Qed.

Lemma Find_returns fuel uf x n r :
  reprn uf n x r -> n < fuel -> fst <$> Find fuel x uf = Some r.
Proof.
  intros Hx Hn. destruct (Find_spec fuel n x r uf Hx Hn) as (uf' & -> & _).
  done.
Qed.

(** C6, as the code has it.  Let [rx] and [ry] be the roots that [Find]
    yields for [x] and [y].  [Union] returns false exactly when they are
    equal, and then it performs no merge: every element keeps its root and
    every rank its value (parent links may have been shortened by the path
    compression of [Find]).  Otherwise it returns true after a merge by
    rank: the root of lower rank is attached under the other one, and on a
    tie the second root is attached under the first, whose rank is
    incremented (in 64-bit arithmetic); every element whose root was the
    attached one now has the other root, so [Find] agrees on [x] and [y], and
    a [Union] repeated at once returns false and again moves no root and no
    rank. *)
Theorem Union_by_rank uf x y rx ry :
  repr uf x rx -> repr uf y ry ->
  exists fuel0, forall fuel, fuel0 <= fuel ->
    fst <$> Find fuel x uf = Some rx /\
    fst <$> Find fuel y uf = Some ry /\
    exists uf',
      Union fuel x y uf = Some (negb (bool_decide (rx = ry)), uf') /\
      (rx = ry ->
         rank uf' = rank uf /\
         (forall z, parent_at uf' z = z <-> parent_at uf z = z) /\
         (forall z r, repr uf z r -> repr uf' z r)) /\
      (rx ≠ ry ->
         let lo := if (rank_at uf rx <? rank_at uf ry)%Z then rx else ry in
         let hi := if (rank_at uf rx <? rank_at uf ry)%Z then ry else rx in
         parent_at uf' lo = hi /\ parent_at uf' hi = hi /\
         rank uf' =
           (if (rank_at uf rx =? rank_at uf ry)%Z
            then <[rx := wrap_int (rank_at uf rx + 1)]> (rank uf)
            else rank uf) /\
         (forall z r, repr uf z r ->
                      repr uf' z (if decide (r = lo) then hi else r)) /\
         fst <$> Find fuel x uf' = Some hi /\
         fst <$> Find fuel y uf' = Some hi /\
         exists uf'',
           Union fuel x y uf' = Some (false, uf'') /\
           rank uf'' = rank uf' /\
           (forall z, parent_at uf'' z = z <-> parent_at uf' z = z) /\
           (forall z r, repr uf' z r -> repr uf'' z r)).
Proof.
  intros [n Hx] [m Hy]. exists (n + m + 2). intros fuel Hfuel.
  split; [by apply (Find_returns _ _ _ n); [|lia]|].
  split; [by apply (Find_returns _ _ _ m); [|lia]|].
  destruct (Union_spec fuel uf x y n m rx ry Hx Hy ltac:(lia) ltac:(lia))
    as (uf' & HU & Hsame & Hdiff).
  exists uf'. split; [done|]. split.
  - intros Heq. destruct (Hsame Heq) as (Hrank & Hroots & Hpres).
    split_and!; [done|done|].
    intros z r [k Hz]. destruct (Hpres _ _ _ Hz) as (k' & _ & Hz'). by exists k'.
  - intros Hne. destruct (Hdiff Hne) as (Hlink & Hroots & Hrank & Hpres).
    unfold loser, winner in *. cbv zeta.
    set (lo := if (rank_at uf rx <? rank_at uf ry)%Z then rx else ry) in *.
    set (hi := if (rank_at uf rx <? rank_at uf ry)%Z then ry else rx) in *.
    pose proof (reprn_is_root _ _ _ _ Hx) as Hrx.
    pose proof (reprn_is_root _ _ _ _ Hy) as Hry.
    assert (Hlohi : lo ≠ hi /\ parent_at uf hi = hi /\
                    (rx = lo \/ rx = hi) /\ (ry = lo \/ ry = hi)).
    { subst lo hi. destruct (rank_at uf rx <? rank_at uf ry)%Z;
        split_and!; auto; congruence. }
    destruct Hlohi as (Hlh & Hhi & Hrxc & Hryc).
    destruct (Hpres _ _ _ Hx) as (n' & Hn' & Hx').
    destruct (Hpres _ _ _ Hy) as (m' & Hm' & Hy').
    assert (Hxh : reprn uf' n' x hi).
    { destruct (decide (rx = lo)); [done|]. by destruct Hrxc as [?| <-]. }
    assert (Hyh : reprn uf' m' y hi).
    { destruct (decide (ry = lo)); [done|]. by destruct Hryc as [?| <-]. }
    split_and!; [done| |done| | | |].
    + apply Hroots. split; [done|congruence].
    + intros z r [k Hz]. destruct (Hpres _ _ _ Hz) as (k' & _ & Hz').
      by exists k'.
    + by apply (Find_returns _ _ _ n'); [|lia].
    + by apply (Find_returns _ _ _ m'); [|lia].
    + destruct (Union_spec fuel uf' x y n' m' hi hi Hxh Hyh ltac:(lia) ltac:(lia))
        as (uf'' & HU' & Hsame' & _).
      rewrite bool_decide_eq_true_2 in HU' by done.
      destruct (Hsame' eq_refl) as (Hrank' & Hroots' & Hpres').
      exists uf''. split_and!; [done|done|done|].
      intros z r [k Hz]. destruct (Hpres' _ _ _ Hz) as (k' & _ & Hz').
      by exists k'.
Qed.

End UnionFindTheory.

(** The union-find reached by [MakeSet] on 1, 2, 3, 4 followed by
    [Union(2, 3)] and [Union(1, 4)]: two trees of rank one, [3] under [2]
    and [4] under [1]. *)
Definition uf_two_trees : UnionFind :=
  let uf := foldl (fun uf id => MakeSet id uf) NewUnionFind [1; 2; 3; 4]%Z in
  let uf := default uf (snd <$> Union 4 2%Z 3%Z uf) in
  default uf (snd <$> Union 4 1%Z 4%Z uf).

(** C6, counterexample.  [Union(1, 3)] succeeds on [uf_two_trees]; the same
    call repeated at once returns false, and it rewrites the parent link of
    [3] from [2] to [1]. *)
Lemma repeated_Union_rewrites_parent :
  exists uf1 uf2,
    Union 4 1%Z 3%Z uf_two_trees = Some (true, uf1) /\
    Union 4 1%Z 3%Z uf1 = Some (false, uf2) /\
    parent uf1 !! 3%Z = Some 2%Z /\
    parent uf2 !! 3%Z = Some 1%Z /\
    uf2 ≠ uf1.
Proof.
  eexists _, _. split_and!.
  - vm_compute. reflexivity.
  - vm_compute. reflexivity.
  - vm_compute. reflexivity.
  - vm_compute. reflexivity.
  - intros Heq. apply (f_equal (fun uf => parent uf !! 3%Z)) in Heq.
    vm_compute in Heq. discriminate.
Qed.

(** ** Graphs seen as weighted edge sets *)

Section EdgeSets.
Context {Any : Type}.
Implicit Types (g : @Graph Any) (e edge : @Edge Any) (v : @Vertex Any).

Definition tri_of e : tri := (ID (From e), ID (To e), Weight e).

(** The vertex identities of the graph. *)
Definition vertex_ids g : gset Z := dom (Vertices g).

(** [t] is an edge of the global edge sequence, in one of its directions. *)
Definition graph_edge g (t : tri) : Prop :=
  exists e, e ∈ Edges g /\ wt t = Weight e /\ ends t (ID (From e)) (ID (To e)).

(** Every edge of the global edge sequence joins two vertices of the graph. *)
Definition edges_closed g : Prop :=
  forall e, e ∈ Edges g ->
    ID (From e) ∈ vertex_ids g /\ ID (To e) ∈ vertex_ids g.

(** Every two vertices are linked by edges of the global edge sequence. *)
Definition connected g : Prop :=
  forall x y, x ∈ vertex_ids g -> y ∈ vertex_ids g ->
              conn (tri_of <$> Edges g) x y.

(** No walk visits an edge set twice over: each edge, when it was added,
    joined two vertices that were not linked yet. *)
Inductive forest : list tri -> Prop :=
| forest_nil : forest []
| forest_snoc F t : forest F -> ~ conn F (src t) (dst t) -> forest (F ++ [t]).

Lemma wrap_int_add_l a b : wrap_int (wrap_int a + b) = wrap_int (a + b).
Proof.
  unfold wrap_int. f_equal.
  replace ((a + 2 ^ 63) mod 2 ^ 64 - 2 ^ 63 + b + 2 ^ 63)%Z
    with ((a + 2 ^ 63) mod 2 ^ 64 + b)%Z by lia.
  rewrite Zplus_mod_idemp_l. f_equal. lia.
Qed.

Lemma weight_sum_snoc F t : weight_sum (F ++ [t]) = (weight_sum F + wt t)%Z.
Proof. induction F as [|f F IH]; unfold weight_sum in *; simpl in *; lia. Qed.

Lemma vertexCount_size g : vertexCount g = Z.of_nat (size (vertex_ids g)).
Proof. unfold vertexCount, vertex_ids. by rewrite size_dom. Qed.

Lemma tri_of_graph_edge g e : e ∈ Edges g -> graph_edge g (tri_of e).
Proof. intros He. exists e. split_and!; [done|done|by left]. Qed.

Lemma conn_nil_inv x y : conn [] x y -> x = y.
Proof.
  inversion 1 as [|? ? ? e He]; subst; [done|]. by apply elem_of_nil in He.
Qed.

Lemma conn_snoc G t x y : conn (G ++ [t]) x y <-> conn (t :: G) x y.
Proof.
  split; apply conn_perm; [symmetry|]; apply Permutation_cons_append.
Qed.

Lemma safe_perm D Esym n F F' : F ≡ₚ F' -> safe D Esym n F -> safe D Esym n F'.
Proof.
  intros Hp Hs T HT Hlen. destruct (Hs T HT Hlen) as (T' & ? & ? & Hsub & ?).
  exists T'. split_and!; try done. by rewrite <- Hp.
Qed.

End EdgeSets.

(** ** The loop of Kruskal *)

Section KruskalLoop.
Context {Any : Type} `{GoSort}.
Variable g : @Graph Any.
Hypothesis Hclosed : edges_closed g.

Local Abbreviation D := (vertex_ids g).
Local Abbreviation F mst := (tri_of <$> mst).

(** The roots among the vertices. *)
Definition roots (uf : UnionFind) : gset Z :=
  filter (fun x => parent_at uf x = x) D.

(** The invariant of the loop: [mst] is the result so far, [rest] the
    sorted edges still to be examined, [B] a bound on the length of the
    parent chains. *)
Record kinv (uf : UnionFind) (mst rest : list (@Edge Any)) (B : nat) : Prop := {
  k_depth : forall x, x ∈ D -> exists k r, k <= B /\ reprn uf k x r /\ r ∈ D;
  k_part : forall x y rx ry, x ∈ D -> y ∈ D -> repr uf x rx -> repr uf y ry ->
             (rx = ry <-> conn (F mst) x y);
  k_count : size (roots uf) + length mst = size D;
  k_safe : safe D (graph_edge g) (size D - 1) (F mst);
  k_mst : forall e, e ∈ mst -> e ∈ Edges g;
  k_done : forall e, e ∈ Edges g ->
             e ∈ rest \/ conn (F mst) (ID (From e)) (ID (To e));
  k_rest : forall e, e ∈ rest -> e ∈ Edges g;
  k_sorted : StronglySorted (fun a b => by_weight b a = false) rest;
  k_forest : forest (F mst);
  k_fuel : B + length rest <= length (Edges g)
}.

Lemma roots_same uf uf' :
  (forall z, parent_at uf' z = z <-> parent_at uf z = z) ->
  roots uf' = roots uf.
Proof.
  intros Hiff. unfold roots. apply set_eq. intros z.
  rewrite !elem_of_filter. by rewrite Hiff.
Qed.

Lemma roots_shrink uf uf' lo :
  (forall z, parent_at uf' z = z <-> parent_at uf z = z /\ z ≠ lo) ->
  lo ∈ D -> parent_at uf lo = lo ->
  size (roots uf) = S (size (roots uf')).
Proof.
  intros Hiff Hlo Hroot.
  assert (Heq : roots uf = {[lo]} ∪ roots uf').
  { unfold roots. apply set_eq. intros z.
    rewrite elem_of_union, !elem_of_filter, elem_of_singleton, Hiff.
    destruct (decide (z = lo)) as [->|Hne]; [tauto|]. tauto. }
  rewrite Heq, size_union, size_singleton; [done|].
  intros z Hz1 Hz2. apply elem_of_singleton in Hz1 as ->.
  unfold roots in Hz2. apply elem_of_filter in Hz2 as [Hz2 _].
  apply Hiff in Hz2. tauto.
Qed.

Lemma conn_in_D mst x y :
  (forall e, e ∈ mst -> e ∈ Edges g) ->
  conn (F mst) x y -> x ∈ D -> y ∈ D.
Proof.
  intros Hmst. induction 1 as [|x y z t Ht Hends _ IH]; [done|].
  intros Hx. apply IH.
  apply list_elem_of_fmap in Ht as (e & -> & He).
  destruct (Hclosed e (Hmst e He)) as [Hf Ht'].
  destruct Hends as [[_ <-]|[<- _]]; done.
Qed.

Lemma kinv_reject uf uf' mst e rest B ru :
  kinv uf mst (e :: rest) B ->
  repr uf (ID (From e)) ru -> repr uf (ID (To e)) ru ->
  (forall z, parent_at uf' z = z <-> parent_at uf z = z) ->
  (forall k z r, reprn uf k z r -> exists k', k' <= k /\ reprn uf' k' z r) ->
  kinv uf' mst rest B.
Proof.
  intros [Hdepth Hpart Hcount Hsafe Hmst Hdone Hrest Hsorted Hforest Hfuel]
         Hu Hv Hroots Hpres.
  assert (Hback : forall x r, x ∈ D -> repr uf' x r -> repr uf x r).
  { intros x r Hx Hr. destruct (Hdepth x Hx) as (k & r0 & _ & Hr0 & _).
    destruct (Hpres _ _ _ Hr0) as (k' & _ & Hr0').
    assert (r = r0) as -> by (eapply repr_fun; [exact Hr | by exists k']).
    by exists k. }
  destruct (Hclosed e (Hrest e ltac:(by left))) as [HuD HvD].
  constructor; try done.
  - intros x Hx. destruct (Hdepth x Hx) as (k & r & Hk & Hr & HrD).
    destruct (Hpres _ _ _ Hr) as (k' & Hk' & Hr').
    exists k', r. split_and!; [lia|done|done].
  - intros x y rx ry Hx Hy Hrx Hry. apply Hpart; auto.
  - by rewrite (roots_same _ _ Hroots).
  - intros e0 He0. destruct (Hdone e0 He0) as [[->|Hin]%elem_of_cons|Hc];
      [|by left|by right].
    right. by apply (Hpart _ _ ru ru).
  - intros e0 He0. apply Hrest. by right.
  - by apply StronglySorted_inv in Hsorted as [? _].
  - simpl in Hfuel. lia.
Qed.

Lemma kinv_accept uf uf' mst e rest B ru rv lo hi :
  kinv uf mst (e :: rest) B ->
  repr uf (ID (From e)) ru -> repr uf (ID (To e)) rv -> ru ≠ rv ->
  (lo = ru /\ hi = rv) \/ (lo = rv /\ hi = ru) ->
  (forall z, parent_at uf' z = z <-> parent_at uf z = z /\ z ≠ lo) ->
  (forall k z r, reprn uf k z r ->
     exists k', k' <= S k /\ reprn uf' k' z (if decide (r = lo) then hi else r)) ->
  kinv uf' (mst ++ [e]) rest (S B).
Proof.
  intros [Hdepth Hpart Hcount Hsafe Hmst Hdone Hrest Hsorted Hforest Hfuel]
         Hu Hv Hne Hlohi Hroots Hpres.
  set (u := ID (From e)) in *. set (v := ID (To e)) in *.
  assert (He : e ∈ Edges g) by (apply Hrest; by left).
  destruct (Hclosed e He) as [HuD HvD]. fold u v in HuD, HvD.
  assert (HruD : ru ∈ D).
  { destruct (Hdepth u HuD) as (k & r & _ & Hr & HrD).
    by rewrite (repr_fun _ _ _ _ Hu (ex_intro _ k Hr)). }
  assert (HrvD : rv ∈ D).
  { destruct (Hdepth v HvD) as (k & r & _ & Hr & HrD).
    by rewrite (repr_fun _ _ _ _ Hv (ex_intro _ k Hr)). }
  assert (Hru_root : parent_at uf ru = ru).
  { destruct Hu as [k Hk]. by apply (reprn_is_root _ _ _ _ Hk). }
  assert (Hrv_root : parent_at uf rv = rv).
  { destruct Hv as [k Hk]. by apply (reprn_is_root _ _ _ _ Hk). }
  assert (Hlh : lo ≠ hi) by (destruct Hlohi as [[-> ->]|[-> ->]]; congruence).
  assert (Hnew : forall x r', x ∈ D -> repr uf' x r' ->
            exists r, repr uf x r /\ r' = if decide (r = lo) then hi else r).
  { intros x r' Hx Hr'. destruct (Hdepth x Hx) as (k & r & _ & Hr & _).
    exists r. split; [by exists k|].
    destruct (Hpres _ _ _ Hr) as (k' & _ & Hr0).
    eapply repr_fun; [exact Hr' | by exists k']. }
  assert (Hmst' : forall e0, e0 ∈ mst ++ [e] -> e0 ∈ Edges g).
  { intros e0 [?|Hs%list_elem_of_singleton]%elem_of_app; [auto|by subst]. }
  assert (Hnc : ~ conn (F mst) u v).
  { intros Hc. apply Hne. by apply (Hpart u v ru rv). }
  assert (Hedge : conn (tri_of e :: F mst) u v).
  { eapply conn_edge; [by left | by left]. }
  constructor.
  - intros x Hx. destruct (Hdepth x Hx) as (k & r & Hk & Hr & HrD).
    destruct (Hpres _ _ _ Hr) as (k' & Hk' & Hr').
    eexists k', _. split_and!; [lia|exact Hr'|].
    case_decide; [|done]. by destruct Hlohi as [[_ ->]|[_ ->]].
  - intros x y rx' ry' Hx Hy Hrx' Hry'.
    destruct (Hnew x rx' Hx Hrx') as (rx & Hrx & ->).
    destruct (Hnew y ry' Hy Hry') as (ry & Hry & ->).
    rewrite fmap_app. simpl. rewrite conn_snoc. split.
    + intros Heq. destruct (decide (rx = ry)) as [Hxy|Hxy].
      { apply conn_cons. by apply (Hpart x y rx ry). }
      assert (Hcase : (rx = ru /\ ry = rv) \/ (rx = rv /\ ry = ru)).
      { repeat case_decide; destruct Hlohi as [[? ?]|[? ?]]; subst;
          first [congruence | by left | by right]. }
      destruct Hcase as [[-> ->]|[-> ->]].
      * eapply conn_trans; [apply conn_cons; by apply (Hpart x u ru ru)|].
        eapply conn_trans; [exact Hedge|].
        apply conn_cons. by apply (Hpart v y rv rv).
      * eapply conn_trans; [apply conn_cons; by apply (Hpart x v rv rv)|].
        eapply conn_trans; [apply conn_sym, Hedge|].
        apply conn_cons. by apply (Hpart u y ru ru).
    + intros Hc. apply conn_split in Hc as [Hc | (c & d & Hcd & Hc & Hd)].
      { by rewrite (proj2 (Hpart x y rx ry Hx Hy Hrx Hry) Hc). }
      assert (HcD : c ∈ D) by exact (conn_in_D mst x c Hmst Hc Hx).
      assert (HdD : d ∈ D) by exact (conn_in_D mst y d Hmst (conn_sym _ _ _ Hd) Hy).
      destruct (Hdepth c HcD) as (kc & rc & _ & Hrc & _).
      destruct (Hdepth d HdD) as (kd & rd & _ & Hrd & _).
      assert (rx = rc) as -> by (by apply (Hpart x c rx rc); [| | |exists kc|]).
      assert (rd = ry) as -> by (by apply (Hpart d y rd ry); [| |exists kd| |]).
      assert (Hcase : (c = u /\ d = v) \/ (c = v /\ d = u)).
      { unfold ends, tri_of, src, dst in Hcd. simpl in Hcd. fold u v in Hcd.
        destruct Hcd as [[? ?]|[? ?]]; [left|right]; by split. }
      assert (Hrs : (rc = ru /\ ry = rv) \/ (rc = rv /\ ry = ru)).
      { destruct Hcase as [[-> ->]|[-> ->]]; [left|right]; split.
        - exact (repr_fun _ _ _ _ (ex_intro _ kc Hrc) Hu).
        - exact (repr_fun _ _ _ _ (ex_intro _ kd Hrd) Hv).
        - exact (repr_fun _ _ _ _ (ex_intro _ kc Hrc) Hv).
        - exact (repr_fun _ _ _ _ (ex_intro _ kd Hrd) Hu). }
      repeat case_decide; destruct Hrs as [[? ?]|[? ?]],
        Hlohi as [[? ?]|[? ?]]; subst; congruence.
  - rewrite length_app. simpl.
    assert (Hlo : lo ∈ D /\ parent_at uf lo = lo)
      by (destruct Hlohi as [[-> _]|[-> _]]; done).
    destruct Hlo as [HloD Hloroot].
    pose proof (roots_shrink uf uf' lo Hroots HloD Hloroot). lia.
  - rewrite fmap_app. simpl.
    eapply safe_perm; [apply Permutation_cons_append|].
    apply (safe_step D (graph_edge g) _ (fun z => z ∈ D /\ repr uf z ru)
             (F mst) (tri_of e) u v).
    + intros z. destruct (decide (z ∈ D)) as [Hz|Hz]; [|right; tauto].
      destruct (Hdepth z Hz) as (k & r & _ & Hr & _).
      destruct (decide (r = ru)) as [->|Hr'].
      * left. split; [done|by exists k].
      * right. intros [_ Hzr]. apply Hr'.
        eapply repr_fun; [by exists k | done].
    + intros f a b Hf Hends [Ha Hra].
      assert (Hab : conn (F mst) a b) by (by eapply conn_edge).
      assert (Hb : b ∈ D) by exact (conn_in_D mst a b Hmst Hab Ha).
      split; [done|].
      destruct (Hdepth b Hb) as (k & rb & _ & Hrb & _).
      assert (ru = rb) as -> by (by apply (Hpart a b ru rb); [| | |exists k|]).
      by exists k.
    + by apply tri_of_graph_edge.
    + by left.
    + done.
    + intros [_ Hvr]. apply Hne. symmetry. eapply repr_fun; eauto.
    + done.
    + done.
    + intros t a b (e0 & He0 & Hw & Hends0) Hends [Ha Hra] Hb.
      destruct (Hclosed e0 He0) as [Hf0 Ht0].
      assert (Hab : (a = ID (From e0) /\ b = ID (To e0)) \/
                    (a = ID (To e0) /\ b = ID (From e0))).
      { unfold ends in *. destruct Hends as [[? ?]|[? ?]],
          Hends0 as [[? ?]|[? ?]]; [left|right|right|left]; split; congruence. }
      assert (HbD : b ∈ D) by (destruct Hab as [[_ ->]|[_ ->]]; done).
      destruct (Hdone e0 He0) as [[->|Hin]%elem_of_cons | Hc].
      * unfold wt, tri_of in *. simpl in *. lia.
      * apply StronglySorted_inv in Hsorted as [_ Hall].
        rewrite Forall_forall in Hall. specialize (Hall e0 Hin).
        unfold by_weight in Hall. unfold wt, tri_of in *. simpl in *. lia.
      * exfalso. apply Hb. split; [done|].
        assert (Hc' : conn (F mst) a b).
        { destruct Hab as [[-> ->]|[-> ->]]; [done | by apply conn_sym]. }
        destruct (Hdepth b HbD) as (k & rb & _ & Hrb & _).
        assert (ru = rb) as -> by (by apply (Hpart a b ru rb); [| | |exists k|]).
        by exists k.
    + done.
  - done.
  - intros e0 He0. destruct (Hdone e0 He0) as [[->|Hin]%elem_of_cons | Hc].
    + right. rewrite fmap_app. simpl. by apply conn_snoc.
    + by left.
    + right. rewrite fmap_app. simpl. by apply conn_snoc, conn_cons.
  - intros e0 He0. apply Hrest. by right.
  - by apply StronglySorted_inv in Hsorted as [? _].
  - rewrite fmap_app. simpl. by constructor.
  - simpl in Hfuel. lia.
Qed.

Lemma kruskal_loop_spec fuel : forall rest uf mst total B,
  kinv uf mst rest B -> length (Edges g) < fuel ->
  total = wrap_int (weight_sum (F mst)) ->
  exists mst' total' uf' rest' B',
    kruskal_loop fuel (vertexCount g) rest uf mst total
      = Returned (mst', total') /\
    kinv uf' mst' rest' B' /\
    total' = wrap_int (weight_sum (F mst')) /\
    (Z.of_nat (length mst') = (vertexCount g - 1)%Z \/ rest' = []) /\
    exists picked, mst' = mst ++ picked /\ sublist picked rest.
Proof.
  induction rest as [|e rest IH]; intros uf mst total B Hinv Hfuel Htotal.
  - exists mst, total, uf, [], B. simpl. split_and!; try done; [by right|].
    exists []. by rewrite app_nil_r.
  - simpl.
    assert (He : e ∈ Edges g) by (apply (k_rest _ _ _ _ Hinv); by left).
    destruct (Hclosed e He) as [HuD HvD].
    destruct (k_depth _ _ _ _ Hinv _ HuD) as (ku & ru & Hku & Hru & _).
    destruct (k_depth _ _ _ _ Hinv _ HvD) as (kv & rv & Hkv & Hrv & _).
    pose proof (k_fuel _ _ _ _ Hinv) as HB. simpl in HB.
    destruct (Union_spec fuel uf _ _ ku kv ru rv Hru Hrv ltac:(lia) ltac:(lia))
      as (uf' & -> & Hsame & Hdiff).
    destruct (decide (ru = rv)) as [Heq|Hne].
    + rewrite bool_decide_eq_true_2 by done. simpl.
      destruct (Hsame Heq) as (_ & Hroots & Hpres). subst rv.
      assert (Hinv' : kinv uf' mst rest B).
      { eapply kinv_reject; eauto; by eexists. }
      destruct (IH uf' mst total B Hinv' Hfuel Htotal)
        as (mst' & total' & uf'' & rest' & B' & Hrun & Hk & Ht & Hex & picked & Hp & Hsub).
      exists mst', total', uf'', rest', B'. split_and!; try done.
      exists picked. split; [done|]. by apply sublist_cons.
    + rewrite bool_decide_eq_false_2 by done. simpl.
      destruct (Hdiff Hne) as (_ & Hroots & _ & Hpres).
      assert (Hinv' : kinv uf' (mst ++ [e]) rest (S B)).
      { eapply (kinv_accept uf uf' mst e rest B ru rv
                  (loser uf ru rv) (winner uf ru rv)); eauto;
          try (by eexists).
        unfold loser, winner. destruct (_ <? _)%Z; auto. }
      assert (Htotal' : wrap_int (total + Weight e)
                        = wrap_int (weight_sum (F (mst ++ [e])))).
      { rewrite fmap_app. simpl. rewrite weight_sum_snoc, Htotal.
        apply wrap_int_add_l. }
      destruct (Z.of_nat (length (mst ++ [e])) =? vertexCount g - 1)%Z eqn:Hfull.
      * exists (mst ++ [e]), (wrap_int (total + Weight e)), uf', rest, (S B).
        split_and!; try done; [left; lia|].
        exists [e]. split; [done|]. apply sublist_skip, sublist_nil_l.
      * destruct (IH uf' (mst ++ [e]) _ (S B) Hinv' Hfuel Htotal')
          as (mst' & total' & uf'' & rest' & B' & Hrun & Hk & Ht & Hex & picked & Hp & Hsub).
        exists mst', total', uf'', rest', B'. split_and!; try done.
        exists (e :: picked). split; [by rewrite Hp, <- app_assoc|].
        by apply sublist_skip.
Qed.

Lemma MakeSet_fold_self (l : list Z) : forall uf,
  (forall z p, parent uf !! z = Some p -> p = z) ->
  (forall z p, parent (foldl (fun uf id => MakeSet id uf) uf l) !! z = Some p
               -> p = z) /\
  (forall z, z ∈ l \/ is_Some (parent uf !! z) ->
             is_Some (parent (foldl (fun uf id => MakeSet id uf) uf l) !! z)).
Proof.
  induction l as [|x l IH]; intros uf Hself; simpl.
  - split; [done|]. intros z [Hz|Hz]; [by apply elem_of_nil in Hz|done].
  - assert (Hself' : forall z p, parent (MakeSet x uf) !! z = Some p -> p = z).
    { intros z p. destruct (parent uf !! x) eqn:Hx.
      - rewrite MakeSet_present by (by eexists). apply Hself.
      - rewrite MakeSet_absent by done. simpl. rewrite lookup_insert.
        case_decide; [congruence|apply Hself]. }
    destruct (IH _ Hself') as [IH1 IH2]. split; [done|].
    intros z Hz. apply IH2.
    destruct (decide (z = x)) as [->|Hne].
    + right. destruct (parent uf !! x) eqn:Hx.
      * rewrite MakeSet_present by (by eexists). by rewrite Hx.
      * rewrite MakeSet_absent by done. simpl. rewrite lookup_insert_eq.
        by eexists.
    + destruct Hz as [[?|Hz]%elem_of_cons|Hz]; [done|by left|right].
      destruct (parent uf !! x) eqn:Hx.
      * by rewrite MakeSet_present by (by eexists).
      * rewrite MakeSet_absent by done. simpl. by rewrite lookup_insert_ne.
Qed.

Lemma MakeSet_fold_root order x :
  x ∈ order ->
  parent_at (foldl (fun uf id => MakeSet id uf) NewUnionFind order) x = x.
Proof.
  intros Hx.
  destruct (MakeSet_fold_self order NewUnionFind) as [H1 H2].
  { intros z p. simpl. by rewrite lookup_empty. }
  destruct (H2 x (or_introl Hx)) as [p Hp].
  unfold parent_at. rewrite Hp. simpl. by apply (H1 x).
Qed.

Lemma by_weight_strict_weak : strict_weak (by_weight (Any:=Any)).
Proof. unfold strict_weak, by_weight. split; intros; lia. Qed.

Lemma range_order_elem order x :
  range_order g order -> (x ∈ order <-> x ∈ D).
Proof.
  unfold range_order, vertex_ids. intros ->.
  rewrite elem_of_dom, list_elem_of_fmap. split.
  - intros ([k v] & -> & Hkv). apply elem_of_map_to_list in Hkv. by eexists.
  - intros [v Hv]. exists (x, v). split; [done|]. by apply elem_of_map_to_list.
Qed.

Lemma kinv_init order :
  range_order g order ->
  kinv (foldl (fun uf id => MakeSet id uf) NewUnionFind order) []
       (sort_Slice by_weight (Edges g)) 0.
Proof.
  intros Horder.
  set (uf0 := foldl (fun uf id => MakeSet id uf) NewUnionFind order).
  assert (Hroot : forall x, x ∈ D -> parent_at uf0 x = x).
  { intros x Hx. apply MakeSet_fold_root. by apply (range_order_elem order). }
  assert (Hrepr : forall x r, x ∈ D -> repr uf0 x r -> r = x).
  { intros x r Hx Hr. symmetry. eapply repr_fun; [|exact Hr].
    apply repr_root. by apply Hroot. }
  constructor.
  - intros x Hx. exists 0, x. split_and!; [lia| |done]. constructor. by apply Hroot.
  - intros x y rx ry Hx Hy Hrx Hry.
    rewrite (Hrepr x rx Hx Hrx), (Hrepr y ry Hy Hry). simpl. split.
    + intros ->. constructor.
    + apply conn_nil_inv.
  - simpl. rewrite Nat.add_0_r. f_equal. unfold roots. apply set_eq. intros z.
    rewrite elem_of_filter. split; [tauto|]. intros Hz. split; [by apply Hroot|done].
  - apply safe_nil.
  - intros e He. by apply elem_of_nil in He.
  - intros e He. left. by rewrite sort_Slice_perm.
  - intros e He. by rewrite sort_Slice_perm in He.
  - apply sort_Slice_sorted, by_weight_strict_weak.
  - constructor.
  - simpl. by rewrite sort_Slice_perm.
Qed.

(** What [Kruskal] returns on an undirected graph whose edges join vertices
    of the graph: [R] holds one vertex for each tree of the result. *)
Lemma Kruskal_spec order :
  Directed g = false -> range_order g order ->
  exists mst total (R : gset Z),
    Kruskal order g = (Returned (mst, total), g) /\
    sublist mst (sort_Slice by_weight (Edges g)) /\
    total = wrap_int (weight_sum (F mst)) /\
    safe D (graph_edge g) (size D - 1) (F mst) /\
    forest (F mst) /\
    (forall e, e ∈ mst -> e ∈ Edges g) /\
    R ⊆ D /\ size R + length mst = size D /\
    (forall x, x ∈ D -> exists r, r ∈ R /\ conn (F mst) x r) /\
    (forall r1 r2, r1 ∈ R -> r2 ∈ R -> conn (F mst) r1 r2 -> r1 = r2) /\
    (Z.of_nat (length mst) = (vertexCount g - 1)%Z \/
     forall e, e ∈ Edges g -> conn (F mst) (ID (From e)) (ID (To e))).
Proof.
  intros Hdir Horder.
  destruct (kruskal_loop_spec (S (length (Edges g))) _ _ [] 0%Z 0
              (kinv_init order Horder) ltac:(lia) eq_refl)
    as (mst & total & uf & rest & B & Hrun & Hinv & Htotal & Hexit & picked & Hp & Hsub).
  simpl in Hp. subst picked.
  exists mst, total, (roots uf).
  destruct Hinv as [Hdepth Hpart Hcount Hsafe Hmst Hdone Hrest Hsorted Hforest Hfuel].
  split_and!; try done.
  - unfold Kruskal, bind, get, lift. simpl. by rewrite Hdir, Hrun.
  - unfold roots. intros z Hz. by apply elem_of_filter in Hz as [_ ?].
  - intros x Hx. destruct (Hdepth x Hx) as (k & r & _ & Hr & HrD).
    pose proof (reprn_is_root _ _ _ _ Hr) as Hroot.
    exists r. split; [by apply elem_of_filter|].
    apply (Hpart x r r r); try done; [by exists k | by apply repr_root].
  - intros r1 r2 [Hr1 Hr1D]%elem_of_filter [Hr2 Hr2D]%elem_of_filter Hc.
    apply (Hpart r1 r2 r1 r2); try done; by apply repr_root.
  - destruct Hexit as [?|Hnil]; [by left|right]. subst rest.
    intros e He. destruct (Hdone e He) as [Hin|?]; [|done].
    by apply elem_of_nil in Hin.
Qed.

End KruskalLoop.

(** ** Counting the trees of a forest *)

Section Components.
Variables (D R : gset Z) (G : list tri).
Hypothesis Hreach : forall x, x ∈ D -> exists r, r ∈ R /\ conn G x r.
Hypothesis Hsep : forall r1 r2, r1 ∈ R -> r2 ∈ R -> conn G r1 r2 -> r1 = r2.

Lemma one_tree_spans : size R = 1 -> forall x y, x ∈ D -> y ∈ D -> conn G x y.
Proof.
  intros Hone x y Hx Hy.
  apply size_1_elem_of in Hone as [r Hr].
  destruct (Hreach x Hx) as (rx & Hrx & Hcx).
  destruct (Hreach y Hy) as (ry & Hry & Hcy).
  apply Hr in Hrx, Hry. apply elem_of_singleton in Hrx, Hry. subst.
  eapply conn_trans; [done|]. by apply conn_sym.
Qed.

Lemma spans_one_tree x0 :
  x0 ∈ D -> (forall x y, x ∈ D -> y ∈ D -> conn G x y) -> R ⊆ D -> size R = 1.
Proof.
  intros Hx0 Hall Hsub.
  destruct (Hreach x0 Hx0) as (r & Hr & _).
  assert (HR : R = {[r]}).
  { apply set_eq. intros z. rewrite elem_of_singleton. split.
    - intros Hz. apply Hsep; [done|done|]. apply Hall; auto.
    - by intros ->. }
  rewrite HR. apply size_singleton.
Qed.

Lemma two_trees x y : x ∈ D -> y ∈ D -> ~ conn G x y -> 2 <= size R.
Proof.
  intros Hx Hy Hnc.
  destruct (Hreach x Hx) as (rx & Hrx & Hcx).
  destruct (Hreach y Hy) as (ry & Hry & Hcy).
  assert (Hne : rx ≠ ry).
  { intros ->. apply Hnc. eapply conn_trans; [done|]. by apply conn_sym. }
  assert (Hsub : {[rx]} ∪ {[ry]} ⊆ R) by set_solver.
  apply subseteq_size in Hsub.
  rewrite size_union, !size_singleton in Hsub by set_solver. lia.
Qed.

End Components.

(** ** The binary heap *)

Section Heap.
Context {Any : Type}.
Implicit Types (h pq : list (@Edge Any)) (x e : @Edge Any).

(** The weight stored at an index. *)
Definition W h (k : nat) : Z :=
  match h !! k with Some e => Weight e | None => 0%Z end.

(** The heap order on the first [n] cells: no cell is lighter than its
    parent. *)
Definition heap_upto h (n : nat) : Prop :=
  forall k, 0 < k < n -> (W h ((k - 1) / 2) <= W h k)%Z.

Definition heap_ok h : Prop := heap_upto h (length h).

Lemma par_lt k : 0 < k -> (k - 1) / 2 < k.
Proof.
  intros Hk. pose proof (Nat.div_mod_eq (k - 1) 2).
  pose proof (Nat.mod_upper_bound (k - 1) 2). lia.
Qed.

Lemma par_cases k :
  0 < k -> k = 2 * ((k - 1) / 2) + 1 \/ k = 2 * ((k - 1) / 2) + 2.
Proof.
  intros Hk. pose proof (Nat.div_mod_eq (k - 1) 2).
  pose proof (Nat.mod_upper_bound (k - 1) 2). lia.
Qed.

Lemma par_child i k : (k - 1) / 2 = i -> 0 < k -> k = 2 * i + 1 \/ k = 2 * i + 2.
Proof. intros <- Hk. by apply par_cases. Qed.

Lemma par_of_child1 i : (2 * i + 1 - 1) / 2 = i.
Proof.
  replace (2 * i + 1 - 1) with (i * 2) by lia. apply Nat.div_mul. lia.
Qed.

Lemma par_of_child2 i : (2 * i + 1 + 1 - 1) / 2 = i.
Proof.
  replace (2 * i + 1 + 1 - 1) with (1 + i * 2) by lia.
  rewrite Nat.div_add by lia. simpl. lia.
Qed.

Lemma par_fix j : (j - 1) / 2 = j -> j = 0.
Proof.
  intros Hj. destruct (decide (j = 0)) as [|Hne]; [done|].
  pose proof (par_lt j ltac:(lia)). lia.
Qed.

Lemma swap_head_perm h : forall j a b,
  h !! j = Some b -> b :: <[j := a]> h ≡ₚ a :: h.
Proof.
  induction h as [|y h IH]; intros [|j] a b Hj; simpl in *; try done.
  - injection Hj as ->. apply perm_swap.
  - rewrite perm_swap. rewrite (IH j a b Hj). apply perm_swap.
Qed.

Lemma swap_perm h : forall i j a b,
  h !! i = Some a -> h !! j = Some b -> <[i := b]> (<[j := a]> h) ≡ₚ h.
Proof.
  induction h as [|y h IH]; intros [|i] [|j] a b Hi Hj; simpl in *; try done.
  - by simplify_eq.
  - injection Hi as ->. by apply swap_head_perm.
  - injection Hj as ->. by apply swap_head_perm.
  - apply perm_skip. by apply IH.
Qed.

Lemma Less_in_range h i j :
  i < length h -> j < length h ->
  Less h i j = Returned (W h i <? W h j)%Z.
Proof.
  intros Hi Hj. unfold Less, index, W.
  destruct (lookup_lt_is_Some_2 h i Hi) as [a ->].
  destruct (lookup_lt_is_Some_2 h j Hj) as [b ->]. done.
Qed.

Lemma Swap_in_range h i j :
  i < length h -> j < length h ->
  exists h',
    Swap h i j = Returned h' /\ length h' = length h /\ h' ≡ₚ h /\
    (forall k, W h' k =
       if decide (k = i) then W h j
       else if decide (k = j) then W h i else W h k) /\
    (forall k, k ≠ i -> k ≠ j -> h' !! k = h !! k) /\
    h' !! i = h !! j /\ h' !! j = h !! i.
Proof.
  intros Hi Hj. unfold Swap, index.
  destruct (lookup_lt_is_Some_2 h i Hi) as [a Ha].
  destruct (lookup_lt_is_Some_2 h j Hj) as [b Hb].
  rewrite Ha, Hb. simpl. eexists. split; [done|].
  assert (Hlook : forall k, <[i := b]> (<[j := a]> h) !! k =
            if decide (k = i) then Some b
            else if decide (k = j) then Some a else h !! k).
  { intros k. destruct (decide (k = i)) as [->|Hki].
    - rewrite list_lookup_insert_eq; [done|]. by rewrite length_insert.
    - rewrite list_lookup_insert_ne by done.
      destruct (decide (k = j)) as [->|Hkj].
      + by rewrite list_lookup_insert_eq.
      + by rewrite list_lookup_insert_ne. }
  split_and!.
  - by rewrite !length_insert.
  - by apply swap_perm.
  - intros k. unfold W. rewrite Hlook, Ha, Hb. by repeat case_decide.
  - intros k Hki Hkj. rewrite Hlook. by rewrite !decide_False.
  - rewrite Hlook, decide_True by done. done.
  - rewrite Hlook. case_decide; [by subst; rewrite Ha, Hb in * |].
    by rewrite decide_True.
Qed.

Lemma up_S fuel h j :
  up (S fuel) h j =
    if ((j - 1) / 2 =? j)%nat then Returned h
    else
      lt <~ Less h j ((j - 1) / 2) ;;
      if negb lt then Returned h
      else h <~ Swap h ((j - 1) / 2) j ;; up fuel h ((j - 1) / 2).
Proof. reflexivity. Qed.

Lemma down_S fuel h i n :
  down (S fuel) h i n =
    if (n <=? 2 * i + 1)%nat then Returned h
    else
      j <~ (if (2 * i + 1 + 1 <? n)%nat
            then lt <~ Less h (2 * i + 1 + 1) (2 * i + 1) ;;
                 Returned (if lt then 2 * i + 1 + 1 else 2 * i + 1)
            else Returned (2 * i + 1)) ;;
      lt <~ Less h j i ;;
      if negb lt then Returned h
      else h <~ Swap h i j ;; down fuel h j n.
Proof. reflexivity. Qed.

(** The heap order holds everywhere except, possibly, between [j] and its
    parent. *)
Definition up_inv h (j : nat) : Prop :=
  (forall k, 0 < k < length h -> k ≠ j -> (W h ((k - 1) / 2) <= W h k)%Z) /\
  (forall k, 0 < k < length h -> (k - 1) / 2 = j -> 0 < j ->
             (W h ((j - 1) / 2) <= W h k)%Z).

Lemma up_spec fuel : forall h j,
  j < length h -> j < fuel -> up_inv h j ->
  exists h', up fuel h j = Returned h' /\ h' ≡ₚ h /\ heap_ok h'.
Proof.
  induction fuel as [|fuel IH]; intros h j Hj Hfuel [H1 H2]; [lia|].
  rewrite up_S. destruct ((j - 1) / 2 =? j) eqn:Hij.
  - apply Nat.eqb_eq, par_fix in Hij. subst j.
    exists h. split_and!; [done|done|]. intros k Hk. apply H1; lia.
  - apply Nat.eqb_neq in Hij.
    assert (Hj0 : 0 < j) by (destruct j; [done|lia]).
    pose proof (par_lt j Hj0) as Hlt.
    remember ((j - 1) / 2) as i eqn:Hi.
    rewrite Less_in_range by lia. simpl.
    destruct (W h j <? W h i)%Z eqn:Hless; simpl.
    + destruct (Swap_in_range h i j ltac:(lia) Hj)
        as (h' & -> & Hlen & Hperm & HW & _). simpl.
      destruct (IH h' i ltac:(lia) ltac:(lia)) as (h'' & Hrun & Hp & Hok).
      { split.
        - intros k Hk Hki. rewrite Hlen in Hk. rewrite !HW.
          destruct (decide (k = j)) as [Hkj|Hkj].
          + subst k. rewrite <- Hi. rewrite decide_True by done.
            rewrite decide_False by lia. lia.
          + rewrite (decide_False (P := k = i)) by done.
            pose proof (H1 k Hk Hkj) as Hk1.
            destruct (decide ((k - 1) / 2 = i)) as [Hpi|Hpi].
            { rewrite Hpi in Hk1. lia. }
            destruct (decide ((k - 1) / 2 = j)) as [Hpj|Hpj]; [|done].
            pose proof (H2 k Hk Hpj Hj0) as Hk2. lia.
        - intros k Hk Hpk Hi0. rewrite Hlen in Hk. rewrite !HW.
          pose proof (par_lt i Hi0) as Hpi.
          rewrite (decide_False (P := (i - 1) / 2 = i)) by lia.
          rewrite (decide_False (P := (i - 1) / 2 = j)) by lia.
          pose proof (H1 i ltac:(lia) ltac:(lia)) as Hi1.
          assert (Hki : k ≠ i) by (pose proof (par_lt k ltac:(lia)); lia).
          rewrite (decide_False (P := k = i)) by done.
          destruct (decide (k = j)) as [Hkj|Hkj]; [lia|].
          pose proof (H1 k Hk Hkj) as Hk1. rewrite Hpk in Hk1. lia. }
      exists h''. split_and!; [done| by rewrite Hp |done].
    + exists h. split_and!; [done|done|]. intros k Hk.
      destruct (decide (k = j)) as [Hkj|Hkj]; [|by apply H1].
      subst k. rewrite <- Hi. lia.
Qed.

(** The heap order holds on the first [n] cells except, possibly, between
    [i] and its children. *)
Definition down_inv h (i n : nat) : Prop :=
  (forall k, 0 < k < n -> (k - 1) / 2 ≠ i -> (W h ((k - 1) / 2) <= W h k)%Z) /\
  (forall k, 0 < k < n -> (k - 1) / 2 = i -> 0 < i ->
             (W h ((i - 1) / 2) <= W h k)%Z).

Lemma down_spec fuel : forall h i n,
  n <= length h -> 0 < fuel -> n < fuel + i -> down_inv h i n ->
  exists h',
    down fuel h i n = Returned h' /\ h' ≡ₚ h /\ heap_upto h' n /\
    length h' = length h /\ (forall k, n <= k -> h' !! k = h !! k).
Proof.
  induction fuel as [|fuel IH]; intros h i n Hn Hpos Hfuel [H1 H2]; [lia|].
  rewrite down_S. destruct (n <=? 2 * i + 1) eqn:Hj1.
  - apply Nat.leb_le in Hj1. exists h. split_and!; try done.
    intros k Hk. apply H1; [done|].
    intros Hp. destruct (par_child _ _ Hp ltac:(lia)); lia.
  - apply Nat.leb_gt in Hj1.
    set (j1 := 2 * i + 1) in *.
    assert (Hsel : exists j,
      (if (j1 + 1 <? n)
       then lt <~ Less h (j1 + 1) j1 ;; Returned (if lt then j1 + 1 else j1)
       else Returned j1) = Returned j /\
      (j = j1 \/ j = j1 + 1) /\ j < n /\
      (forall k, 0 < k < n -> (k - 1) / 2 = i -> (W h j <= W h k)%Z)).
    { destruct (j1 + 1 <? n) eqn:Hj2.
      - apply Nat.ltb_lt in Hj2. rewrite Less_in_range by lia. simpl.
        destruct (W h (j1 + 1) <? W h j1)%Z eqn:Hl.
        + exists (j1 + 1). split_and!; [done|by right|done|].
          intros k Hk Hp. destruct (par_child _ _ Hp ltac:(lia)) as [->| ->].
          * fold j1. lia.
          * replace (2 * i + 2) with (j1 + 1) by lia. lia.
        + exists j1. split_and!; [done|by left|done|].
          intros k Hk Hp. destruct (par_child _ _ Hp ltac:(lia)) as [->| ->].
          * fold j1. lia.
          * replace (2 * i + 2) with (j1 + 1) by lia. lia.
      - apply Nat.ltb_ge in Hj2. exists j1. split_and!; [done|by left|done|].
        intros k Hk Hp. destruct (par_child _ _ Hp ltac:(lia)) as [->| ->].
        + fold j1. lia.
        + lia. }
    destruct Hsel as (j & -> & Hjc & Hjn & Hmin). simpl.
    assert (Hpj : (j - 1) / 2 = i).
    { destruct Hjc as [-> | ->]; [apply par_of_child1 | apply par_of_child2]. }
    assert (Hij : i < j) by (destruct Hjc; lia).
    rewrite Less_in_range by lia. simpl.
    destruct (W h j <? W h i)%Z eqn:Hless; simpl.
    + destruct (Swap_in_range h i j ltac:(lia) ltac:(lia))
        as (h' & -> & Hlen & Hperm & HW & Hother & _). simpl.
      destruct (IH h' j n ltac:(lia) ltac:(lia) ltac:(lia))
        as (h'' & Hrun & Hp & Hok & Hlen' & Hkeep).
      { split.
        - intros k Hk Hpk. rewrite !HW.
          destruct (decide (k = j)) as [->|Hkj].
          + rewrite Hpj. rewrite decide_True by done.
            rewrite decide_False by lia. lia.
          + destruct (decide (k = i)) as [->|Hki].
            * pose proof (par_lt i ltac:(lia)).
              rewrite (decide_False (P := (i - 1) / 2 = i)) by lia.
              rewrite (decide_False (P := (i - 1) / 2 = j)) by lia.
              apply (H2 j); [lia|done|lia].
            * destruct (decide ((k - 1) / 2 = i)) as [Hpi|Hpi].
              -- apply Hmin; done.
              -- rewrite decide_False by done. by apply H1.
        - intros k Hk Hpk _. rewrite !HW. rewrite Hpj.
          rewrite decide_True by done.
          pose proof (par_lt k ltac:(lia)).
          rewrite (decide_False (P := k = i)) by lia.
          rewrite (decide_False (P := k = j)) by lia.
          pose proof (H1 k Hk ltac:(lia)) as Hk1. by rewrite Hpk in Hk1. }
      exists h''. split_and!; [done| by rewrite Hp |done|lia|].
      intros k Hk. rewrite Hkeep by done. apply Hother; lia.
    + exists h. split_and!; try done. intros k Hk.
      destruct (decide ((k - 1) / 2 = i)) as [Hpi|Hpi]; [|by apply H1].
      rewrite Hpi. pose proof (Hmin k Hk Hpi). lia.
Qed.

Lemma W_app_l h x k : k < length h -> W (h ++ [x]) k = W h k.
Proof. intros Hk. unfold W. by rewrite lookup_app_l. Qed.

Lemma W_take h n k : k < n -> W (take n h) k = W h k.
Proof. intros Hk. unfold W. by rewrite lookup_take_lt. Qed.

Lemma W_lookup h k e : h !! k = Some e -> W h k = Weight e.
Proof. intros Hk. unfold W. by rewrite Hk. Qed.

(** In a heap the first cell is a lightest one. *)
Lemma heap_root_min h :
  heap_ok h -> forall k, k < length h -> (W h 0 <= W h k)%Z.
Proof.
  intros Hok k. induction k as [k IH] using lt_wf_ind. intros Hk.
  destruct (decide (k = 0)) as [->|Hk0]; [lia|].
  pose proof (par_lt k ltac:(lia)) as Hp.
  pose proof (IH _ Hp ltac:(lia)). pose proof (Hok k ltac:(lia)). lia.
Qed.

Lemma heap_Push_spec h x :
  heap_ok h ->
  exists h', heap_Push h x = Returned h' /\ h' ≡ₚ x :: h /\ heap_ok h'.
Proof.
  intros Hok. unfold heap_Push, Push, Len.
  rewrite length_app. simpl.
  replace (length h + 1 - 1) with (length h) by lia.
  destruct (up_spec (S (length h + 1)) (h ++ [x]) (length h)) as (h' & Hrun & Hp & Hok').
  - rewrite length_app. simpl. lia.
  - lia.
  - split.
    + intros k Hk Hne. rewrite length_app in Hk. simpl in Hk.
      pose proof (par_lt k ltac:(lia)).
      rewrite !W_app_l by lia. apply Hok. lia.
    + intros k Hk Hpk _. rewrite length_app in Hk. simpl in Hk.
      pose proof (par_lt k ltac:(lia)). lia.
  - exists h'. split_and!; [done| |done].
    rewrite Hp. symmetry. apply Permutation_cons_append.
Qed.

Lemma heap_Pop_spec h :
  heap_ok h -> 0 < length h ->
  exists e h',
    heap_Pop h = Returned (e, h') /\ h ≡ₚ e :: h' /\ heap_ok h' /\
    (forall x, x ∈ h -> (Weight e <= Weight x)%Z).
Proof.
  intros Hok Hlen. unfold heap_Pop, Len.
  remember (length h - 1) as n eqn:Hn.
  destruct (Swap_in_range h 0 n ltac:(lia) ltac:(lia))
    as (h1 & -> & Hlen1 & Hperm1 & HW1 & Hother1 & _ & Hn1). cbn [obind].
  destruct (down_spec (S n) h1 0 n ltac:(lia) ltac:(lia) ltac:(lia))
    as (h2 & -> & Hperm2 & Hok2 & Hlen2 & Hkeep2).
  { split; [|lia]. intros k Hk Hpk.
    pose proof (par_lt k ltac:(lia)).
    rewrite !HW1. rewrite !(decide_False (P := _ = 0)) by lia.
    rewrite !(decide_False (P := _ = n)) by lia. apply Hok. lia. }
  cbn [obind]. unfold Pop.
  destruct (lookup_lt_is_Some_2 h 0 ltac:(lia)) as [e He].
  assert (He2 : h2 !! n = Some e).
  { rewrite Hkeep2 by lia. by rewrite Hn1. }
  assert (Hl2 : length h2 = S n) by lia.
  rewrite Hl2. unfold index. rewrite He2. simpl.
  exists e, (take n h2).
  assert (Hsplit : h2 = take n h2 ++ [e]).
  { rewrite <- (take_S_r _ _ _ He2). rewrite take_ge; [done|lia]. }
  split_and!.
  - done.
  - rewrite <- Hperm1, <- Hperm2. rewrite Hsplit at 1.
    symmetry. apply Permutation_cons_append.
  - intros k Hk. rewrite length_take in Hk.
    pose proof (par_lt k ltac:(lia)).
    rewrite !W_take by lia. apply Hok2. lia.
  - intros x Hx. apply list_elem_of_lookup in Hx as [k Hk].
    pose proof (heap_root_min h Hok k (lookup_lt_Some _ _ _ Hk)) as Hmin.
    by rewrite (W_lookup _ _ _ He), (W_lookup _ _ _ Hk) in Hmin.
Qed.

Lemma heap_Init_nil : heap_Init ([] : list (@Edge Any)) = Returned [].
Proof. reflexivity. Qed.

Lemma heap_ok_nil : heap_ok ([] : list (@Edge Any)).
Proof. intros k Hk. simpl in Hk. lia. Qed.

End Heap.

(** ** The loop of Prim *)

Section PrimLoop.
Context {Any : Type}.
Implicit Types (g : @Graph Any) (pq mst : list (@Edge Any))
               (visited : gmap Z bool) (a e : @Edge Any).

(** Every adjacency entry of a vertex leaves that vertex and is an edge of
    the global edge sequence, in one of its two directions. *)
Definition adjacency_sound g : Prop :=
  forall k v a, Vertices g !! k = Some v -> a ∈ VEdges v ->
    ID (From a) = k /\ graph_edge g (tri_of a).

(** Every edge of the global edge sequence has an adjacency entry on each of
    its two endpoints, pointing to the other one, with the same weight. *)
Definition adjacency_complete g : Prop :=
  forall e, e ∈ Edges g ->
    (exists a, a ∈ VEdges (vertex_at g (ID (From e))) /\
               ID (To a) = ID (To e) /\ Weight a = Weight e) /\
    (exists a, a ∈ VEdges (vertex_at g (ID (To e))) /\
               ID (To a) = ID (From e) /\ Weight a = Weight e).

(** The invariants of an undirected graph built by [AddVertex] and
    [AddEdge]. *)
Definition undirected_wf g : Prop :=
  ids_agree g /\ edges_closed g /\ adjacency_sound g /\ adjacency_complete g.

Lemma push_all_spec edges : forall pq,
  heap_ok pq ->
  exists pq',
    push_all pq edges = Returned pq' /\ heap_ok pq' /\
    length pq' = length pq + length edges /\
    (forall a, a ∈ pq' <-> a ∈ pq \/ a ∈ edges).
Proof.
  unfold push_all.
  induction edges as [|x edges IH]; intros pq Hok; simpl.
  - exists pq. split_and!; [done|done|lia|].
    intros a. rewrite elem_of_nil. tauto.
  - destruct (heap_Push_spec pq x Hok) as (pq1 & -> & Hp1 & Hok1).
    destruct (IH pq1 Hok1) as (pq' & Hrun & Hok' & Hlen & Hmem).
    exists pq'. split_and!; [done|done| |].
    + rewrite Hlen, (Permutation_length Hp1). simpl. lia.
    + intros a. rewrite Hmem, Hp1, !elem_of_cons. tauto.
Qed.

Lemma push_unvisited_spec visited edges : forall pq,
  heap_ok pq ->
  exists pq',
    push_unvisited visited pq edges = Returned pq' /\ heap_ok pq' /\
    length pq' <= length pq + length edges /\
    (forall a, a ∈ pq' <->
               a ∈ pq \/ (a ∈ edges /\ visited_at visited (ID (To a)) = false)).
Proof.
  unfold push_unvisited.
  induction edges as [|x edges IH]; intros pq Hok; simpl.
  - exists pq. split_and!; [done|done|lia|].
    intros a. rewrite elem_of_nil. tauto.
  - destruct (visited_at visited (ID (To x))) eqn:Hx; simpl.
    + destruct (IH pq Hok) as (pq' & Hrun & Hok' & Hlen & Hmem).
      exists pq'. split_and!; [done|done|lia|].
      intros a. rewrite Hmem, elem_of_cons. split; [tauto|].
      intros [?|[[->|?] Hv]]; [tauto|congruence|tauto].
    + destruct (heap_Push_spec pq x Hok) as (pq1 & -> & Hp1 & Hok1).
      destruct (IH pq1 Hok1) as (pq' & Hrun & Hok' & Hlen & Hmem).
      exists pq'. split_and!; [done|done| |].
      * rewrite (Permutation_length Hp1) in Hlen. simpl in Hlen. lia.
      * intros a. rewrite Hmem, Hp1, !elem_of_cons. split.
        -- intros [[->|?]|[? ?]]; tauto.
        -- intros [?|[[->|?] Hv]]; tauto.
Qed.

(** The adjacency entries of the vertices that are not visited yet: a bound
    on what the loop can still push. *)
Definition pending g visited : nat :=
  sum_list (map (fun kv => if visited_at visited (fst kv) then 0
                           else length (VEdges (snd kv)))
                (map_to_list (Vertices g))).

Lemma pending_list_absent visited t (l : list (Z * @Vertex Any)) :
  t ∉ l.*1 ->
  sum_list (map (fun kv => if visited_at (<[t := true]> visited) (fst kv)
                           then 0 else length (VEdges (snd kv))) l) =
  sum_list (map (fun kv => if visited_at visited (fst kv) then 0
                           else length (VEdges (snd kv))) l).
Proof.
  induction l as [|[k v] l IH]; intros Ht; simpl in *; [done|].
  apply not_elem_of_cons in Ht as [Hne Ht]. rewrite (IH Ht).
  unfold visited_at at 1. by rewrite lookup_insert_ne.
Qed.

Lemma pending_list_visit visited t v (l : list (Z * @Vertex Any)) :
  NoDup l.*1 -> (t, v) ∈ l -> visited_at visited t = false ->
  sum_list (map (fun kv => if visited_at (<[t := true]> visited) (fst kv)
                           then 0 else length (VEdges (snd kv))) l)
  + length (VEdges v) =
  sum_list (map (fun kv => if visited_at visited (fst kv) then 0
                           else length (VEdges (snd kv))) l).
Proof.
  induction l as [|[k v'] l IH]; intros Hnd Hin Hvis; simpl in *.
  - by apply elem_of_nil in Hin.
  - apply NoDup_cons in Hnd as [Hk Hnd].
    apply elem_of_cons in Hin as [[= <- <-]|Hin].
    + rewrite (pending_list_absent _ _ _ Hk). rewrite Hvis.
      unfold visited_at at 1. rewrite lookup_insert_eq. simpl. lia.
    + assert (Hne : t ≠ k).
      { intros ->. apply Hk. apply list_elem_of_fmap. by exists (k, v). }
      rewrite <- (IH Hnd Hin Hvis).
      unfold visited_at at 1. rewrite lookup_insert_ne by done.
      fold (visited_at visited k). lia.
Qed.

Lemma pending_visit g visited t v :
  Vertices g !! t = Some v -> visited_at visited t = false ->
  pending g (<[t := true]> visited) + length (VEdges v) = pending g visited.
Proof.
  intros Ht Hvis. unfold pending. apply pending_list_visit; [|by apply elem_of_map_to_list|done].
  apply NoDup_fst_map_to_list.
Qed.

Lemma pending_le_total g visited : pending g visited <= adjacency_total g.
Proof.
  unfold pending, adjacency_total.
  induction (map_to_list (Vertices g)) as [|[k v] l IH]; simpl; [lia|].
  destruct (visited_at visited k); lia.
Qed.

End PrimLoop.

Section PrimInvariant.
Context {Any : Type}.
Variable g : @Graph Any.
Hypothesis Hwf : undirected_wf g.
Variable start : Z.
Hypothesis Hstart : start ∈ vertex_ids g.

Local Abbreviation D := (vertex_ids g).
Local Abbreviation F mst := (tri_of <$> mst).

(** The invariant of the loop: the visited vertices are those reached by
    [mst] from [start], and the queue holds every adjacency entry that
    leaves the visited set. *)
Record pinv (pq mst : list (@Edge Any)) (visited : gmap Z bool) : Prop := {
  p_heap : heap_ok pq;
  p_true : forall z b, visited !! z = Some b -> b = true;
  p_vis_D : forall z, visited_at visited z = true -> z ∈ D;
  p_count : size visited = S (length mst);
  p_pq : forall a, a ∈ pq ->
           visited_at visited (ID (From a)) = true /\ graph_edge g (tri_of a);
  p_frontier : forall k v a,
      Vertices g !! k = Some v -> visited_at visited k = true ->
      a ∈ VEdges v ->
      visited_at visited (ID (To a)) = true \/ a ∈ pq;
  p_conn : forall z, visited_at visited z = true -> conn (F mst) start z;
  p_mst : forall a, a ∈ mst ->
            visited_at visited (ID (From a)) = true /\
            visited_at visited (ID (To a)) = true /\
            graph_edge g (tri_of a);
  p_safe : safe D (graph_edge g) (size D - 1) (F mst);
  p_start : visited_at visited start = true
}.

Lemma prim_loop_S fuel pq mst totalWeight visited :
  prim_loop (S fuel) g pq mst totalWeight visited =
    if (0 <? Len pq)%nat && (Z.of_nat (length mst) <? vertexCount g - 1)%Z
    then
      popped <~ heap_Pop pq ;;
      let '(edge, pq) := popped in
      if visited_at visited (ID (To edge)) then
        prim_loop fuel g pq mst totalWeight visited
      else
        let mst := mst ++ [edge] in
        let totalWeight := wrap_int (totalWeight + Weight edge) in
        let visited := <[ID (To edge) := true]> visited in
        let toVertex := vertex_at g (ID (To edge)) in
        pq <~ push_unvisited visited pq (VEdges toVertex) ;;
        prim_loop fuel g pq mst totalWeight visited
    else Returned (mst, totalWeight).
Proof. reflexivity. Qed.

Lemma graph_edge_ends_in_D t a b :
  graph_edge g t -> ends t a b -> a ∈ D /\ b ∈ D.
Proof.
  destruct Hwf as (_ & Hclosed & _ & _).
  intros (e0 & He0 & _ & Hends0) Hends.
  destruct (Hclosed e0 He0) as [Hf Ht].
  unfold ends in *.
  destruct Hends as [[<- <-]|[<- <-]], Hends0 as [[-> ->]|[-> ->]]; done.
Qed.

Lemma visited_at_insert visited t z :
  visited_at (<[t := true]> visited) z =
    if decide (t = z) then true else visited_at visited z.
Proof. unfold visited_at. rewrite lookup_insert. by case_decide. Qed.

Lemma visited_at_false_None visited z :
  (forall z b, visited !! z = Some b -> b = true) ->
  visited_at visited z = false -> visited !! z = None.
Proof.
  intros Htrue Hz. unfold visited_at in Hz.
  destruct (visited !! z) as [b|] eqn:Hl; [|done].
  simpl in Hz. subst b. by apply Htrue in Hl.
Qed.

Lemma pinv_skip pq pq' mst visited e :
  pinv pq mst visited -> pq ≡ₚ e :: pq' -> heap_ok pq' ->
  visited_at visited (ID (To e)) = true ->
  pinv pq' mst visited.
Proof.
  intros [Hheap Htrue HvisD Hcount Hpq Hfront Hconn Hmst Hsafe Hst] Hperm Hok Hvis.
  constructor; try done.
  - intros a Ha. apply Hpq. rewrite Hperm. by right.
  - intros k v a Hk Hkv Ha.
    destruct (Hfront k v a Hk Hkv Ha) as [?|Hin]; [by left|].
    rewrite Hperm in Hin. apply elem_of_cons in Hin as [->|?]; [by left|by right].
Qed.

Lemma pinv_accept pq pq' pq'' mst visited e vt :
  pinv pq mst visited -> pq ≡ₚ e :: pq' ->
  (forall x, x ∈ pq -> (Weight e <= Weight x)%Z) ->
  visited_at visited (ID (To e)) = false ->
  Vertices g !! ID (To e) = Some vt ->
  heap_ok pq'' ->
  (forall a, a ∈ pq'' <->
     a ∈ pq' \/ (a ∈ VEdges vt /\
                 visited_at (<[ID (To e) := true]> visited) (ID (To a)) = false)) ->
  pinv pq'' (mst ++ [e]) (<[ID (To e) := true]> visited).
Proof.
  intros [Hheap Htrue HvisD Hcount Hpq Hfront Hconn Hmst Hsafe Hst]
         Hperm Hmin Hvis Hvt Hok Hmem.
  destruct Hwf as (Hids & Hclosed & Hsound & Hcomplete).
  set (t := ID (To e)) in *. set (u := ID (From e)) in *.
  assert (He : e ∈ pq) by (rewrite Hperm; by left).
  destruct (Hpq e He) as [Hu Hge]. fold u in Hu.
  assert (Hends : ends (tri_of e) u t) by (by left).
  destruct (graph_edge_ends_in_D _ _ _ Hge Hends) as [HuD HtD].
  assert (Hmono : forall z, visited_at visited z = true ->
                            visited_at (<[t := true]> visited) z = true).
  { intros z Hz. rewrite visited_at_insert. by case_decide. }
  constructor.
  - done.
  - intros z b. rewrite lookup_insert. case_decide; [congruence|apply Htrue].
  - intros z. rewrite visited_at_insert. case_decide; [by subst|apply HvisD].
  - rewrite map_size_insert_None by (by apply visited_at_false_None).
    rewrite length_app. simpl. lia.
  - intros a [Ha|[Ha Hva]]%Hmem.
    + destruct (Hpq a) as [? ?]; [rewrite Hperm; by right|]. split; auto.
    + destruct (Hsound _ _ _ Hvt Ha) as [Hfrom Hg]. split; [|done].
      rewrite Hfrom, visited_at_insert. by rewrite decide_True.
  - intros k v a Hk Hkv Ha.
    destruct (visited_at (<[t:=true]> visited) (ID (To a))) eqn:Hto; [by left|right].
    apply Hmem. rewrite visited_at_insert in Hkv.
    destruct (decide (t = k)) as [<-|Hne].
    + right. rewrite Hvt in Hk. injection Hk as <-. done.
    + left. destruct (Hfront k v a Hk Hkv Ha) as [Hv|Hin].
      * by rewrite (Hmono _ Hv) in Hto.
      * rewrite Hperm in Hin. apply elem_of_cons in Hin as [->|?]; [|done].
        rewrite visited_at_insert in Hto. by rewrite decide_True in Hto.
  - intros z. rewrite visited_at_insert, fmap_app. simpl. intros Hz.
    apply conn_snoc. case_decide as Hc.
    + subst z. eapply conn_trans; [apply conn_cons, Hconn, Hu|].
      eapply conn_edge; [by left|done].
    + by apply conn_cons, Hconn.
  - intros a [Ha|Ha%list_elem_of_singleton]%elem_of_app.
    + destruct (Hmst a Ha) as (? & ? & ?). split_and!; auto.
    + subst a. split_and!; [by apply Hmono| |done].
      rewrite visited_at_insert. by rewrite decide_True.
  - rewrite fmap_app. simpl.
    eapply safe_perm; [apply Permutation_cons_append|].
    apply (safe_step D (graph_edge g) _ (fun z => visited_at visited z = true)
             (F mst) (tri_of e) u t); try done.
    + intros z. destruct (visited_at visited z); [by left | by right].
    + intros f a b Hf Hfe Ha.
      apply list_elem_of_fmap in Hf as (e1 & -> & He1).
      destruct (Hmst e1 He1) as (H1 & H2 & _).
      destruct Hfe as [[<- <-]|[<- <-]]; done.
    + by rewrite Hvis.
    + intros e' a b He' Hends' Ha Hb.
      destruct (graph_edge_ends_in_D _ _ _ He' Hends') as [HaD HbD].
      destruct He' as (e0 & He0 & Hw & Hends0).
      destruct (Hcomplete e0 He0) as [(a1 & Ha1 & Hto1 & Hw1) (a2 & Ha2 & Hto2 & Hw2)].
      unfold vertex_ids in HaD. apply elem_of_dom in HaD as [va Hva].
      assert (Hadj : exists a', a' ∈ VEdges va /\ ID (To a') = b /\
                                Weight a' = wt e').
      { unfold ends in Hends', Hends0. unfold vertex_at in Ha1, Ha2.
        destruct Hends' as [[Hs Hd]|[Hs Hd]], Hends0 as [[Hs0 Hd0]|[Hs0 Hd0]].
        - exists a1. rewrite <- Hs0, Hs, Hva in Ha1. simpl in Ha1.
          split_and!; [done|congruence|congruence].
        - exists a2. rewrite <- Hs0, Hs, Hva in Ha2. simpl in Ha2.
          split_and!; [done|congruence|congruence].
        - exists a2. rewrite <- Hd0, Hd, Hva in Ha2. simpl in Ha2.
          split_and!; [done|congruence|congruence].
        - exists a1. rewrite <- Hd0, Hd, Hva in Ha1. simpl in Ha1.
          split_and!; [done|congruence|congruence]. }
      destruct Hadj as (a' & Ha' & Hto' & Hw').
      destruct (Hfront a va a' Hva Ha Ha') as [Hv|Hin].
      * rewrite Hto' in Hv. congruence.
      * pose proof (Hmin a' Hin). unfold wt, tri_of in *. simpl in *. lia.
  - by apply Hmono.
Qed.

Lemma prim_loop_spec fuel : forall pq mst total visited,
  pinv pq mst visited ->
  length pq + pending g visited < fuel ->
  total = wrap_int (weight_sum (F mst)) ->
  exists mst' total' visited' pq',
    prim_loop fuel g pq mst total visited = Returned (mst', total') /\
    pinv pq' mst' visited' /\
    total' = wrap_int (weight_sum (F mst')) /\
    (pq' = [] \/ (vertexCount g - 1 <= Z.of_nat (length mst'))%Z).
Proof.
  induction fuel as [|fuel IH]; intros pq mst total visited Hinv Hfuel Htotal;
    [lia|].
  rewrite prim_loop_S.
  destruct ((0 <? Len pq)%nat && (Z.of_nat (length mst) <? vertexCount g - 1)%Z)
    eqn:Hguard.
  - apply andb_true_iff in Hguard as [Hlen _]. apply Nat.ltb_lt in Hlen.
    destruct (heap_Pop_spec pq (p_heap _ _ _ Hinv) Hlen)
      as (e & pq1 & -> & Hperm & Hok1 & Hmin).
    cbn [obind].
    pose proof (Permutation_length Hperm) as Hlen1. simpl in Hlen1.
    destruct (visited_at visited (ID (To e))) eqn:Hvis.
    + apply (IH pq1 mst total visited); [|lia|done].
      by eapply pinv_skip.
    + assert (He : e ∈ pq) by (rewrite Hperm; by left).
      destruct (p_pq _ _ _ Hinv e He) as [Hu Hge].
      destruct (graph_edge_ends_in_D (tri_of e) (ID (From e)) (ID (To e)) Hge)
        as [_ HtD]; [by left|].
      unfold vertex_ids in HtD. apply elem_of_dom in HtD as [vt Hvt].
      unfold vertex_at. rewrite Hvt. simpl.
      destruct (push_unvisited_spec (<[ID (To e) := true]> visited)
                  (VEdges vt) pq1 Hok1) as (pq2 & -> & Hok2 & Hlen2 & Hmem2).
      cbn [obind].
      pose proof (pending_visit g visited _ vt Hvt Hvis) as Hpend.
      apply (IH pq2 (mst ++ [e]) _ (<[ID (To e) := true]> visited)).
      * by eapply (pinv_accept pq pq1 pq2).
      * lia.
      * rewrite fmap_app. simpl. rewrite weight_sum_snoc, Htotal.
        apply wrap_int_add_l.
  - exists mst, total, visited, pq. split_and!; try done.
    apply andb_false_iff in Hguard as [Hlen|Hfull].
    + left. apply Nat.ltb_ge in Hlen. unfold Len in Hlen.
      destruct pq; [done|simpl in Hlen; lia].
    + right. lia.
Qed.

(** What [Prim] returns on an undirected graph built by the insertion
    operations, from a start vertex of the graph. *)
Lemma Prim_spec :
  Directed g = false ->
  exists mst total (visited : gmap Z bool),
    Prim start g = (Returned (Some mst, total), g) /\
    total = wrap_int (weight_sum (F mst)) /\
    safe D (graph_edge g) (size D - 1) (F mst) /\
    (forall a, a ∈ mst ->
       visited_at visited (ID (From a)) = true /\
       visited_at visited (ID (To a)) = true /\ graph_edge g (tri_of a)) /\
    (forall z, visited_at visited z = true -> z ∈ D /\ conn (F mst) start z) /\
    visited_at visited start = true /\
    (forall z b, visited !! z = Some b -> b = true) /\
    size visited = S (length mst) /\
    ((vertexCount g - 1 <= Z.of_nat (length mst))%Z \/
     forall k v a, Vertices g !! k = Some v -> visited_at visited k = true ->
                   a ∈ VEdges v -> visited_at visited (ID (To a)) = true).
Proof.
  intros Hdir.
  pose proof Hwf as (Hids & Hclosed & Hsound & Hcomplete).
  pose proof Hstart as Hs. unfold vertex_ids in Hs.
  apply elem_of_dom in Hs as [sv Hsv].
  pose proof (Hids _ _ Hsv) as Hid.
  destruct (push_all_spec (VEdges sv) [] heap_ok_nil)
    as (pq0 & Hpush & Hok0 & Hlen0 & Hmem0).
  assert (Hinv0 : pinv pq0 [] (<[start := true]> ∅)).
  { constructor.
    - done.
    - intros z b. rewrite lookup_insert. case_decide; [congruence|].
      by rewrite lookup_empty.
    - intros z. rewrite visited_at_insert. case_decide; [by subst|].
      unfold visited_at. by rewrite lookup_empty.
    - rewrite map_size_insert_None by apply lookup_empty.
      by rewrite map_size_empty.
    - intros a Ha. apply Hmem0 in Ha as [Ha|Ha]; [by apply elem_of_nil in Ha|].
      destruct (Hsound _ _ _ Hsv Ha) as [Hfrom Hg]. split; [|done].
      rewrite Hfrom, visited_at_insert. by rewrite decide_True.
    - intros k v a Hk Hkv Ha. right. apply Hmem0. right.
      rewrite visited_at_insert in Hkv. case_decide as Hc.
      + subst k. rewrite Hsv in Hk. by injection Hk as <-.
      + unfold visited_at in Hkv. by rewrite lookup_empty in Hkv.
    - intros z. rewrite visited_at_insert. case_decide as Hc.
      + subst z. intros _. apply conn_refl.
      + unfold visited_at. by rewrite lookup_empty.
    - intros a Ha. by apply elem_of_nil in Ha.
    - apply safe_nil.
    - rewrite visited_at_insert. by rewrite decide_True. }
  destruct (prim_loop_spec (S (length (VEdges sv) + adjacency_total g))
              pq0 [] 0%Z (<[start := true]> ∅) Hinv0)
    as (mst & total & visited & pq & Hrun & Hinv & Htotal & Hexit).
  { pose proof (pending_le_total g (<[start := true]> ∅)). simpl in Hlen0. lia. }
  { done. }
  exists mst, total, visited.
  destruct Hinv as [Hheap Htrue HvisD Hcount Hpq Hfront Hconn Hmst Hsafe Hst].
  split_and!; try done.
  - unfold Prim, bind, get, lift, ret. cbv beta iota. rewrite Hdir, Hsv.
    rewrite heap_Init_nil. cbn [obind]. rewrite Hid, Hpush. cbn [obind].
    by rewrite Hrun.
  - intros z Hz. split; auto.
  - destruct Hexit as [Hnil|?]; [right|by left]. subst pq.
    intros k v a Hk Hkv Ha.
    destruct (Hfront k v a Hk Hkv Ha) as [?|Hin]; [done|].
    by apply elem_of_nil in Hin.
Qed.

End PrimInvariant.

(** ** Graphs built by the insertion operations *)

Section BuiltGraphs.
Context {Any : Type}.
Implicit Types (g : @Graph Any) (v : @Vertex Any) (e edge a : @Edge Any).

(** The graphs a caller obtains from [NewGraph] by [AddVertex] and [AddEdge],
    passing vertices that carry no adjacency of their own. *)
Inductive Built : Graph -> Prop :=
| Built_new directed : Built (NewGraph directed)
| Built_vertex g v :
    Built g -> VEdges v = [] -> Built (snd (AddVertex v g))
| Built_edge g edge :
    Built g -> VEdges (From edge) = [] -> VEdges (To edge) = [] ->
    Built (snd (AddEdge edge g)).

(** [v] with [l] appended to its adjacency. *)
Definition extend v (l : list (@Edge Any)) : Vertex :=
  mkVertex (ID v) (Name v) (VData v) (VEdges v ++ l).

Lemma extend_nil v : extend v [] = v.
Proof. destruct v. unfold extend. simpl. by rewrite app_nil_r. Qed.

(** The adjacency entries that [AddEdge] appends at key [k]. *)
Definition added (directed : bool) (f t : Z) (newEdge : @Edge Any) (k : Z)
  : list (@Edge Any) :=
  (if decide (k = f) then [newEdge] else []) ++
  (if directed then [] else if decide (k = t) then [Reverse newEdge] else []).

Lemma AddEdge_shape g edge :
  ids_agree g ->
  let g1 := endpoints_ensured edge g in
  let f := ID (From edge) in
  let t := ID (To edge) in
  exists sf st g',
    Vertices g1 !! f = Some sf /\ Vertices g1 !! t = Some st /\
    AddEdge edge g =
      (Returned (mkEdge sf st (Weight edge) (EData edge)), g') /\
    Edges g' = Edges g ++ [mkEdge sf st (Weight edge) (EData edge)] /\
    Directed g' = Directed g /\
    forall k, Vertices g' !! k =
      (fun v => extend v (added (Directed g) f t
                            (mkEdge sf st (Weight edge) (EData edge)) k))
        <$> Vertices g1 !! k.
Proof.
  intros Hids g1 f t.
  pose proof (AddEdge_unfold g edge) as Hunf. cbv zeta in Hunf.
  fold g1 f t in Hunf.
  destruct (endpoints_ensured_spec g edge)
    as (HE & HD & [sf Hsf] & [st Hst] & Hother & _ & _).
  fold g1 f in Hsf. fold g1 t in Hst.
  pose proof (ids_agree_endpoints g edge Hids) as Hids1. fold g1 in Hids1.
  assert (Hfrom : vertex_at g1 f = sf) by (unfold vertex_at; by rewrite Hsf).
  assert (Hto : vertex_at g1 t = st) by (unfold vertex_at; by rewrite Hst).
  rewrite Hfrom, Hto in Hunf.
  assert (Hidf : ID sf = f) by (by apply (Hids1 f)).
  assert (Hidt : ID st = t) by (by apply (Hids1 t)).
  rewrite Hidf, Hidt, Hfrom in Hunf.
  exists sf, st. eexists. split_and!; [done|done|exact Hunf|done|done|].
  intros k. simpl. unfold added.
  set (ne := mkEdge sf st (Weight edge) (EData edge)).
  destruct (Directed g) eqn:Hdir.
  - rewrite app_nil_r. rewrite lookup_insert.
    destruct (decide (f = k)) as [<-|Hne].
    + rewrite decide_True by done. by rewrite Hsf.
    + rewrite decide_False by done.
      destruct (Vertices g1 !! k); simpl; [|done]. by rewrite extend_nil.
  - rewrite lookup_insert. destruct (decide (t = k)) as [<-|Hnet].
    + rewrite (decide_True (P := t = t)) by done.
      rewrite lookup_insert. destruct (decide (f = t)) as [Heq|Hnef].
      * rewrite decide_True by done. simpl.
        rewrite <- Heq, Hsf. simpl. unfold extend. simpl.
        by rewrite <- app_assoc.
      * rewrite decide_False by done. by rewrite Hst.
    + rewrite (decide_False (P := k = t)) by done. rewrite app_nil_r.
      rewrite lookup_insert. destruct (decide (f = k)) as [<-|Hnef].
      * rewrite decide_True by done. by rewrite Hsf.
      * rewrite decide_False by done.
        destruct (Vertices g1 !! k); simpl; [|done]. by rewrite extend_nil.
Qed.

(** The invariants kept by the insertion operations. *)
Definition binv g : Prop :=
  ids_agree g /\ edges_closed g /\ adjacency_sound g /\
  (Directed g = false -> adjacency_complete g).

Lemma graph_edge_mono g g' t :
  (forall e, e ∈ Edges g -> e ∈ Edges g') -> graph_edge g t -> graph_edge g' t.
Proof. intros Hsub (e & He & Hw & Hends). exists e. auto. Qed.

Lemma binv_new directed : binv (NewGraph directed).
Proof.
  unfold binv, NewGraph. split_and!.
  - intros k v. simpl. by rewrite lookup_empty.
  - intros e He. simpl in He. by apply elem_of_nil in He.
  - intros k v a. simpl. by rewrite lookup_empty.
  - intros _ e He. simpl in He. by apply elem_of_nil in He.
Qed.

Lemma binv_AddVertex g v :
  binv g -> VEdges v = [] -> binv (snd (AddVertex v g)).
Proof.
  intros (Hids & Hclosed & Hsound & Hcomplete) Hv.
  destruct (Vertices g !! ID v) as [s|] eqn:Hk.
  { rewrite (AddVertex_present _ _ _ Hk). by split_and!. }
  rewrite (AddVertex_absent _ _ Hk). simpl.
  assert (Hdom : forall z, z ∈ vertex_ids g ->
            z ∈ vertex_ids (mkGraph (<[ID v := v]> (Vertices g)) (Edges g) (Directed g))).
  { intros z. unfold vertex_ids. simpl. rewrite dom_insert_L. set_solver. }
  split_and!.
  - by apply ids_agree_insert.
  - intros e He. simpl in He. destruct (Hclosed e He). split; by apply Hdom.
  - intros k v' a. simpl. rewrite lookup_insert. case_decide as Hc.
    + intros [= <-]. rewrite Hv. intros Ha. by apply elem_of_nil in Ha.
    + intros Hk' Ha. destruct (Hsound k v' a Hk' Ha) as [? Hg]. split; [done|].
      by apply (graph_edge_mono g).
  - simpl. intros Hdir e He.
    destruct (Hclosed e He) as [Hf Ht].
    assert (Hsame : forall z, z ∈ vertex_ids g ->
              vertex_at (mkGraph (<[ID v := v]> (Vertices g)) (Edges g) (Directed g)) z
              = vertex_at g z).
    { intros z Hz. unfold vertex_at. simpl. rewrite lookup_insert_ne; [done|].
      intros <-. unfold vertex_ids in Hz. apply elem_of_dom in Hz as [? Hz].
      congruence. }
    rewrite !Hsame by done. by apply Hcomplete.
Qed.

Lemma binv_AddEdge g edge :
  binv g -> VEdges (From edge) = [] -> VEdges (To edge) = [] ->
  binv (snd (AddEdge edge g)).
Proof.
  intros Hg Hf0 Ht0.
  assert (Hg1 : binv (endpoints_ensured edge g)).
  { unfold endpoints_ensured. apply binv_AddVertex; [|done].
    by apply binv_AddVertex. }
  destruct (endpoints_ensured_spec g edge) as (HE1 & HD1 & _).
  destruct (AddEdge_shape g edge (proj1 Hg))
    as (sf & st & g' & Hsf & Hst & -> & HE & HD & HV).
  simpl. rewrite <- HE1, <- HD1 in *.
  set (g1 := endpoints_ensured edge g) in *.
  set (f := ID (From edge)) in *. set (t := ID (To edge)) in *.
  set (ne := mkEdge sf st (Weight edge) (EData edge)) in *.
  destruct Hg1 as (Hids & Hclosed & Hsound & Hcomplete).
  assert (Hidf : ID sf = f) by (by apply (Hids f)).
  assert (Hidt : ID st = t) by (by apply (Hids t)).
  assert (Hdom : forall z, z ∈ vertex_ids g' <-> z ∈ vertex_ids g1).
  { intros z. unfold vertex_ids. rewrite !elem_of_dom, HV.
    by rewrite fmap_is_Some. }
  assert (Hsub : forall e, e ∈ Edges g1 -> e ∈ Edges g').
  { intros e He. rewrite HE. apply elem_of_app. by left. }
  assert (Hne : ne ∈ Edges g').
  { rewrite HE. apply elem_of_app. right. by apply list_elem_of_singleton. }
  assert (Hat : forall z, z ∈ vertex_ids g1 ->
            vertex_at g' z = extend (vertex_at g1 z) (added (Directed g1) f t ne z)).
  { intros z Hz. unfold vertex_ids in Hz. apply elem_of_dom in Hz as [vz Hvz].
    unfold vertex_at. by rewrite HV, Hvz. }
  split_and!.
  - intros k v'. rewrite HV. destruct (Vertices g1 !! k) as [v|] eqn:Hk; [|done].
    simpl. intros [= <-]. simpl. by apply (Hids k).
  - intros e. rewrite HE. intros [He|He%list_elem_of_singleton]%elem_of_app.
    + destruct (Hclosed e He). split; by apply Hdom.
    + subst e. simpl. rewrite Hidf, Hidt. split; apply Hdom;
        unfold vertex_ids; apply elem_of_dom; by eexists.
  - intros k v' a. rewrite HV.
    destruct (Vertices g1 !! k) as [v|] eqn:Hk; [|done].
    simpl. intros [= <-]. simpl. unfold added.
    rewrite !elem_of_app. intros [Ha|[Ha|Ha]].
    + destruct (Hsound k v a Hk Ha) as [? Hge]. split; [done|].
      by apply (graph_edge_mono g1).
    + case_decide as Hc; [|by apply elem_of_nil in Ha].
      apply list_elem_of_singleton in Ha. subst a k. simpl. split; [done|].
      by apply tri_of_graph_edge.
    + destruct (Directed g1); [by apply elem_of_nil in Ha|].
      case_decide as Hc; [|by apply elem_of_nil in Ha].
      apply list_elem_of_singleton in Ha. subst a k. simpl. split; [done|].
      exists ne. split_and!; [done|done|by right].
  - rewrite HD. intros Hdir e. rewrite HE.
    intros [He|He%list_elem_of_singleton]%elem_of_app.
    + destruct (Hclosed e He) as [Hfe Hte].
      destruct (Hcomplete Hdir e He) as [(a1 & Ha1 & ? & ?) (a2 & Ha2 & ? & ?)].
      rewrite !Hat by done. split.
      * exists a1. split_and!; [|done|done]. simpl. apply elem_of_app. by left.
      * exists a2. split_and!; [|done|done]. simpl. apply elem_of_app. by left.
    + subst e. simpl. rewrite Hidf, Hidt.
      rewrite !Hat by (unfold vertex_ids; apply elem_of_dom; by eexists).
      unfold added. rewrite Hdir. split.
      * exists ne. split_and!; [|done|done]. simpl.
        rewrite decide_True by done. rewrite !elem_of_app. right. left.
        by apply list_elem_of_singleton.
      * exists (Reverse ne). split_and!; [|done|done]. simpl.
        rewrite (decide_True (P := t = t)) by done. rewrite !elem_of_app.
        right. right. by apply list_elem_of_singleton.
Qed.

Lemma Built_binv g : Built g -> binv g.
Proof.
  induction 1 as [d|g v _ IH Hv|g edge _ IH Hf Ht].
  - apply binv_new.
  - by apply binv_AddVertex.
  - by apply binv_AddEdge.
Qed.

Lemma Built_undirected_wf g :
  Built g -> Directed g = false -> undirected_wf g.
Proof.
  intros Hb Hdir. destruct (Built_binv g Hb) as (? & ? & ? & Hc).
  split_and!; auto.
Qed.

End BuiltGraphs.

(** ** Depth-first search *)

Section DepthFirst.
Context {Any : Type}.
Variable g : @Graph Any.
Variable P : Z -> Prop.
Hypothesis P_closed : forall k v e,
  P k -> Vertices g !! k = Some v -> e ∈ VEdges v -> P (ID (To e)).

Local Abbreviation D := (vertex_ids g).

Definition all_true (visited : gmap Z bool) : Prop :=
  forall z b, visited !! z = Some b -> b = true.

Lemma dfs_S fuel nodeID visited :
  dfs (S fuel) g nodeID visited =
    foldl (fun acc edge =>
             visited <~ acc ;;
             if negb (visited_at visited (ID (To edge)))
             then dfs fuel g (ID (To edge)) visited
             else Returned visited)
          (Returned (<[nodeID := true]> visited))
          (VEdges (vertex_at g nodeID)).
Proof. reflexivity. Qed.

Lemma size_unvisited_mono (v1 v2 : gmap Z bool) :
  dom v1 ⊆ dom v2 -> size (D ∖ dom v2) <= size (D ∖ dom v1).
Proof. intros Hsub. apply subseteq_size. set_solver. Qed.

(** [dfs] returns, and it marks only vertices of [P], a set that holds the
    start and is closed under the adjacency lists. *)
Lemma dfs_spec fuel : forall node visited,
  all_true visited -> visited !! node = None -> P node ->
  (forall z, z ∈ dom visited -> P z) ->
  size (D ∖ dom visited) < fuel ->
  exists visited',
    dfs fuel g node visited = Returned visited' /\
    all_true visited' /\ dom visited ⊆ dom visited' /\
    (forall z, z ∈ dom visited' -> P z).
Proof.
  induction fuel as [|fuel IH]; intros node visited Htrue Hnode HP Hdom Hfuel;
    [lia|].
  rewrite dfs_S.
  set (visited1 := <[node := true]> visited).
  assert (Htrue1 : all_true visited1).
  { intros z b. unfold visited1. rewrite lookup_insert.
    case_decide; [congruence|apply Htrue]. }
  assert (Hdom1 : forall z, z ∈ dom visited1 -> P z).
  { intros z. unfold visited1. rewrite dom_insert_L.
    intros [->%elem_of_singleton|?]%elem_of_union; auto. }
  assert (Hsub1 : dom visited ⊆ dom visited1).
  { unfold visited1. rewrite dom_insert_L. set_solver. }
  assert (Hedges : forall e, e ∈ VEdges (vertex_at g node) -> P (ID (To e))).
  { intros e. unfold vertex_at.
    destruct (Vertices g !! node) as [v|] eqn:Hv; simpl.
    - by apply (P_closed node).
    - intros He. by apply elem_of_nil in He. }
  assert (Hfuel1 : VEdges (vertex_at g node) ≠ [] -> size (D ∖ dom visited1) < fuel).
  { intros Hne.
    assert (HnD : node ∈ D).
    { unfold vertex_ids. apply elem_of_dom. unfold vertex_at in Hne.
      destruct (Vertices g !! node); [by eexists|done]. }
    assert (Hlt : D ∖ dom visited1 ⊂ D ∖ dom visited).
    { unfold visited1. rewrite dom_insert_L.
      apply not_elem_of_dom in Hnode. set_solver. }
    apply subset_size in Hlt. lia. }
  clearbody visited1. clear Hnode.
  revert Htrue1 Hdom1 Hsub1 Hfuel1.
  generalize visited1. clear visited1.
  induction (VEdges (vertex_at g node)) as [|e edges IHe];
    intros cur Htrue1 Hdom1 Hsub1 Hfuel1; simpl.
  - exists cur. by split_and!.
  - assert (Hlt : size (D ∖ dom cur) < fuel) by (by apply Hfuel1).
    destruct (visited_at cur (ID (To e))) eqn:Hvis; simpl.
    + apply IHe; try done.
      * intros e0 He0. apply Hedges. by right.
    + destruct (IH (ID (To e)) cur Htrue1) as (cur1 & -> & Ht1 & Hs1 & Hd1);
        try done.
      * unfold visited_at in Hvis. destruct (cur !! ID (To e)) as [b|] eqn:Hl;
          [|done]. simpl in Hvis. subst b. by apply Htrue1 in Hl.
      * apply Hedges. by left.
      * destruct (IHe (fun e0 He0 => Hedges e0 (list_elem_of_further _ _ _ He0))
                    cur1 Ht1 Hd1) as (cur' & Hrun & ? & ? & ?).
        -- set_solver.
        -- intros _. pose proof (size_unvisited_mono _ _ Hs1). lia.
        -- exists cur'. split_and!; try done; set_solver.
Qed.

End DepthFirst.

(** * The two algorithms on graphs built by the insertion operations *)

Section Algorithms.
Context {Any : Type} `{GoSort}.
Implicit Types (g : @Graph Any) (e a : @Edge Any).

Local Abbreviation Eg g := (tri_of <$> Edges g).

Lemma graph_edge_conn g t x y :
  graph_edge g t -> ends t x y -> conn (Eg g) x y.
Proof.
  intros (e0 & He0 & _ & Hends0) Hends.
  eapply (conn_edge _ (tri_of e0)).
  - apply list_elem_of_fmap. by exists e0.
  - unfold ends, tri_of, src, dst in *. simpl.
    destruct Hends as [[<- <-]|[<- <-]], Hends0 as [[-> ->]|[-> ->]]; tauto.
Qed.

Lemma conn_into_graph g G x y :
  (forall t, t ∈ G -> graph_edge g t) -> conn G x y -> conn (Eg g) x y.
Proof.
  intros Hsub. induction 1 as [|x y z t Ht Hends _ IH]; [apply conn_refl|].
  eapply conn_trans; [|exact IH]. eapply graph_edge_conn; eauto.
Qed.

Lemma conn_from_graph g G x y :
  (forall e, e ∈ Edges g -> conn G (ID (From e)) (ID (To e))) ->
  conn (Eg g) x y -> conn G x y.
Proof.
  intros Hall. induction 1 as [|x y z t Ht Hends _ IH]; [apply conn_refl|].
  eapply conn_trans; [|exact IH].
  apply list_elem_of_fmap in Ht as (e0 & -> & He0).
  specialize (Hall e0 He0).
  destruct Hends as [[<- <-]|[<- <-]]; [done | by apply conn_sym].
Qed.

Lemma sorted_sublist {B} (R : B -> B -> Prop) (l1 l2 : list B) :
  sublist l1 l2 -> StronglySorted R l2 -> StronglySorted R l1.
Proof.
  induction 1 as [|x l1 l2 Hsub IH|x l1 l2 Hsub IH]; intros Hs.
  - constructor.
  - apply StronglySorted_inv in Hs as [Hs Hall]. constructor; [by apply IH|].
    rewrite Forall_forall in *. intros z Hz. apply Hall.
    by eapply elem_of_sublist.
  - apply StronglySorted_inv in Hs as [Hs _]. by apply IH.
Qed.

Lemma by_weight_sorted (l : list (@Edge Any)) :
  StronglySorted (fun a b => by_weight b a = false) l ->
  StronglySorted (fun a b => (Weight a <= Weight b)%Z) l.
Proof.
  induction 1 as [|x l _ IH Hall]; constructor; [done|].
  eapply Forall_impl; [exact Hall|]. unfold by_weight. intros z Hz. simpl in Hz. lia.
Qed.


Lemma visited_dom (visited : gmap Z bool) z :
  (forall z b, visited !! z = Some b -> b = true) ->
  visited_at visited z = true <-> z ∈ dom visited.
Proof.
  intros Htrue. unfold visited_at. rewrite elem_of_dom. split.
  - destruct (visited !! z); [by eexists|done].
  - intros [b Hb]. rewrite Hb. simpl. by apply (Htrue z).
Qed.


Lemma IsConnected_disconnected g order x y :
  undirected_wf g -> range_order g order ->
  x ∈ vertex_ids g -> y ∈ vertex_ids g -> ~ conn (Eg g) x y ->
  IsConnected order g = (Returned false, g).
Proof.
  intros (Hids & Hclosed & Hsound & Hcomplete) Horder Hx Hy Hnc.
  assert (Hpos : 0 < size (vertex_ids g)).
  { destruct (size (vertex_ids g)) eqn:Hs; [|lia].
    apply size_empty_inv in Hs. set_solver. }
  unfold IsConnected, bind, get, ret, lift. cbv beta iota.
  rewrite vertexCount_size.
  destruct (Z.of_nat (size (vertex_ids g)) =? 0)%Z eqn:Hz; [lia|]. clear Hz.
  set (start := hd 0%Z order).
  assert (Hstart : start ∈ vertex_ids g).
  { apply (range_order_elem g order); [done|]. subst start.
    apply (range_order_elem g order x Horder) in Hx.
    destruct order; [by apply elem_of_nil in Hx | by left]. }
  destruct (dfs_spec g (fun z => conn (Eg g) start z)) with
    (fuel := S (size (Vertices g))) (node := start) (visited := (∅ : gmap Z bool))
    as (visited' & -> & Htrue & _ & Hdom).
  - intros k v e Hk Hv He. destruct (Hsound k v e Hv He) as [Hfrom Hge].
    eapply conn_trans; [exact Hk|].
    apply (graph_edge_conn g (tri_of e)); [done|]. by left.
  - intros z b. by rewrite lookup_empty.
  - apply lookup_empty.
  - apply conn_refl.
  - intros z. rewrite dom_empty_L. set_solver.
  - rewrite dom_empty_L, difference_empty_L. unfold vertex_ids.
    rewrite size_dom. lia.
  - cbn [obind]. f_equal. f_equal. apply Z.eqb_neq. intros Heq.
    assert (Hsub : dom visited' ⊆ vertex_ids g).
    { intros z Hz. apply (conn_in_D g Hclosed (Edges g) start z); auto. }
    assert (Hall : dom visited' = vertex_ids g).
    { apply set_subseteq_size_eq; [done|]. rewrite size_dom. lia. }
    rewrite <- Hall in Hx, Hy. apply Hnc.
    eapply conn_trans; [apply conn_sym|]; by apply Hdom.
Qed.


End Algorithms.

(** * Further properties of the package *)

(** ** What is printed *)

Section PrintingProperties.
Context {Any : Type}.
Implicit Types (v : @Vertex Any) (e : @Edge Any).

Fixpoint spaceless (s : string) : bool :=
  match s with
  | EmptyString => true
  | String c s' => negb (Ascii.eqb c " "%char) && spaceless s'
  end.

Lemma pretty_N_go_spaceless (x : N) : forall s,
  spaceless s = true -> spaceless (pretty_N_go x s) = true.
Proof.
  induction (N.lt_wf_0 x) as [x _ IH]; intros s Hs.
  assert (x = 0 \/ 0 < x)%N as [->|Hx] by lia.
  - by rewrite pretty_N_go_0.
  - rewrite pretty_N_go_step by done. apply IH.
    { by apply N.div_lt. }
    simpl. rewrite Hs. unfold pretty_N_char. by repeat case_match.
Qed.

Lemma pretty_Z_spaceless (z : Z) : spaceless (pretty z) = true.
Proof.
  assert (Hpos : forall p : positive, spaceless (pretty p) = true).
  { intros p. unfold pretty, pretty_positive, pretty, pretty_N.
    case_decide; [done|]. by apply pretty_N_go_spaceless. }
  destruct z as [|p|p]; unfold pretty, pretty_Z; simpl; [done|apply Hpos|apply Hpos].
Qed.

(** Two texts that have no space in them, each followed by a space. *)
Lemma spaceless_split (s1 : string) : forall s2 r1 r2,
  spaceless s1 = true -> spaceless s2 = true ->
  s1 +:+ String " " r1 = s2 +:+ String " " r2 -> s1 = s2 /\ r1 = r2.
Proof.
  induction s1 as [|c s1 IH]; intros [|c2 s2] r1 r2 H1 H2 Heq; simpl in *.
  - by injection Heq.
  - injection Heq as <- _. by rewrite Ascii.eqb_refl in H2.
  - injection Heq as -> _. by rewrite Ascii.eqb_refl in H1.
  - injection Heq as -> Heq.
    apply andb_true_iff in H1 as [_ H1]. apply andb_true_iff in H2 as [_ H2].
    destruct (IH s2 r1 r2 H1 H2 Heq) as [-> ->]. done.
Qed.

(** X1.  What is printed tells the identities and the weight, and nothing
    else: two vertices print alike exactly when they have the same identity
    (names, payloads and adjacency lists are not shown), and two edges print
    alike exactly when they join the same identities, in the same direction,
    with the same weight. *)
Theorem String_shows_identities v v' e e' :
  (Vertex_String v = Vertex_String v' <-> ID v = ID v') /\
  (Edge_String e = Edge_String e' <-> tri_of e = tri_of e').
Proof.
  assert (HV : forall a b : Z, "ID : " +:+ pretty a = "ID : " +:+ pretty b -> a = b).
  { intros a b Heq. simpl in Heq. injection Heq as Heq. by apply pretty_Z_inj. }
  split.
  - unfold Vertex_String. split; [apply HV | by intros ->].
  - unfold Edge_String, Vertex_String, tri_of. split.
    + intros Heq.
      simpl in Heq.
      injection Heq as Heq.
      apply spaceless_split in Heq as [Hf Heq]; try apply pretty_Z_spaceless.
      injection Heq as Heq.
      apply spaceless_split in Heq as [Hw Heq]; try apply pretty_Z_spaceless.
      injection Heq as Heq.
      apply pretty_Z_inj in Hf. apply pretty_Z_inj in Hw.
      apply pretty_Z_inj in Heq. congruence.
    + intros [= -> -> ->]. done.
Qed.

End PrintingProperties.

(** ** The container: what the insertions keep *)

Section Container.
Context {Any : Type}.
Implicit Types (g : @Graph Any) (v vertex : @Vertex Any) (e edge a : @Edge Any).

Lemma ids_agree_AddVertex g vertex :
  ids_agree g -> ids_agree (snd (AddVertex vertex g)).
Proof.
  intros Hg. destruct (Vertices g !! ID vertex) as [s|] eqn:Hk.
  - by rewrite (AddVertex_present _ _ _ Hk).
  - rewrite (AddVertex_absent _ _ Hk). by apply ids_agree_insert.
Qed.

Lemma ID_extend v l : ID (extend v l) = ID v.
Proof. done. Qed.

Lemma ids_agree_AddEdge g edge :
  ids_agree g -> ids_agree (snd (AddEdge edge g)).
Proof.
  intros Hg.
  destruct (AddEdge_shape g edge Hg) as (sf & st & g' & _ & _ & -> & _ & _ & HV).
  pose proof (ids_agree_endpoints g edge Hg) as Hg1.
  intros k v. simpl. rewrite HV.
  destruct (Vertices (endpoints_ensured edge g) !! k) as [v1|] eqn:Hk; [|done].
  simpl. intros [= <-]. simpl. by apply (Hg1 k).
Qed.

Lemma vertex_ids_endpoints g edge :
  vertex_ids (endpoints_ensured edge g) =
    vertex_ids g ∪ {[ID (From edge); ID (To edge)]}.
Proof.
  destruct (endpoints_ensured_spec g edge)
    as (_ & _ & Hf & Ht & Hother & Hold & _).
  apply set_eq. intros z. unfold vertex_ids.
  rewrite elem_of_union, !elem_of_dom, elem_of_union, !elem_of_singleton.
  split.
  - intros Hz.
    destruct (decide (z = ID (From edge))) as [->|Hzf]; [tauto|].
    destruct (decide (z = ID (To edge))) as [->|Hzt]; [tauto|].
    left. by rewrite <- Hother.
  - intros [[v Hv]|[->| ->]]; [|done|done].
    exists v. by apply Hold.
Qed.

Lemma vertex_ids_AddEdge g edge :
  ids_agree g ->
  vertex_ids (snd (AddEdge edge g)) =
    vertex_ids g ∪ {[ID (From edge); ID (To edge)]}.
Proof.
  intros Hg. rewrite <- vertex_ids_endpoints.
  destruct (AddEdge_shape g edge Hg) as (sf & st & g' & _ & _ & -> & _ & _ & HV).
  simpl. apply set_eq. intros z. unfold vertex_ids.
  rewrite !elem_of_dom, HV. by rewrite fmap_is_Some.
Qed.

(** *** Counting adjacency entries *)

Lemma sum_list_map_perm {B} (f : B -> nat) (l l' : list B) :
  l ≡ₚ l' -> sum_list (map f l) = sum_list (map f l').
Proof. induction 1; simpl; lia. Qed.

(** The number of adjacency entries held by a vertex map. *)
Definition entries (m : gmap Z (@Vertex Any)) : nat :=
  sum_list (map (fun kv => length (VEdges (snd kv))) (map_to_list m)).

Lemma entries_insert_None (m : gmap Z (@Vertex Any)) k v :
  m !! k = None -> entries (<[k := v]> m) = length (VEdges v) + entries m.
Proof.
  intros Hk. unfold entries.
  by rewrite (sum_list_map_perm _ _ _ (map_to_list_insert m k v Hk)).
Qed.

Lemma entries_insert_Some (m : gmap Z (@Vertex Any)) k v0 v :
  m !! k = Some v0 ->
  entries (<[k := v]> m) + length (VEdges v0) = length (VEdges v) + entries m.
Proof.
  intros Hk.
  rewrite <- (insert_delete_eq m k v).
  rewrite entries_insert_None by apply lookup_delete_eq.
  unfold entries at 2.
  rewrite <- (sum_list_map_perm _ _ _ (map_to_list_delete m k v0 Hk)).
  simpl. fold (entries (delete k m)). lia.
Qed.

Lemma adjacency_total_AddVertex g vertex :
  adjacency_total (snd (AddVertex vertex g)) =
    adjacency_total g +
    (if has_vertex g (ID vertex) then 0 else length (VEdges vertex)).
Proof.
  destruct (Vertices g !! ID vertex) as [s|] eqn:Hk.
  - rewrite (AddVertex_present _ _ _ Hk), (has_vertex_Some _ _ _ Hk). simpl. lia.
  - rewrite (AddVertex_absent _ _ Hk), (has_vertex_None _ _ Hk). simpl.
    unfold adjacency_total. simpl. fold (entries (<[ID vertex:=vertex]> (Vertices g))).
    rewrite entries_insert_None by done. unfold entries. lia.
Qed.

Lemma adjacency_total_AddEdge g edge :
  ids_agree g ->
  adjacency_total (snd (AddEdge edge g)) =
    adjacency_total (endpoints_ensured edge g) + (if Directed g then 1 else 2).
Proof.
  intros Hids.
  pose proof (AddEdge_unfold g edge) as Hunf. cbv zeta in Hunf.
  set (g1 := endpoints_ensured edge g) in *.
  set (f := ID (From edge)) in *. set (t := ID (To edge)) in *.
  destruct (endpoints_ensured_spec g edge)
    as (_ & _ & [sf Hsf] & [st Hst] & _).
  fold g1 f in Hsf. fold g1 t in Hst.
  pose proof (ids_agree_endpoints g edge Hids) as Hids1. fold g1 in Hids1.
  assert (Hfrom : vertex_at g1 f = sf) by (unfold vertex_at; by rewrite Hsf).
  assert (Hto : vertex_at g1 t = st) by (unfold vertex_at; by rewrite Hst).
  rewrite Hfrom, Hto in Hunf.
  assert (Hidf : ID sf = f) by (by apply (Hids1 f)).
  assert (Hidt : ID st = t) by (by apply (Hids1 t)).
  rewrite Hidf, Hidt, Hfrom in Hunf. rewrite Hidf in Hunf.
  rewrite Hunf. unfold adjacency_total. simpl.
  set (ne := mkEdge sf st (Weight edge) (EData edge)) in *.
  set (vf := mkVertex f (Name sf) (VData sf) (VEdges sf ++ [ne])).
  fold (entries (Vertices g1)).
  pose proof (entries_insert_Some (Vertices g1) f sf vf Hsf) as H2.
  simpl in H2. rewrite length_app in H2. simpl in H2.
  destruct (Directed g).
  - fold (entries (<[f:=vf]> (Vertices g1))). lia.
  - destruct (<[f:=vf]> (Vertices g1) !! t) as [tv|] eqn:Htv.
    2:{ rewrite lookup_insert in Htv. case_decide; congruence. }
    simpl.
    match goal with |- sum_list (map _ (map_to_list (<[t := ?x]> _))) = _ =>
      pose proof (entries_insert_Some (<[f:=vf]> (Vertices g1)) t tv x Htv) as H3;
      fold (entries (<[t := x]> (<[f:=vf]> (Vertices g1))))
    end.
    simpl in H3. rewrite length_app in H3. simpl in H3. lia.
Qed.

Lemma adjacency_total_endpoints g edge :
  VEdges (From edge) = [] -> VEdges (To edge) = [] ->
  adjacency_total (endpoints_ensured edge g) = adjacency_total g.
Proof.
  intros Hf Ht. unfold endpoints_ensured.
  rewrite !adjacency_total_AddVertex, Hf, Ht. simpl.
  repeat case_match; lia.
Qed.

(** *** What [AddVertex] and [AddEdge] do *)

Lemma fmap_extend_nil (o : option (@Vertex Any)) :
  (fun v => extend v []) <$> o = o.
Proof. destruct o; simpl; [|done]. by rewrite extend_nil. Qed.



(** X4.  Every record is stored under its own identity, whatever records the
    caller hands in: [AddVertex] and [AddEdge] keep it so. *)
Theorem ids_agree_kept g vertex edge :
  ids_agree g ->
  ids_agree (snd (AddVertex vertex g)) /\ ids_agree (snd (AddEdge edge g)).
Proof.
  intros Hg. split; [by apply ids_agree_AddVertex | by apply ids_agree_AddEdge].
Qed.


(** X6.  Insertion and look-up. [AddVertex] returns the record that is
    stored under the identity afterwards, which is the one stored before if
    there was one and the caller's record otherwise; [GetVertex] then finds
    it; the global edge sequence is not touched (an adjacency the caller's
    record carries is stored with it, but not registered), and the vertex
    count grows by one exactly when the identity was new. Before the
    insertion, [GetVertex] on a missing identity yields the zero record and
    false. *)
Theorem AddVertex_then_GetVertex g vertex :
  let stored := default vertex (Vertices g !! ID vertex) in
  let g' := snd (AddVertex vertex g) in
  AddVertex vertex g = (Returned stored, g') /\
  GetVertex (ID vertex) g' = (Returned (stored, true), g') /\
  Edges g' = Edges g /\ Directed g' = Directed g /\
  vertexCount g' =
    (vertexCount g + (if has_vertex g (ID vertex) then 0 else 1))%Z /\
  (forall id, id ≠ ID vertex ->
     GetVertex id g' = (fst (GetVertex id g), g')) /\
  (has_vertex g (ID vertex) = false ->
     GetVertex (ID vertex) g = (Returned (zero_Vertex, false), g)).
Proof.
  cbv zeta. destruct (Vertices g !! ID vertex) as [s|] eqn:Hk; simpl.
  - rewrite (AddVertex_present _ _ _ Hk), (has_vertex_Some _ _ _ Hk). simpl.
    unfold GetVertex, bind, get, ret, vertex_at. simpl.
    rewrite (has_vertex_Some _ _ _ Hk), Hk. simpl.
    split_and!; try done. lia.
  - rewrite (AddVertex_absent _ _ Hk), (has_vertex_None _ _ Hk). simpl.
    unfold GetVertex, bind, get, ret, vertex_at, has_vertex, vertexCount. simpl.
    rewrite lookup_insert_eq, Hk. simpl.
    split_and!; try done.
    + rewrite map_size_insert_None by done. lia.
    + intros id Hid. by rewrite lookup_insert_ne.
Qed.

(** *** Graphs built by the insertion operations *)

Lemma Reverse_Reverse e : Reverse (Reverse e) = e.
Proof. by destruct e. Qed.

(** Every adjacency entry of the vertex [k] leaves [k], and it is an edge of
    the global edge sequence or, on an undirected graph, the reverse of
    one. *)
Definition entries_are_edges g : Prop :=
  forall k v a, Vertices g !! k = Some v -> a ∈ VEdges v ->
    ID (From a) = k /\
    (a ∈ Edges g \/ (Directed g = false /\ Reverse a ∈ Edges g)).

(** Every edge of the global edge sequence is an adjacency entry of its
    source and, on an undirected graph, its reverse is one of its target. *)
Definition edges_are_entries g : Prop :=
  forall e, e ∈ Edges g ->
    e ∈ VEdges (vertex_at g (ID (From e))) /\
    (Directed g = false -> Reverse e ∈ VEdges (vertex_at g (ID (To e)))).

(** The invariants of the graphs built by the insertion operations, with
    the exact agreement of adjacency lists and edge sequence. *)
Definition exact_inv g : Prop :=
  ids_agree g /\ edges_closed g /\ entries_are_edges g /\ edges_are_entries g.

Lemma exact_inv_new directed : exact_inv (NewGraph directed).
Proof.
  unfold exact_inv, NewGraph. split_and!.
  - intros k v. simpl. by rewrite lookup_empty.
  - intros e He. simpl in He. by apply elem_of_nil in He.
  - intros k v a. simpl. by rewrite lookup_empty.
  - intros e He. simpl in He. by apply elem_of_nil in He.
Qed.

Lemma exact_inv_AddVertex g v :
  exact_inv g -> VEdges v = [] -> exact_inv (snd (AddVertex v g)).
Proof.
  intros (Hids & Hclosed & Hent & Hedg) Hv.
  destruct (Vertices g !! ID v) as [s|] eqn:Hk.
  { rewrite (AddVertex_present _ _ _ Hk). by split_and!. }
  rewrite (AddVertex_absent _ _ Hk). simpl.
  assert (Hdom : forall z, z ∈ vertex_ids g ->
            z ∈ vertex_ids (mkGraph (<[ID v := v]> (Vertices g)) (Edges g) (Directed g))).
  { intros z. unfold vertex_ids. simpl. rewrite dom_insert_L. set_solver. }
  split_and!.
  - by apply ids_agree_insert.
  - intros e He. simpl in He. destruct (Hclosed e He). split; by apply Hdom.
  - intros k v' a. simpl. rewrite lookup_insert. case_decide as Hc.
    + intros [= <-]. rewrite Hv. intros Ha. by apply elem_of_nil in Ha.
    + apply Hent.
  - simpl. intros e He.
    destruct (Hclosed e He) as [Hf Ht].
    assert (Hsame : forall z, z ∈ vertex_ids g ->
              vertex_at (mkGraph (<[ID v := v]> (Vertices g)) (Edges g) (Directed g)) z
              = vertex_at g z).
    { intros z Hz. unfold vertex_at. simpl. rewrite lookup_insert_ne; [done|].
      intros <-. unfold vertex_ids in Hz. apply elem_of_dom in Hz as [? Hz].
      congruence. }
    rewrite !Hsame by done. by apply Hedg.
Qed.

Lemma exact_inv_AddEdge g edge :
  exact_inv g -> VEdges (From edge) = [] -> VEdges (To edge) = [] ->
  exact_inv (snd (AddEdge edge g)).
Proof.
  intros Hg Hf0 Ht0.
  assert (Hg1 : exact_inv (endpoints_ensured edge g)).
  { unfold endpoints_ensured. apply exact_inv_AddVertex; [|done].
    by apply exact_inv_AddVertex. }
  destruct (endpoints_ensured_spec g edge) as (HE1 & HD1 & _).
  destruct (AddEdge_shape g edge (proj1 Hg))
    as (sf & st & g' & Hsf & Hst & -> & HE & HD & HV).
  simpl. rewrite <- HE1, <- HD1 in *.
  set (g1 := endpoints_ensured edge g) in *.
  set (f := ID (From edge)) in *. set (t := ID (To edge)) in *.
  set (ne := mkEdge sf st (Weight edge) (EData edge)) in *.
  destruct Hg1 as (Hids & Hclosed & Hent & Hedg).
  assert (Hidf : ID sf = f) by (by apply (Hids f)).
  assert (Hidt : ID st = t) by (by apply (Hids t)).
  assert (Hdom : forall z, z ∈ vertex_ids g' <-> z ∈ vertex_ids g1).
  { intros z. unfold vertex_ids. rewrite !elem_of_dom, HV.
    by rewrite fmap_is_Some. }
  assert (Hne : ne ∈ Edges g').
  { rewrite HE. apply elem_of_app. right. by apply list_elem_of_singleton. }
  assert (Hat : forall z, z ∈ vertex_ids g1 ->
            vertex_at g' z = extend (vertex_at g1 z) (added (Directed g1) f t ne z)).
  { intros z Hz. unfold vertex_ids in Hz. apply elem_of_dom in Hz as [vz Hvz].
    unfold vertex_at. by rewrite HV, Hvz. }
  split_and!.
  - intros k v'. rewrite HV. destruct (Vertices g1 !! k) as [v|] eqn:Hk; [|done].
    simpl. intros [= <-]. simpl. by apply (Hids k).
  - intros e. rewrite HE. intros [He|He%list_elem_of_singleton]%elem_of_app.
    + destruct (Hclosed e He). split; by apply Hdom.
    + subst e. simpl. rewrite Hidf, Hidt. split; apply Hdom;
        unfold vertex_ids; apply elem_of_dom; by eexists.
  - intros k v' a. rewrite HV.
    destruct (Vertices g1 !! k) as [v|] eqn:Hk; [|done].
    simpl. intros [= <-]. simpl. unfold added. rewrite HD, HE.
    rewrite !elem_of_app. intros [Ha|[Ha|Ha]].
    + destruct (Hent k v a Hk Ha) as [? [Hin|[Hdir Hin]]]; (split; [done|]).
      * left. by left.
      * right. split; [done|]. by left.
    + case_decide as Hc; [|by apply elem_of_nil in Ha].
      apply list_elem_of_singleton in Ha. subst a k. simpl. split; [done|].
      left. right. by apply list_elem_of_singleton.
    + destruct (Directed g1) eqn:Hdir; [by apply elem_of_nil in Ha|].
      case_decide as Hc; [|by apply elem_of_nil in Ha].
      apply list_elem_of_singleton in Ha. subst a k. simpl. split; [done|].
      right. split; [done|]. right.
      rewrite Reverse_Reverse. by apply list_elem_of_singleton.
  - intros e. rewrite HE, HD.
    intros [He|He%list_elem_of_singleton]%elem_of_app.
    + destruct (Hclosed e He) as [Hfe Hte].
      destruct (Hedg e He) as [Ha1 Ha2].
      rewrite !Hat by done. simpl. split.
      * apply elem_of_app. by left.
      * intros Hdir. apply elem_of_app. left. by apply Ha2.
    + subst e. simpl. rewrite Hidf, Hidt.
      rewrite !Hat by (unfold vertex_ids; apply elem_of_dom; by eexists).
      unfold added. simpl. split.
      * rewrite decide_True by done. rewrite !elem_of_app. right. left.
        by apply list_elem_of_singleton.
      * intros Hdir. rewrite Hdir.
        rewrite (decide_True (P := t = t)) by done. rewrite !elem_of_app.
        right. right. by apply list_elem_of_singleton.
Qed.

Lemma Built_exact_inv g : Built g -> exact_inv g.
Proof.
  induction 1 as [d|g v _ IH Hv|g edge _ IH Hf Ht].
  - apply exact_inv_new.
  - by apply exact_inv_AddVertex.
  - by apply exact_inv_AddEdge.
Qed.


Lemma Directed_AddVertex g v :
  Directed (snd (AddVertex v g)) = Directed g.
Proof.
  destruct (AddVertex_lookup g v) as (s & -> & _). done.
Qed.

Lemma Built_adjacency_total g :
  Built g ->
  adjacency_total g = (if Directed g then 1 else 2) * length (Edges g).
Proof.
  induction 1 as [d|g v Hb IH Hv|g edge Hb IH Hf Ht].
  - unfold adjacency_total. simpl. rewrite map_to_list_empty. simpl.
    destruct d; lia.
  - rewrite adjacency_total_AddVertex, Hv, Directed_AddVertex.
    destruct (AddVertex_lookup g v) as (s & -> & _). simpl.
    destruct (has_vertex g (ID v)); lia.
  - pose proof (Built_binv g Hb) as (Hids & _).
    rewrite (adjacency_total_AddEdge g edge Hids).
    rewrite (adjacency_total_endpoints g edge Hf Ht).
    destruct (AddEdge_shape g edge Hids) as (sf & st & g' & _ & _ & -> & HE & HD & _).
    simpl. rewrite HE, HD, length_app. simpl. destruct (Directed g); lia.
Qed.

(** X8.  The handshake count: in a graph built by the insertion operations
    the adjacency lists hold two entries for each edge of an undirected
    graph (a self-loop has both on one vertex) and one for each edge of a
    directed graph. *)
Theorem Built_handshake g :
  Built g ->
  adjacency_total g = (if Directed g then 1 else 2) * length (Edges g).
Proof. apply Built_adjacency_total. Qed.

End Container.

(** ** The constructors *)

Section ConstructorProperties.
Context {Any : Type}.
Implicit Types (g : @Graph Any).

(** X9.  [NewVertex] refuses an empty (or nil) edge list, so a vertex it
    returns always carries adjacency entries. [AddVertex] stores such a
    vertex with its entries and registers none of them in the global edge
    sequence: on a graph built by the insertion operations from vertices
    without adjacency, the result is no longer such a graph, as its
    adjacency lists hold more entries than its edges account for. *)
Theorem NewVertex_carries_adjacency id name data edges g :
  match NewVertex id name data edges with
  | Err msg => edges = [] /\ msg = "Vertex has no any edge"
  | Ok v =>
      edges ≠ [] /\ v = mkVertex id name data edges /\
      (Built g -> has_vertex g id = false ->
       let g' := snd (AddVertex v g) in
       vertex_at g' id = v /\ Edges g' = Edges g /\
       adjacency_total g' = adjacency_total g + length edges /\
       ~ Built g')
  end.
Proof.
  unfold NewVertex. destruct edges as [|e edges]; simpl; [done|].
  split; [done|]. split; [done|]. intros Hb Hnew.
  set (v := mkVertex id name data (e :: edges)).
  assert (Hk : Vertices g !! ID v = None).
  { unfold has_vertex in Hnew. apply bool_decide_eq_false in Hnew.
    simpl. destruct (Vertices g !! id); [|done]. exfalso. apply Hnew. by eexists. }
  pose proof (adjacency_total_AddVertex g v) as Htot.
  simpl in Htot. rewrite Hnew in Htot.
  rewrite (AddVertex_absent g v Hk) in *. simpl in *.
  split_and!; try done.
  - unfold vertex_at. simpl. by rewrite lookup_insert_eq.
  - intros Hb'.
    pose proof (Built_adjacency_total _ Hb') as H1.
    pose proof (Built_adjacency_total _ Hb) as H2.
    simpl in H1. lia.
Qed.


End ConstructorProperties.

(** ** Comparing and reversing edges *)

Section EdgeOrder.
Context {Any : Type}.
Implicit Types (e other c : @Edge Any).

(** X11.  [Compare] is the sign of the difference of the weights: a
    three-way comparison that is antisymmetric and transitive, that agrees
    with the order used by [Kruskal] and by the priority queue, and that
    does not see the direction of an edge; [Reverse] undone by [Reverse]
    gives the edge back. *)
Theorem Compare_by_weight e other c :
  Compare e other = Z.sgn (Weight e - Weight other) /\
  Compare other e = (- Compare e other)%Z /\
  (Compare e other = 0%Z <-> Weight e = Weight other) /\
  (Compare e other = (-1)%Z <-> by_weight e other = true) /\
  ((Compare e other <= 0)%Z -> (Compare other c <= 0)%Z ->
   (Compare e c <= 0)%Z) /\
  Compare (Reverse e) (Reverse other) = Compare e other /\
  Compare e (Reverse e) = 0%Z /\
  Reverse (Reverse e) = e.
Proof.
  unfold Compare, by_weight. simpl.
  split_and!.
  - destruct (Weight e <? Weight other)%Z eqn:H1;
      destruct (Weight e >? Weight other)%Z eqn:H2; lia.
  - destruct (Weight e <? Weight other)%Z eqn:H1;
      destruct (Weight e >? Weight other)%Z eqn:H2;
      destruct (Weight other <? Weight e)%Z eqn:H3;
      destruct (Weight other >? Weight e)%Z eqn:H4; lia.
  - destruct (Weight e <? Weight other)%Z eqn:H1;
      destruct (Weight e >? Weight other)%Z eqn:H2; lia.
  - destruct (Weight e <? Weight other)%Z eqn:H1;
      destruct (Weight e >? Weight other)%Z eqn:H2; split; (lia || done).
  - destruct (Weight e <? Weight other)%Z eqn:H1;
      destruct (Weight e >? Weight other)%Z eqn:H2;
      destruct (Weight other <? Weight c)%Z eqn:H3;
      destruct (Weight other >? Weight c)%Z eqn:H4;
      destruct (Weight e <? Weight c)%Z eqn:H5;
      destruct (Weight e >? Weight c)%Z eqn:H6; lia.
  - done.
  - destruct (Weight e <? Weight e)%Z eqn:H1;
      destruct (Weight e >? Weight e)%Z eqn:H2; lia.
  - by destruct e.
Qed.

End EdgeOrder.

(** ** The weight of an edge list *)

Section Weights.
Context {Any : Type}.
Implicit Types (mst : list (@Edge Any)).

Lemma wrap_int_range z : (- 2 ^ 63 <= wrap_int z < 2 ^ 63)%Z.
Proof.
  unfold wrap_int.
  pose proof (Z.mod_pos_bound (z + 2 ^ 63) (2 ^ 64) ltac:(lia)). lia.
Qed.

Lemma wrap_int_small z : (- 2 ^ 63 <= z < 2 ^ 63)%Z -> wrap_int z = z.
Proof.
  intros Hz. unfold wrap_int. rewrite Z.mod_small by lia. lia.
Qed.

Lemma wrap_int_add_r a b : wrap_int (a + wrap_int b) = wrap_int (a + b).
Proof.
  rewrite (Z.add_comm a (wrap_int b)), wrap_int_add_l. f_equal. lia.
Qed.

Lemma GetMSTWeight_from mst : forall acc,
  foldl (fun weight edge => wrap_int (weight + Weight edge)) (wrap_int acc) mst
  = wrap_int (acc + weight_sum (tri_of <$> mst)).
Proof.
  induction mst as [|e mst IH]; intros acc; simpl.
  - unfold weight_sum. simpl. f_equal. lia.
  - rewrite wrap_int_add_l, IH. f_equal. unfold weight_sum, wt, tri_of, fmap. simpl. lia.
Qed.

Lemma GetMSTWeight_sum mst :
  GetMSTWeight mst = wrap_int (weight_sum (tri_of <$> mst)).
Proof.
  unfold GetMSTWeight.
  change 0%Z with (wrap_int 0) at 1. by rewrite GetMSTWeight_from.
Qed.

Lemma weight_sum_app (T1 T2 : list tri) :
  weight_sum (T1 ++ T2) = (weight_sum T1 + weight_sum T2)%Z.
Proof. induction T1; unfold weight_sum in *; simpl in *; lia. Qed.

(** X12.  [GetMSTWeight] is the sum of the weights reduced to 64 bits: it is
    the exact sum whenever the exact sum fits, even if a partial sum does
    not; it does not depend on the order of the edges; and the weight of a
    concatenation is the 64-bit sum of the two weights. *)
Theorem GetMSTWeight_wraps mst mst' :
  GetMSTWeight mst = wrap_int (weight_sum (tri_of <$> mst)) /\
  ((- 2 ^ 63 <= weight_sum (tri_of <$> mst) < 2 ^ 63)%Z ->
   GetMSTWeight mst = weight_sum (tri_of <$> mst)) /\
  (mst ≡ₚ mst' -> GetMSTWeight mst = GetMSTWeight mst') /\
  GetMSTWeight (mst ++ mst') =
    wrap_int (GetMSTWeight mst + GetMSTWeight mst') /\
  (- 2 ^ 63 <= GetMSTWeight mst < 2 ^ 63)%Z.
Proof.
  rewrite !GetMSTWeight_sum. split_and!.
  - done.
  - apply wrap_int_small.
  - intros Hp. f_equal. apply weight_sum_perm. by rewrite Hp.
  - rewrite fmap_app, weight_sum_app, wrap_int_add_l, wrap_int_add_r. done.
  - apply wrap_int_range.
  - apply wrap_int_range.
Qed.

End Weights.

(** ** Union-find: the path of an element *)

Section UnionFindPaths.
Implicit Types (uf : UnionFind) (x y z r : Z).

(** [on_path uf x z]: [z] is met when the parent links are followed from
    [x]. *)
Inductive on_path uf : Z -> Z -> Prop :=
| on_path_here x : on_path uf x x
| on_path_next x z :
    parent_at uf x ≠ x -> on_path uf (parent_at uf x) z -> on_path uf x z.

Lemma on_path_root uf x z : parent_at uf x = x -> on_path uf x z -> z = x.
Proof. intros Hx. inversion 1; subst; [done|congruence]. Qed.

Lemma reprn_on_path uf n x r : reprn uf n x r -> on_path uf x r.
Proof.
  induction 1 as [x Hx|n x r Hx _ IH]; [constructor|].
  by apply on_path_next.
Qed.

Lemma set_parent_same uf x p :
  parent uf !! x = Some p -> set_parent x p uf = uf.
Proof.
  intros Hx. unfold set_parent. rewrite insert_id by done. by destruct uf.
Qed.

(** [Find] points every element of the path at the root and touches nothing
    else. *)
Lemma Find_path fuel : forall n x r uf,
  reprn uf n x r -> n < fuel ->
  exists uf',
    Find fuel x uf = Some (r, uf') /\
    rank uf' = rank uf /\
    (forall z, on_path uf x z -> parent_at uf' z = r) /\
    (forall z, on_path uf x z -> z ≠ r -> parent uf' !! z = Some r) /\
    (forall z, ~ on_path uf x z -> parent uf' !! z = parent uf !! z).
Proof.
  induction fuel as [|fuel IH]; intros n x r uf Hx Hn; [lia|].
  simpl. inversion Hx as [? Hroot|n' ? ? Hnr Hrec]; subst.
  - rewrite bool_decide_eq_false_2 by (intros ?; congruence).
    exists uf. rewrite Hroot. split_and!; try done.
    + intros z Hz. by rewrite (on_path_root _ _ _ Hroot Hz).
    + intros z Hz Hne. by rewrite (on_path_root _ _ _ Hroot Hz) in Hne.
  - rewrite bool_decide_eq_true_2 by done.
    destruct (IH n' (parent_at uf x) r uf Hrec ltac:(lia))
      as (uf1 & -> & Hrank & Hpath & Hstored & Hframe).
    eexists. split_and!.
    + rewrite parent_at_set_parent. by rewrite decide_True.
    + done.
    + intros z Hz. rewrite parent_at_set_parent. case_decide as Hc; [done|].
      inversion Hz; subst; [done|]. by apply Hpath.
    + intros z Hz Hne. simpl. rewrite lookup_insert. case_decide as Hc; [done|].
      inversion Hz; subst; [done|]. by apply Hstored.
    + intros z Hz. simpl. rewrite lookup_insert. case_decide as Hc.
      * subst z. exfalso. apply Hz. constructor.
      * apply Hframe. intros Hp. apply Hz. by apply on_path_next.
Qed.

(** X13.  [Find] compresses the whole path: afterwards the element and
    everything met on its way point at the root itself, no other parent link
    and no rank has moved, every element has the root it had, and a second
    [Find] of the same element changes nothing at all. *)
Theorem Find_compresses_path uf x r :
  repr uf x r ->
  exists fuel0, forall fuel, fuel0 <= fuel ->
    exists uf',
      Find fuel x uf = Some (r, uf') /\
      (forall z, on_path uf x z -> parent_at uf' z = r) /\
      (forall z, ~ on_path uf x z -> parent uf' !! z = parent uf !! z) /\
      rank uf' = rank uf /\
      (forall z rz, repr uf z rz -> repr uf' z rz) /\
      Find fuel x uf' = Some (r, uf').
Proof.
  intros [n Hx]. exists (n + 2). intros fuel Hfuel.
  destruct (Find_path fuel n x r uf Hx ltac:(lia))
    as (uf' & Hrun & Hrank & Hpath & Hstored & Hframe).
  destruct (Find_spec fuel n x r uf Hx ltac:(lia))
    as (uf2 & Hrun2 & _ & _ & Hpres).
  rewrite Hrun in Hrun2. injection Hrun2 as <-.
  exists uf'. split_and!; try done.
  - intros z rz [k Hz]. destruct (Hpres _ _ _ Hz) as (k' & _ & Hz'). by exists k'.
  - pose proof (Hpath r (reprn_on_path _ _ _ _ Hx)) as Hr.
    destruct fuel as [|[|fuel]]; [lia|lia|].
    destruct (decide (x = r)) as [->|Hne].
    + simpl. rewrite bool_decide_eq_false_2 by (intros ?; congruence).
      by rewrite Hr.
    + pose proof (Hpath x (on_path_here _ _)) as Hxr.
      pose proof (Hstored x (on_path_here _ _) Hne) as Hxs.
      cbn [Find]. rewrite Hxr.
      rewrite (bool_decide_eq_true_2 (r ≠ x)) by congruence.
      rewrite (bool_decide_eq_false_2 (parent_at uf' r ≠ r))
        by (intros ?; congruence).
      rewrite Hr, (set_parent_same _ _ _ Hxs). by rewrite Hxr.
Qed.

(** X14.  An element that was never given to [MakeSet] reads as a child of
    the element [0], since a missing key of the parent map reads as [0]:
    [Find] returns the root of [0] and registers the element under that
    root, without a rank; the element [0] itself, when it is missing, is its
    own root and [Find] registers nothing. *)
Theorem Find_unregistered uf x r :
  parent uf !! x = None -> repr uf 0%Z r ->
  exists fuel0, forall fuel, fuel0 <= fuel ->
    exists uf',
      Find fuel x uf = Some (r, uf') /\
      rank uf' = rank uf /\
      (x ≠ 0%Z -> parent uf' !! x = Some r) /\
      (x = 0%Z -> r = 0%Z /\ uf' = uf).
Proof.
  intros Hx [n H0].
  assert (Hpx : parent_at uf x = 0%Z) by (unfold parent_at; by rewrite Hx).
  destruct (decide (x = 0%Z)) as [->|Hne].
  - assert (Hroot : reprn uf 0 0%Z 0%Z) by (by constructor).
    destruct (reprn_fun _ _ _ _ H0 _ _ Hroot) as [-> ->].
    exists 1. intros fuel Hfuel. destruct fuel as [|fuel]; [lia|].
    exists uf. simpl. rewrite bool_decide_eq_false_2 by (intros ?; congruence).
    rewrite Hpx. by split_and!.
  - assert (Hxr : reprn uf (S n) x r).
    { constructor; [congruence|]. by rewrite Hpx. }
    assert (Hxne : x ≠ r).
    { intros ->. pose proof (reprn_is_root _ _ _ _ H0). congruence. }
    exists (n + 2). intros fuel Hfuel.
    destruct (Find_path fuel (S n) x r uf Hxr ltac:(lia))
      as (uf' & Hrun & Hrank & _ & Hstored & _).
    exists uf'. split_and!; try done.
    intros _. apply Hstored; [constructor|done].
Qed.

(** X15.  [Union] of two elements that were never given to [MakeSet] does
    not link them to each other: both read as children of [0], so [Union]
    finds one root for the two and returns false, as for two elements of one
    set. *)
Theorem Union_unregistered uf x y r :
  parent uf !! x = None -> parent uf !! y = None -> repr uf 0%Z r ->
  exists fuel0, forall fuel, fuel0 <= fuel ->
    exists uf',
      Union fuel x y uf = Some (false, uf') /\
      fst <$> Find fuel x uf' = Some r /\ fst <$> Find fuel y uf' = Some r.
Proof.
  intros Hx Hy [n H0].
  assert (Hrep : forall z, parent uf !! z = None -> exists k, k <= S n /\ reprn uf k z r).
  { intros z Hz.
    assert (Hpz : parent_at uf z = 0%Z) by (unfold parent_at; by rewrite Hz).
    destruct (decide (z = 0%Z)) as [->|Hne].
    - exists n. split; [lia|done].
    - exists (S n). split; [lia|]. constructor; [congruence|]. by rewrite Hpz. }
  destruct (Hrep x Hx) as (kx & Hkx & Hxr).
  destruct (Hrep y Hy) as (ky & Hky & Hyr).
  exists (n + 2). intros fuel Hfuel.
  destruct (Union_spec fuel uf x y kx ky r r Hxr Hyr ltac:(lia) ltac:(lia))
    as (uf' & HU & Hsame & _).
  rewrite bool_decide_eq_true_2 in HU by done. simpl in HU.
  destruct (Hsame eq_refl) as (_ & _ & Hpres).
  destruct (Hpres _ _ _ Hxr) as (kx' & Hkx' & Hxr').
  destruct (Hpres _ _ _ Hyr) as (ky' & Hky' & Hyr').
  exists uf'. split_and!; [done| |].
  - apply (Find_returns _ _ _ kx'); [done|lia].
  - apply (Find_returns _ _ _ ky'); [done|lia].
Qed.

(** X16.  [MakeSet] registers an element once: on an element that has a
    parent entry it changes nothing, even when the element is no longer a
    root; on a new element it makes it its own parent with rank zero and
    moves no other entry; so it is idempotent, and two calls commute. *)
Theorem MakeSet_registers_once uf x y :
  MakeSet x (MakeSet x uf) = MakeSet x uf /\
  MakeSet x (MakeSet y uf) = MakeSet y (MakeSet x uf) /\
  parent (MakeSet x uf) !! x = Some (default x (parent uf !! x)) /\
  (is_Some (parent uf !! x) -> MakeSet x uf = uf) /\
  (parent uf !! x = None -> rank (MakeSet x uf) !! x = Some 0%Z) /\
  (forall z, z ≠ x ->
     parent (MakeSet x uf) !! z = parent uf !! z /\
     rank (MakeSet x uf) !! z = rank uf !! z).
Proof.
  split_and!.
  - destruct (parent uf !! x) as [p|] eqn:Hx.
    + assert (Hsame : MakeSet x uf = uf) by (apply MakeSet_present; by eexists).
      by rewrite !Hsame.
    + rewrite (MakeSet_absent x uf Hx). apply MakeSet_present. simpl.
      rewrite lookup_insert_eq. by eexists.
  - apply MakeSet_comm.
  - destruct (parent uf !! x) as [p|] eqn:Hx.
    + rewrite MakeSet_present by (by eexists). by rewrite Hx.
    + rewrite (MakeSet_absent x uf Hx). simpl. by rewrite lookup_insert_eq.
  - apply MakeSet_present.
  - intros Hx. rewrite (MakeSet_absent x uf Hx). simpl. by rewrite lookup_insert_eq.
  - intros z Hz. destruct (parent uf !! x) as [p|] eqn:Hx.
    + by rewrite MakeSet_present by (by eexists).
    + rewrite (MakeSet_absent x uf Hx). simpl. by rewrite !lookup_insert_ne.
Qed.

End UnionFindPaths.

(** ** The priority queue *)

Section Queue.
Context {Any : Type}.
Implicit Types (h pq : list (@Edge Any)) (x e item : @Edge Any).

(** X17.  [Pop] undoes [Push]: it returns the element pushed last and the
    queue as it was before; whatever [Pop] returns, pushing it back restores
    the queue; on the empty queue [Pop] panics, since it reads the cell
    before the first, and so does [heap.Pop], which first swaps cell 0. *)
Theorem Pop_undoes_Push pq x :
  Pop (Push pq x) = Returned (x, pq) /\
  Len (Push pq x) = S (Len pq) /\
  (forall item pq', Pop pq = Returned (item, pq') -> Push pq' item = pq) /\
  (Len pq = 0 -> Pop pq = index_out_of_range /\ heap_Pop pq = index_out_of_range).
Proof.
  unfold Pop, Push, Len. split_and!.
  - rewrite length_app. simpl. rewrite Nat.add_1_r.
    unfold index. rewrite lookup_app_r by lia. rewrite Nat.sub_diag. simpl.
    rewrite take_app_length. done.
  - rewrite length_app. simpl. lia.
  - intros item pq'. destruct (length pq) as [|n] eqn:Hlen; [done|].
    unfold index. destruct (pq !! n) as [a|] eqn:Hn; [|done]. simpl.
    intros [= <- <-]. rewrite <- (take_S_r _ _ _ Hn). apply take_ge. lia.
  - intros Hlen. split; [by rewrite Hlen|].
    destruct pq; [done|discriminate].
Qed.

Lemma Swap_out_of_range pq i j :
  length pq <= i \/ length pq <= j ->
  Swap pq i j = index_out_of_range /\ Less pq i j = index_out_of_range.
Proof.
  intros Hout. unfold Swap, Less, index.
  destruct (pq !! i) as [a|] eqn:Hi; simpl; [|done].
  destruct (pq !! j) as [b|] eqn:Hj; simpl; [|done].
  apply lookup_lt_Some in Hi, Hj. lia.
Qed.

(** X18.  [Less] and [Swap] on indices of the queue: [Less] compares the two
    weights strictly, and [Swap] exchanges the two cells and nothing else,
    so that it keeps the length and the elements, and a second [Swap]
    restores the queue. When an index is outside the queue both panic. *)
Theorem Swap_exchanges_two_cells pq i j :
  (i < Len pq -> j < Len pq ->
   exists pq',
     Swap pq i j = Returned pq' /\
     pq' !! i = pq !! j /\ pq' !! j = pq !! i /\
     (forall k, k ≠ i -> k ≠ j -> pq' !! k = pq !! k) /\
     Len pq' = Len pq /\ pq' ≡ₚ pq /\
     Swap pq' i j = Returned pq /\
     exists a b, pq !! i = Some a /\ pq !! j = Some b /\
                 Less pq i j = Returned (Weight a <? Weight b)%Z) /\
  (Len pq <= i \/ Len pq <= j ->
   Swap pq i j = index_out_of_range /\ Less pq i j = index_out_of_range).
Proof.
  unfold Len. split; [|apply Swap_out_of_range].
  intros Hi Hj.
  destruct (Swap_in_range pq i j Hi Hj)
    as (pq' & Hrun & Hlen & Hperm & _ & Hother & Hi' & Hj').
  exists pq'. split_and!; try done.
  - destruct (Swap_in_range pq' i j ltac:(lia) ltac:(lia))
      as (pq2 & -> & Hlen2 & _ & _ & Hother2 & Hi2 & Hj2).
    f_equal. apply list_eq. intros k.
    destruct (decide (k = i)) as [->|Hki]; [by rewrite Hi2, Hj'|].
    destruct (decide (k = j)) as [->|Hkj]; [by rewrite Hj2, Hi'|].
    by rewrite Hother2, Hother.
  - destruct (lookup_lt_is_Some_2 pq i Hi) as [a Ha].
    destruct (lookup_lt_is_Some_2 pq j Hj) as [b Hb].
    exists a, b. split_and!; [done|done|].
    unfold Less, index. by rewrite Ha, Hb.
Qed.

(** X19.  With the methods of [PriorityQueue], [heap.Push] and [heap.Pop]
    keep the queue a heap, in which no cell is lighter than its parent and
    so the first cell is a lightest one. [heap.Push] returns a heap of the
    new edge and the old ones, and a [heap.Pop] after it returns a lightest
    of them all. [heap.Pop] on a heap that is not empty returns an edge of
    least weight and a heap of the other edges; the next [heap.Pop], if
    there is an edge left, returns an edge that is not lighter. *)
Theorem heap_lightest_first h x :
  heap_ok h ->
  (exists h',
     heap_Push h x = Returned h' /\ h' ≡ₚ x :: h /\ heap_ok h' /\
     Len h' = S (Len h) /\
     (forall k, k < Len h' -> (W h' 0 <= W h' k)%Z) /\
     exists e h'',
       heap_Pop h' = Returned (e, h'') /\ x :: h ≡ₚ e :: h'' /\
       (forall y, y ∈ x :: h -> (Weight e <= Weight y)%Z)) /\
  (0 < Len h ->
   exists e h',
     heap_Pop h = Returned (e, h') /\ h ≡ₚ e :: h' /\ heap_ok h' /\
     S (Len h') = Len h /\
     (forall y, y ∈ h -> (Weight e <= Weight y)%Z) /\
     (0 < Len h' ->
      exists e2 h2, heap_Pop h' = Returned (e2, h2) /\
                    (Weight e <= Weight e2)%Z)).
Proof.
  intros Hok. split.
  - destruct (heap_Push_spec h x Hok) as (h' & Hrun & Hperm & Hok').
    assert (Hlen : Len h' = S (Len h)).
    { unfold Len. by rewrite (Permutation_length Hperm). }
    exists h'. split_and!; try done.
    + by apply heap_root_min.
    + assert (Hpos : 0 < Len h') by lia.
      destruct (heap_Pop_spec h' Hok' Hpos)
        as (e & h'' & Hrun' & Hperm' & _ & Hmin).
      exists e, h''. split_and!; [done|by rewrite <- Hperm|].
      intros y Hy. apply Hmin. by rewrite Hperm.
  - intros Hlen.
    destruct (heap_Pop_spec h Hok Hlen) as (e & h' & Hrun & Hperm & Hok' & Hmin).
    exists e, h'. split_and!; try done.
    + unfold Len. by rewrite (Permutation_length Hperm).
    + intros Hlen'.
      destruct (heap_Pop_spec h' Hok' Hlen') as (e2 & h2 & Hrun2 & Hperm2 & _ & _).
      exists e2, h2. split; [done|]. apply Hmin.
      rewrite Hperm, Hperm2. right. by left.
Qed.

End Queue.

(** ** Depth-first search: what is visited *)

Section Reachability.
Context {Any : Type}.
Variable g : @Graph Any.
Implicit Types (visited cur : gmap Z bool) (e : @Edge Any).

Local Abbreviation D := (vertex_ids g).

(** [reach x y]: [y] is met from [x] by following adjacency entries, each
    read from the record stored under the identity reached so far. *)
Inductive reach : Z -> Z -> Prop :=
| reach_refl x : reach x x
| reach_step x y e :
    e ∈ VEdges (vertex_at g x) -> reach (ID (To e)) y -> reach x y.

Lemma reach_trans x y z : reach x y -> reach y z -> reach x z.
Proof. induction 1; [done|]. intros. eapply reach_step; eauto. Qed.

(** Every adjacency entry of [k] leads into the visited set. *)
Definition closed_at visited (k : Z) : Prop :=
  forall e, e ∈ VEdges (vertex_at g k) -> ID (To e) ∈ dom visited.

Lemma closed_at_mono visited visited' k :
  dom visited ⊆ dom visited' -> closed_at visited k -> closed_at visited' k.
Proof. intros Hsub Hc e He. apply Hsub. by apply Hc. Qed.

Lemma size_unmarked_mono visited visited' :
  dom visited ⊆ dom visited' ->
  size (D ∖ dom visited') <= size (D ∖ dom visited).
Proof. intros Hsub. apply subseteq_size. set_solver. Qed.

(** [dfs] returns; it marks the start, only vertices that the start
    reaches, and every vertex it newly marks has all its adjacency entries
    leading to marked vertices. *)
Lemma dfs_reach fuel : forall node visited,
  all_true visited -> visited !! node = None ->
  size (D ∖ dom visited) < fuel ->
  exists visited',
    dfs fuel g node visited = Returned visited' /\
    all_true visited' /\ dom visited ⊆ dom visited' /\
    node ∈ dom visited' /\
    (forall z, z ∈ dom visited' -> z ∈ dom visited \/ reach node z) /\
    (forall k, k ∈ dom visited' -> k ∉ dom visited -> closed_at visited' k).
Proof.
  induction fuel as [|fuel IH]; intros node visited Htrue Hnode Hfuel; [lia|].
  rewrite dfs_S.
  set (visited1 := <[node := true]> visited).
  assert (Htrue1 : all_true visited1).
  { intros z b. unfold visited1. rewrite lookup_insert.
    case_decide; [congruence|apply Htrue]. }
  assert (Hdom1 : dom visited1 = {[node]} ∪ dom visited).
  { unfold visited1. by rewrite dom_insert_L. }
  assert (Hfuel1 : VEdges (vertex_at g node) ≠ [] -> size (D ∖ dom visited1) < fuel).
  { intros Hne.
    assert (HnD : node ∈ D).
    { unfold vertex_ids. apply elem_of_dom. unfold vertex_at in Hne.
      destruct (Vertices g !! node); [by eexists|done]. }
    assert (Hlt : D ∖ dom visited1 ⊂ D ∖ dom visited).
    { rewrite Hdom1. apply not_elem_of_dom in Hnode. set_solver. }
    apply subset_size in Hlt. lia. }
  assert (Hloop : forall es cur,
    (forall e, e ∈ es -> e ∈ VEdges (vertex_at g node)) ->
    all_true cur ->
    (forall z, z ∈ dom cur -> z ∈ dom visited \/ reach node z) ->
    (es ≠ [] -> size (D ∖ dom cur) < fuel) ->
    exists cur',
      foldl (fun acc edge =>
               visited <~ acc ;;
               if negb (visited_at visited (ID (To edge)))
               then dfs fuel g (ID (To edge)) visited
               else Returned visited)
            (Returned cur) es = Returned cur' /\
      all_true cur' /\ dom cur ⊆ dom cur' /\
      (forall z, z ∈ dom cur' -> z ∈ dom visited \/ reach node z) /\
      (forall k, k ∈ dom cur' -> k ∉ dom cur -> closed_at cur' k) /\
      (forall e, e ∈ es -> ID (To e) ∈ dom cur')).
  { induction es as [|e es IHe]; intros cur Hes Htc Hsound Hf; simpl.
    - exists cur. split_and!; try done.
      intros e He. by apply elem_of_nil in He.
    - assert (He : e ∈ VEdges (vertex_at g node)) by (apply Hes; by left).
      assert (Hes' : forall e0, e0 ∈ es -> e0 ∈ VEdges (vertex_at g node)).
      { intros e0 He0. apply Hes. by right. }
      assert (Hlt : size (D ∖ dom cur) < fuel) by (apply Hf; intros ?; discriminate).
      destruct (visited_at cur (ID (To e))) eqn:Hvis; simpl.
      + destruct (IHe cur Hes' Htc Hsound (fun _ => Hlt))
          as (cur' & Hrun & Ht' & Hsub' & Hsound' & Hclosed' & Hdone').
        exists cur'. split_and!; try done.
        intros e0 [->|He0]%elem_of_cons; [|by apply Hdone'].
        apply Hsub'. by apply (visited_dom cur _ Htc).
      + assert (Hnone : cur !! ID (To e) = None).
        { unfold visited_at in Hvis. destruct (cur !! ID (To e)) as [b|] eqn:Hl;
            [|done]. simpl in Hvis. subst b. by apply Htc in Hl. }
        destruct (IH (ID (To e)) cur Htc Hnone Hlt)
          as (cur1 & -> & Ht1 & Hs1 & Hin1 & Hsound1 & Hclosed1).
        assert (Hsound1' : forall z, z ∈ dom cur1 -> z ∈ dom visited \/ reach node z).
        { intros z Hz. destruct (Hsound1 z Hz) as [Hc|Hr]; [by apply Hsound|].
          right. by apply (reach_step node z e). }
        assert (Hf1 : es ≠ [] -> size (D ∖ dom cur1) < fuel).
        { intros _. pose proof (size_unmarked_mono _ _ Hs1). lia. }
        destruct (IHe cur1 Hes' Ht1 Hsound1' Hf1)
          as (cur' & Hrun & Ht' & Hsub' & Hsound' & Hclosed' & Hdone').
        exists cur'. split_and!; try done.
        * set_solver.
        * intros k Hk Hkc. destruct (decide (k ∈ dom cur1)) as [Hk1|Hk1].
          -- apply (closed_at_mono cur1); [done|]. by apply Hclosed1.
          -- by apply Hclosed'.
        * intros e0 [->|He0]%elem_of_cons; [|by apply Hdone'].
          by apply Hsub'. }
  destruct (Hloop (VEdges (vertex_at g node)) visited1) as
    (visited' & Hrun & Ht' & Hsub' & Hsound' & Hclosed' & Hdone'); try done.
  - intros z. rewrite Hdom1. intros [->%elem_of_singleton|Hz]%elem_of_union.
    + right. constructor.
    + by left.
  - exists visited'. split_and!; try done.
    + rewrite Hdom1 in Hsub'. set_solver.
    + apply Hsub'. rewrite Hdom1. set_solver.
    + intros k Hk Hkv. destruct (decide (k = node)) as [->|Hne].
      * intros e He. by apply Hdone'.
      * apply Hclosed'; [done|]. rewrite Hdom1. set_solver.
Qed.

(** X20.  From the empty marking, the depth-first search of [IsConnected]
    returns after at most one call for each vertex of the graph, and the
    identities it has marked are exactly those met from the start by
    following adjacency entries. *)
Theorem dfs_marks_what_is_reached (start : Z) :
  exists visited,
    dfs (S (size (Vertices g))) g start ∅ = Returned visited /\
    (forall z b, visited !! z = Some b -> b = true) /\
    (forall z, z ∈ dom visited <-> reach start z).
Proof.
  destruct (dfs_reach (S (size (Vertices g))) start ∅)
    as (visited & Hrun & Htrue & _ & Hin & Hsound & Hclosed).
  - intros z b. by rewrite lookup_empty.
  - apply lookup_empty.
  - rewrite dom_empty_L, difference_empty_L. unfold vertex_ids.
    rewrite size_dom. lia.
  - exists visited. split_and!; [done|done|].
    intros z. split.
    + intros Hz. destruct (Hsound z Hz) as [Hc|Hr]; [|done].
      rewrite dom_empty_L in Hc. set_solver.
    + assert (Hall : forall x y, reach x y -> x ∈ dom visited -> y ∈ dom visited).
      { induction 1 as [x|x y e He _ IH]; [done|].
        intros Hx. apply IH.
        apply (Hclosed x Hx); [|done]. rewrite dom_empty_L. set_solver. }
      intros Hr. by apply (Hall start).
Qed.

End Reachability.

(** ** What [IsConnected] answers *)

Section Connectivity.
Context {Any : Type}.
Implicit Types (g : @Graph Any) (e a : @Edge Any).

Local Abbreviation Eg g := (tri_of <$> Edges g).

Lemma entry_target_in_graph g x e :
  exact_inv g -> e ∈ VEdges (vertex_at g x) ->
  x ∈ vertex_ids g /\ ID (From e) = x /\ ID (To e) ∈ vertex_ids g /\
  (e ∈ Edges g \/ (Directed g = false /\ Reverse e ∈ Edges g)).
Proof.
  intros (Hids & Hclosed & Hent & Hedg) He. unfold vertex_at in He.
  destruct (Vertices g !! x) as [v|] eqn:Hx; [|by apply elem_of_nil in He].
  simpl in He. destruct (Hent x v e Hx He) as [Hfrom Hin].
  split_and!; [|done| |done].
  - unfold vertex_ids. apply elem_of_dom. by eexists.
  - destruct Hin as [Hin|[_ Hin]].
    + by destruct (Hclosed e Hin).
    + by destruct (Hclosed _ Hin).
Qed.

Lemma reach_in_graph g x y :
  exact_inv g -> reach g x y -> x ∈ vertex_ids g -> y ∈ vertex_ids g.
Proof.
  intros Hx. induction 1 as [x|x y e He _ IH]; [done|].
  intros _. apply IH. by destruct (entry_target_in_graph g x e Hx He) as (_ & _ & ? & _).
Qed.

Lemma reach_conn g x y : exact_inv g -> reach g x y -> conn (Eg g) x y.
Proof.
  intros Hx. induction 1 as [x|x y e He _ IH]; [apply conn_refl|].
  destruct (entry_target_in_graph g x e Hx He) as (_ & Hfrom & _ & Hin).
  eapply conn_trans; [|exact IH].
  destruct Hin as [Hin|[_ Hin]].
  - apply (conn_edge _ (tri_of e)).
    + apply list_elem_of_fmap. by exists e.
    + left. by split.
  - apply (conn_edge _ (tri_of (Reverse e))).
    + apply list_elem_of_fmap. by exists (Reverse e).
    + right. by split.
Qed.

Lemma conn_reach g x y :
  exact_inv g -> Directed g = false -> conn (Eg g) x y -> reach g x y.
Proof.
  intros (Hids & Hclosed & Hent & Hedg) Hdir.
  induction 1 as [x|x y z t Ht Hends _ IH]; [constructor|].
  apply list_elem_of_fmap in Ht as (e0 & -> & He0).
  destruct (Hedg e0 He0) as [H1 H2].
  destruct Hends as [[<- <-]|[<- <-]]; unfold src, dst, tri_of in *; simpl in *.
  - by apply (reach_step g _ _ e0).
  - apply (reach_step g _ _ (Reverse e0)); [by apply H2|done].
Qed.

(** [IsConnected] on a graph built by the insertion operations. *)
Lemma IsConnected_spec g order :
  Built g -> range_order g order ->
  exists b,
    IsConnected order g = (Returned b, g) /\
    (b = true <-> forall z, z ∈ vertex_ids g -> reach g (hd 0%Z order) z).
Proof.
  intros Hb Horder. pose proof (Built_exact_inv g Hb) as Hx.
  unfold IsConnected, bind, get, ret, lift. cbv beta iota.
  rewrite vertexCount_size.
  destruct (Z.of_nat (size (vertex_ids g)) =? 0)%Z eqn:Hz.
  { exists true. split; [done|]. split; [|done]. intros _ z Hz'.
    apply Z.eqb_eq in Hz.
    assert (Hs : size (vertex_ids g) = 0) by lia.
    apply size_empty_inv in Hs. set_solver. }
  apply Z.eqb_neq in Hz.
  set (start := hd 0%Z order).
  assert (Hstart : start ∈ vertex_ids g).
  { destruct (size (vertex_ids g)) eqn:Hs; [lia|].
    assert (Hex : exists x, x ∈ vertex_ids g).
    { apply size_pos_elem_of. lia. }
    destruct Hex as [x Hxin].
    apply (range_order_elem g order); [done|]. subst start.
    apply (range_order_elem g order x Horder) in Hxin.
    destruct order; [by apply elem_of_nil in Hxin | by left]. }
  destruct (dfs_reach g (S (size (Vertices g))) start ∅)
    as (visited & -> & Htrue & _ & Hin & Hsound & Hclosed).
  { intros z b. by rewrite lookup_empty. }
  { apply lookup_empty. }
  { rewrite dom_empty_L, difference_empty_L. unfold vertex_ids.
    rewrite size_dom. lia. }
  cbn [obind]. eexists. split; [reflexivity|].
  assert (Hall : forall x y, reach g x y -> x ∈ dom visited -> y ∈ dom visited).
  { induction 1 as [x|x y e He _ IH]; [done|].
    intros Hxv. apply IH.
    apply (Hclosed x Hxv); [|done]. rewrite dom_empty_L. set_solver. }
  assert (Hsub : dom visited ⊆ vertex_ids g).
  { intros z Hzv. destruct (Hsound z Hzv) as [Hc|Hr].
    - rewrite dom_empty_L in Hc. set_solver.
    - by apply (reach_in_graph g start z). }
  rewrite <- size_dom. rewrite Z.eqb_eq. split.
  - intros Heq z Hzg.
    assert (Hdom : dom visited = vertex_ids g).
    { apply set_subseteq_size_eq; [done|]. lia. }
    rewrite <- Hdom in Hzg. destruct (Hsound z Hzg) as [Hc|Hr]; [|done].
    rewrite dom_empty_L in Hc. set_solver.
  - intros Hreach. f_equal. f_equal. apply set_eq. intros z. split; [apply Hsub|].
    intros Hzg. apply (Hall start); [by apply Hreach|done].
Qed.


Lemma IsConnected_connected g order :
  Built g -> Directed g = false -> range_order g order ->
  exists b,
    IsConnected order g = (Returned b, g) /\ (b = true <-> connected g).
Proof.
  intros Hb Hdir Horder. pose proof (Built_exact_inv g Hb) as Hx.
  destruct (IsConnected_spec g order Hb Horder) as (b & Hrun & Hiff).
  exists b. split; [done|]. rewrite Hiff. split.
  - intros Hall x y Hxg Hyg.
    eapply conn_trans; [apply conn_sym|]; apply reach_conn; auto.
  - intros Hconn z Hzg.
    destruct (decide (hd 0%Z order ∈ vertex_ids g)) as [Hs|Hs].
    + apply conn_reach; auto.
    + exfalso. apply Hs. apply (range_order_elem g order); [done|].
      apply (range_order_elem g order z Horder) in Hzg.
      destruct order; [by apply elem_of_nil in Hzg | by left].
Qed.


End Connectivity.

(** ** The forest that Kruskal returns *)

Section KruskalResults.
Context {Any : Type} `{GoSort}.
Implicit Types (g : @Graph Any) (e a : @Edge Any).

Local Abbreviation Eg g := (tri_of <$> Edges g).
Local Abbreviation F mst := (tri_of <$> mst).

Lemma conn_graph_ends g x y :
  edges_closed g -> conn (Eg g) x y ->
  x = y \/ (x ∈ vertex_ids g /\ y ∈ vertex_ids g).
Proof.
  intros Hclosed Hc.
  destruct (decide (x = y)) as [|Hne]; [by left|right].
  assert (Hx : x ∈ vertex_ids g).
  { destruct Hc as [|x y z t Ht Hends _]; [done|].
    apply list_elem_of_fmap in Ht as (e0 & -> & He0).
    destruct (Hclosed e0 He0) as [Hf Ht'].
    destruct Hends as [[<- _]|[_ <-]]; done. }
  split; [done|]. by apply (conn_in_D g Hclosed (Edges g) x y).
Qed.

(** [Kruskal] on an undirected graph whose edges join vertices of the
    graph. *)
Lemma Kruskal_forest_spec g order :
  Directed g = false -> edges_closed g -> range_order g order ->
  exists mst total (R : gset Z),
    Kruskal order g = (Returned (mst, total), g) /\
    (forall e, e ∈ mst -> e ∈ Edges g) /\
    forest (F mst) /\
    (forall u v, conn (Eg g) u v <-> conn (F mst) u v) /\
    total = GetMSTWeight mst /\
    R ⊆ vertex_ids g /\
    size R + length mst = size (vertex_ids g) /\
    (forall x, x ∈ vertex_ids g -> exists r, r ∈ R /\ conn (Eg g) x r) /\
    (forall r1 r2, r1 ∈ R -> r2 ∈ R -> conn (Eg g) r1 r2 -> r1 = r2) /\
    safe (vertex_ids g) (graph_edge g) (size (vertex_ids g) - 1) (F mst).
Proof.
  intros Hdir Hclosed Horder.
  destruct (Kruskal_spec g Hclosed order Hdir Horder)
    as (mst & total & R & Hrun & _ & Htotal & Hsafe & Hforest & Hin & HR & Hcount
        & Hreach & Hsep & Hexit).
  assert (Hinto : forall u v, conn (F mst) u v -> conn (Eg g) u v).
  { intros u v. apply conn_into_graph.
    intros t (e0 & -> & He0)%list_elem_of_fmap.
    by apply tri_of_graph_edge, Hin. }
  assert (Hfrom : forall u v, conn (Eg g) u v -> conn (F mst) u v).
  { destruct Hexit as [Hfull|Hall]; [|intros u v; by apply conn_from_graph].
    rewrite vertexCount_size in Hfull.
    assert (HR1 : size R = 1) by lia.
    intros u v Huv.
    destruct (conn_graph_ends g u v Hclosed Huv) as [->|[Hu Hv]];
      [apply conn_refl|].
    by apply (one_tree_spans (vertex_ids g) R (F mst) Hreach). }
  exists mst, total, R. split_and!; try done.
  - intros u v. split; auto.
  - by rewrite GetMSTWeight_sum.
  - intros x Hx. destruct (Hreach x Hx) as (r & Hr & Hc). exists r. auto.
  - intros r1 r2 Hr1 Hr2 Hc. apply Hsep; auto.
Qed.

(** X23.  On every undirected graph whose edges join vertices of the graph,
    [Kruskal] returns a spanning forest: edges of the global edge sequence,
    none of which closes a cycle, that link exactly the vertices the graph
    links. The weight it returns is [GetMSTWeight] of the list, and the list
    has as many edges as there are vertices less the number of connected
    components ([R] holds one vertex of each). *)
Theorem Kruskal_spanning_forest g order :
  Directed g = false -> edges_closed g -> range_order g order ->
  exists mst total (R : gset Z),
    Kruskal order g = (Returned (mst, total), g) /\
    (forall e, e ∈ mst -> e ∈ Edges g) /\
    forest (F mst) /\
    (forall u v, conn (Eg g) u v <-> conn (F mst) u v) /\
    total = GetMSTWeight mst /\
    R ⊆ vertex_ids g /\
    (forall x, x ∈ vertex_ids g -> exists r, r ∈ R /\ conn (Eg g) x r) /\
    (forall r1 r2, r1 ∈ R -> r2 ∈ R -> conn (Eg g) r1 r2 -> r1 = r2) /\
    length mst = size (vertex_ids g) - size R.
Proof.
  intros Hdir Hclosed Horder.
  destruct (Kruskal_forest_spec g order Hdir Hclosed Horder)
    as (mst & total & R & Hrun & Hin & Hforest & Hconn & Htotal & HR & Hcount
        & Hreach & Hsep & _).
  exists mst, total, R. split_and!; try done. lia.
Qed.

(** X24.  On a connected undirected graph whose edges join vertices of the
    graph, [Kruskal] returns a minimum spanning tree: one edge less than
    there are vertices, linking every two vertices, and weighing no more
    than any other such set of edges of the graph (each taken in either
    direction). *)
Theorem Kruskal_minimum_spanning_tree g order :
  Directed g = false -> edges_closed g -> connected g ->
  range_order g order ->
  exists mst total,
    Kruskal order g = (Returned (mst, total), g) /\
    (forall e, e ∈ mst -> e ∈ Edges g) /\
    length mst = size (vertex_ids g) - 1 /\
    (forall x y, x ∈ vertex_ids g -> y ∈ vertex_ids g -> conn (F mst) x y) /\
    total = wrap_int (weight_sum (F mst)) /\
    forall T,
      (forall t, t ∈ T -> graph_edge g t) ->
      (forall x y, x ∈ vertex_ids g -> y ∈ vertex_ids g -> conn T x y) ->
      length T = size (vertex_ids g) - 1 ->
      (weight_sum (F mst) <= weight_sum T)%Z.
Proof.
  intros Hdir Hclosed Hconn Horder.
  destruct (Kruskal_forest_spec g order Hdir Hclosed Horder)
    as (mst & total & R & Hrun & Hin & Hforest & Hiff & Htotal & HR & Hcount
        & Hreach & Hsep & Hsafe).
  assert (Hspan : forall x y, x ∈ vertex_ids g -> y ∈ vertex_ids g ->
                              conn (F mst) x y).
  { intros x y Hx Hy. apply Hiff. by apply Hconn. }
  assert (Hlen : length mst = size (vertex_ids g) - 1).
  { destruct (decide (size (vertex_ids g) = 0)) as [H0|Hpos]; [lia|].
    assert (Hex : exists x, x ∈ vertex_ids g) by (apply size_pos_elem_of; lia).
    destruct Hex as [x0 Hx0].
    assert (HR1 : size R = 1).
    { apply (spans_one_tree (vertex_ids g) R (Eg g) Hreach Hsep x0); auto. }
    lia. }
  exists mst, total. split_and!; try done.
  - by rewrite Htotal, GetMSTWeight_sum.
  - intros T HT1 HT2 HlenT.
    apply (safe_final (vertex_ids g) (graph_edge g) (size (vertex_ids g) - 1));
      try done.
    by rewrite length_fmap.
Qed.

End KruskalResults.

(** ** The tree that Prim grows *)

Section PrimTree.
Context {Any : Type}.
Implicit Types (g : @Graph Any) (e a : @Edge Any) (mst pq : list (@Edge Any)).

(** The identities that the edges of a list lead to. *)
Definition heads mst : list Z := (fun e => ID (To e)) <$> mst.

(** [grown s mst]: the list is in the order in which a tree grows from [s]:
    each edge leaves [s] or the head of an earlier edge, and leads to an
    identity that is neither [s] nor the head of an earlier edge. *)
Inductive grown (s : Z) : list (@Edge Any) -> Prop :=
| grown_nil : grown s []
| grown_snoc mst e :
    grown s mst ->
    ID (From e) = s \/ ID (From e) ∈ heads mst ->
    ID (To e) ≠ s -> ID (To e) ∉ heads mst ->
    grown s (mst ++ [e]).

Lemma grown_NoDup s mst : grown s mst -> NoDup (heads mst) /\ s ∉ heads mst.
Proof.
  induction 1 as [|mst e _ [IH1 IH2] _ Hs Hnew]; unfold heads in *.
  - split; [constructor|]. simpl. apply not_elem_of_nil.
  - rewrite fmap_app. simpl. split.
    + apply NoDup_app. split_and!; [done| |apply NoDup_singleton].
      intros z Hz ->%list_elem_of_singleton. done.
    + rewrite elem_of_app, list_elem_of_singleton. intros [?|?]; [done|].
      by apply Hs.
Qed.

Section Loop.
Variable g : @Graph Any.
Hypothesis Hwf : undirected_wf g.
Variable start : Z.
Hypothesis Hstart : start ∈ vertex_ids g.

Local Abbreviation F mst := (tri_of <$> mst).

(** What the loop keeps besides [pinv]: the order of growth, and that the
    queue and the result hold adjacency entries only. *)
Record ginv pq mst (visited : gmap Z bool) : Prop := {
  g_grown : grown start mst;
  g_vis : forall z, visited_at visited z = true -> z = start \/ z ∈ heads mst;
  g_pq : forall a, a ∈ pq -> a ∈ VEdges (vertex_at g (ID (From a)));
  g_mst : forall a, a ∈ mst -> a ∈ VEdges (vertex_at g (ID (From a)))
}.

Lemma prim_loop_grown fuel : forall pq mst total visited,
  pinv g start pq mst visited -> ginv pq mst visited ->
  length pq + pending g visited < fuel ->
  total = wrap_int (weight_sum (F mst)) ->
  exists mst' total' visited' pq',
    prim_loop fuel g pq mst total visited = Returned (mst', total') /\
    pinv g start pq' mst' visited' /\ ginv pq' mst' visited' /\
    total' = wrap_int (weight_sum (F mst')) /\
    (pq' = [] \/ (vertexCount g - 1 <= Z.of_nat (length mst'))%Z).
Proof.
  induction fuel as [|fuel IH]; intros pq mst total visited Hinv Hg Hfuel Htotal;
    [lia|].
  rewrite prim_loop_S.
  destruct ((0 <? Len pq)%nat && (Z.of_nat (length mst) <? vertexCount g - 1)%Z)
    eqn:Hguard.
  - apply andb_true_iff in Hguard as [Hlen _]. apply Nat.ltb_lt in Hlen.
    destruct (heap_Pop_spec pq (p_heap _ _ _ _ _ Hinv) Hlen)
      as (e & pq1 & -> & Hperm & Hok1 & Hmin).
    cbn [obind].
    pose proof (Permutation_length Hperm) as Hlen1. simpl in Hlen1.
    assert (He : e ∈ pq) by (rewrite Hperm; by left).
    destruct Hg as [Hgrown Hvis Hpq Hmst].
    destruct (visited_at visited (ID (To e))) eqn:Hvise.
    + apply (IH pq1 mst total visited); [by eapply pinv_skip| |lia|done].
      constructor; try done.
      intros a Ha. apply Hpq. rewrite Hperm. by right.
    + destruct (p_pq _ _ _ _ _ Hinv e He) as [Hu Hge].
      destruct (graph_edge_ends_in_D g Hwf (tri_of e) (ID (From e)) (ID (To e)) Hge)
        as [_ HtD]; [by left|].
      unfold vertex_ids in HtD. apply elem_of_dom in HtD as [vt Hvt].
      unfold vertex_at at 1. rewrite Hvt. simpl.
      destruct (push_unvisited_spec (<[ID (To e) := true]> visited)
                  (VEdges vt) pq1 Hok1) as (pq2 & -> & Hok2 & Hlen2 & Hmem2).
      cbn [obind].
      pose proof (pending_visit g visited _ vt Hvt Hvise) as Hpend.
      apply (IH pq2 (mst ++ [e]) _ (<[ID (To e) := true]> visited)).
      * by eapply (pinv_accept g Hwf start pq pq1 pq2).
      * assert (Hse : ID (To e) ≠ start).
        { intros Heq. rewrite Heq in Hvise.
          by rewrite (p_start _ _ _ _ _ Hinv) in Hvise. }
        assert (Hnew : ID (To e) ∉ heads mst).
        { intros (a & Hta & Ha)%list_elem_of_fmap.
          destruct (p_mst _ _ _ _ _ Hinv a Ha) as (_ & Hva & _).
          rewrite <- Hta in Hva. congruence. }
        constructor.
        -- constructor; try done. by apply Hvis.
        -- intros z. rewrite visited_at_insert. unfold heads.
           rewrite fmap_app, elem_of_app. simpl. rewrite list_elem_of_singleton.
           case_decide as Hc; [by right; right|].
           intros Hz. destruct (Hvis z Hz); [by left|by right; left].
        -- intros a [Ha|[Ha _]]%Hmem2.
           ++ apply Hpq. rewrite Hperm. by right.
           ++ destruct Hwf as (_ & _ & Hsound & _).
              destruct (Hsound _ _ _ Hvt Ha) as [Hfrom _].
              unfold vertex_at. by rewrite Hfrom, Hvt.
        -- intros a [Ha|Ha%list_elem_of_singleton]%elem_of_app;
             [by apply Hmst | subst a; by apply Hpq].
      * lia.
      * rewrite fmap_app. simpl. rewrite weight_sum_snoc, Htotal.
        apply wrap_int_add_l.
  - exists mst, total, visited, pq. split_and!; try done.
    apply andb_false_iff in Hguard as [Hlen|Hfull].
    + left. apply Nat.ltb_ge in Hlen. unfold Len in Hlen.
      destruct pq; [done|simpl in Hlen; lia].
    + right. lia.
Qed.

(** What [Prim] returns on an undirected graph built by the insertion
    operations, from a start vertex of the graph. *)
Lemma Prim_grown_spec :
  Directed g = false ->
  exists mst total (visited : gmap Z bool),
    Prim start g = (Returned (Some mst, total), g) /\
    total = wrap_int (weight_sum (F mst)) /\
    safe (vertex_ids g) (graph_edge g) (size (vertex_ids g) - 1) (F mst) /\
    (forall a, a ∈ mst -> graph_edge g (tri_of a)) /\
    grown start mst /\
    (forall a, a ∈ mst -> a ∈ VEdges (vertex_at g (ID (From a)))) /\
    (forall z b, visited !! z = Some b -> b = true) /\
    size visited = S (length mst) /\
    (forall z, z ∈ dom visited <-> conn (tri_of <$> Edges g) start z) /\
    (forall z, z ∈ dom visited -> conn (F mst) start z).
Proof.
  intros Hdir.
  pose proof Hwf as (Hids & Hclosed & Hsound & Hcomplete).
  pose proof Hstart as Hs. unfold vertex_ids in Hs.
  apply elem_of_dom in Hs as [sv Hsv].
  pose proof (Hids _ _ Hsv) as Hid.
  destruct (push_all_spec (VEdges sv) [] heap_ok_nil)
    as (pq0 & Hpush & Hok0 & Hlen0 & Hmem0).
  assert (Hinv0 : pinv g start pq0 [] (<[start := true]> ∅)).
  { constructor.
    - done.
    - intros z b. rewrite lookup_insert. case_decide; [congruence|].
      by rewrite lookup_empty.
    - intros z. rewrite visited_at_insert. case_decide; [by subst|].
      unfold visited_at. by rewrite lookup_empty.
    - rewrite map_size_insert_None by apply lookup_empty.
      by rewrite map_size_empty.
    - intros a Ha. apply Hmem0 in Ha as [Ha|Ha]; [by apply elem_of_nil in Ha|].
      destruct (Hsound _ _ _ Hsv Ha) as [Hfrom Hg]. split; [|done].
      rewrite Hfrom, visited_at_insert. by rewrite decide_True.
    - intros k v a Hk Hkv Ha. right. apply Hmem0. right.
      rewrite visited_at_insert in Hkv. case_decide as Hc.
      + subst k. rewrite Hsv in Hk. by injection Hk as <-.
      + unfold visited_at in Hkv. by rewrite lookup_empty in Hkv.
    - intros z. rewrite visited_at_insert. case_decide as Hc.
      + subst z. intros _. apply conn_refl.
      + unfold visited_at. by rewrite lookup_empty.
    - intros a Ha. by apply elem_of_nil in Ha.
    - apply safe_nil.
    - rewrite visited_at_insert. by rewrite decide_True. }
  assert (Hg0 : ginv pq0 [] (<[start := true]> ∅)).
  { constructor.
    - constructor.
    - intros z. rewrite visited_at_insert. case_decide; [by left|].
      unfold visited_at. by rewrite lookup_empty.
    - intros a Ha. apply Hmem0 in Ha as [Ha|Ha]; [by apply elem_of_nil in Ha|].
      destruct (Hsound _ _ _ Hsv Ha) as [Hfrom _].
      unfold vertex_at. by rewrite Hfrom, Hsv.
    - intros a Ha. by apply elem_of_nil in Ha. }
  destruct (prim_loop_grown (S (length (VEdges sv) + adjacency_total g))
              pq0 [] 0%Z (<[start := true]> ∅) Hinv0 Hg0)
    as (mst & total & visited & pq & Hrun & Hinv & Hg & Htotal & Hexit).
  { pose proof (pending_le_total g (<[start := true]> ∅)). simpl in Hlen0. lia. }
  { done. }
  exists mst, total, visited.
  destruct Hinv as [Hheap Htrue HvisD Hcount Hpq Hfront Hconn Hmst Hsafe Hst].
  destruct Hg as [Hgrown _ _ Hadj].
  assert (HsubD : dom visited ⊆ vertex_ids g).
  { intros z Hz. apply HvisD. by apply visited_dom. }
  assert (Hinto : forall z, conn (F mst) start z -> conn (tri_of <$> Edges g) start z).
  { intros z. apply conn_into_graph.
    intros t (e0 & -> & He0)%list_elem_of_fmap. by apply Hmst. }
  assert (Hreach : forall z, conn (tri_of <$> Edges g) start z -> z ∈ dom visited).
  { destruct Hexit as [Hnil|Hfull].
    - subst pq.
      assert (Hall : forall x z, conn (tri_of <$> Edges g) x z ->
                visited_at visited x = true -> visited_at visited z = true).
      { intros x z. induction 1 as [|x y z t Ht Hends _ IH]; [done|].
        intros Hx. apply IH.
        apply list_elem_of_fmap in Ht as (e0 & -> & He0).
        destruct (Hclosed e0 He0) as [HfD HtD].
        destruct (Hcomplete e0 He0) as [(a1 & Ha1 & Hto1 & _) (a2 & Ha2 & Hto2 & _)].
        unfold vertex_ids in HfD, HtD.
        apply elem_of_dom in HfD as [vf Hvf]. apply elem_of_dom in HtD as [vt Hvt].
        unfold vertex_at in Ha1, Ha2. rewrite Hvf in Ha1. rewrite Hvt in Ha2.
        simpl in Ha1, Ha2.
        destruct Hends as [[<- <-]|[<- <-]]; unfold src, dst, tri_of in *;
          simpl in *.
        - rewrite <- Hto1.
          destruct (Hfront (ID (From e0)) vf a1 Hvf Hx Ha1) as [?|Hin]; [done|].
          by apply elem_of_nil in Hin.
        - rewrite <- Hto2.
          destruct (Hfront (ID (To e0)) vt a2 Hvt Hx Ha2) as [?|Hin]; [done|].
          by apply elem_of_nil in Hin. }
      intros z Hz. apply (visited_dom _ _ Htrue). by apply (Hall start).
    - rewrite vertexCount_size in Hfull.
      pose proof (subseteq_size _ _ HsubD) as Hle. rewrite size_dom in Hle.
      assert (Heq : dom visited = vertex_ids g).
      { apply set_subseteq_size_eq; [done|]. rewrite size_dom. lia. }
      intros z Hz. rewrite Heq.
      by apply (conn_in_D g Hclosed (Edges g) start z). }
  split_and!; try done.
  - unfold Prim, bind, get, lift, ret. cbv beta iota. rewrite Hdir, Hsv.
    rewrite heap_Init_nil. cbn [obind]. rewrite Hid, Hpush. cbn [obind].
    by rewrite Hrun.
  - intros a Ha. by destruct (Hmst a Ha) as (_ & _ & ?).
  - intros z. split; [|apply Hreach].
    intros Hz. apply Hinto, Hconn. by apply visited_dom.
  - intros z Hz. apply Hconn. by apply visited_dom.
Qed.

End Loop.




End PrimTree.

(** ** Kruskal and Prim agree *)

Section TreeExchange.
Variable D : gset Z.
Variable Esym : tri -> Prop.
Hypothesis Esym_in_D : forall t a b, Esym t -> ends t a b -> a ∈ D /\ b ∈ D.
Implicit Types (A B T : list tri) (e t : tri).

(** Whether two vertices are linked by a finite list of edges can be
    decided. *)
Lemma conn_dec T : forall x y, conn T x y \/ ~ conn T x y.
Proof.
  induction T as [|t T IH]; intros x y.
  - destruct (decide (x = y)) as [->|Hne]; [left; apply conn_refl|].
    right. by intros ?%conn_nil_inv.
  - destruct (IH x y) as [?|Hxy]; [left; by apply conn_cons|].
    assert (Hvia : forall c d, ends t c d -> conn T x c -> conn T d y ->
                               conn (t :: T) x y).
    { intros c d Hcd Hxc Hdy.
      eapply conn_trans; [by apply conn_cons|].
      eapply conn_step; [by left|done|by apply conn_cons]. }
    destruct (IH x (src t)) as [Hxs|Hxs], (IH (dst t) y) as [Hdy|Hdy],
             (IH x (dst t)) as [Hxd|Hxd], (IH (src t) y) as [Hsy|Hsy];
      try (left; apply (Hvia (src t) (dst t)); [by left|done|done]);
      try (left; apply (Hvia (dst t) (src t)); [by right|done|done]);
      right; intros [?|(c & d & [[<- <-]|[<- <-]] & ? & ?)]%conn_split; done.
Qed.

(** An edge may be replaced by a path between its ends. *)
Lemma conn_replace T T' e x y :
  (forall t, t ∈ T -> t = e \/ t ∈ T') ->
  conn T' (src e) (dst e) ->
  conn T x y -> conn T' x y.
Proof.
  intros Hsub He. induction 1 as [x|x y z t Ht Hends _ IH]; [apply conn_refl|].
  eapply conn_trans; [|exact IH].
  destruct (Hsub t Ht) as [->|Ht'].
  - destruct Hends as [[<- <-]|[<- <-]]; [done|by apply conn_sym].
  - by apply (conn_edge T' t).
Qed.

(** Taking an edge out of a forest separates its ends. *)
Lemma forest_remove A : forest A ->
  forall e A', A ≡ₚ e :: A' -> ~ conn A' (src e) (dst e).
Proof.
  induction 1 as [|F t HF IH Ht]; intros e A' Hp.
  - by apply Permutation_nil_cons in Hp.
  - assert (Hp' : t :: F ≡ₚ e :: A').
    { rewrite <- Hp. by rewrite Permutation_app_comm. }
    assert (He : e ∈ t :: F) by (rewrite Hp'; by left).
    apply elem_of_cons in He as [->|He].
    + apply Permutation_cons_inv in Hp'. intros Hc. apply Ht.
      by apply (conn_perm A' F).
    + apply elem_of_Permutation in He as [F' HF'].
      assert (HA' : A' ≡ₚ t :: F').
      { apply (Permutation_cons_inv (a := e)).
        rewrite <- Hp', HF'. apply Permutation_swap. }
      intros Hc. apply (conn_perm _ _ _ _ HA') in Hc.
      apply conn_split in Hc as [Hc|(c & d & Hcd & Hc1 & Hc2)].
      * by apply (IH e F').
      * apply Ht.
        assert (Hcd' : conn F c d).
        { apply (conn_perm (e :: F') F); [done|].
          eapply conn_trans; [apply conn_cons, conn_sym, Hc1|].
          eapply conn_step; [by left|by left|].
          by apply conn_cons, conn_sym. }
        destruct Hcd as [[<- <-]|[<- <-]]; [done|by apply conn_sym].
Qed.

Lemma forest_NoDup A : forest A -> NoDup A.
Proof.
  induction 1 as [|F t HF IH Ht]; [constructor|].
  apply NoDup_app. split_and!; [done| |apply NoDup_singleton].
  intros t' Ht' ->%list_elem_of_singleton. apply Ht.
  apply (conn_edge F t); [done|by left].
Qed.

Lemma weight_sum_cons e T : weight_sum (e :: T) = (wt e + weight_sum T)%Z.
Proof. done. Qed.

(** Between a spanning forest of least weight and any spanning set of least
    weight of the same size, every edge of the forest has an edge of the
    same weight in the other set. *)
Lemma exchange_weight A B :
  forest A -> spanning D Esym A -> spanning D Esym B ->
  length A = length B ->
  (forall T, spanning D Esym T -> length T = length A ->
             (weight_sum A <= weight_sum T)%Z) ->
  (forall T, spanning D Esym T -> length T = length A ->
             (weight_sum B <= weight_sum T)%Z) ->
  forall e, e ∈ A -> exists e', e' ∈ B /\ wt e' = wt e.
Proof.
  intros HF [HAE HAc] [HBE HBc] Hlen HminA HminB e He.
  pose proof He as [A' HA']%elem_of_Permutation.
  pose proof (forest_remove A HF e A' HA') as Hcut.
  destruct (Esym_in_D e (src e) (dst e) (HAE e He)) as [Hu Hv]; [by left|].
  set (u := src e) in *. set (v := dst e) in *.
  destruct (find_bridge (fun z => conn A' u z) (conn_dec A' u) B u v)
    as (e' & Rest & a & b & HB & Hab & Ha & Hb & Hua & Hbv);
    [by apply HBc|apply conn_refl|done|].
  assert (He'B : e' ∈ B) by (rewrite HB; by left).
  destruct (Esym_in_D e' a b (HBE e' He'B) Hab) as [HaD HbD].
  assert (Hvb : conn A' v b).
  { pose proof (HAc u b Hu HbD) as Hc.
    apply (conn_perm _ _ _ _ HA') in Hc.
    apply conn_split in Hc as [Hc|(c & d & Hcd & Hc1 & Hc2)]; [done|].
    destruct Hcd as [[Hc Hd]|[Hc Hd]]; fold u v in Hc, Hd; subst c d; done. }
  exists e'. split; [done|].
  assert (H1 : (weight_sum A <= weight_sum (e' :: A'))%Z).
  { apply HminA.
    - split.
      + intros t [->|Ht]%elem_of_cons; [by apply HBE|].
        apply HAE. rewrite HA'. by right.
      + intros x y Hx Hy. apply (conn_replace A _ e); [| |by apply HAc].
        * intros t Ht. rewrite HA' in Ht.
          apply elem_of_cons in Ht as [->|Ht]; [by left|right; by right].
        * fold u v. eapply conn_trans; [apply conn_cons, Ha|].
          eapply conn_step; [by left|exact Hab|].
          by apply conn_cons, conn_sym.
    - rewrite HA'. done. }
  assert (H2 : (weight_sum B <= weight_sum (e :: Rest))%Z).
  { apply HminB.
    - split.
      + intros t [->|Ht]%elem_of_cons; [by apply HAE|].
        apply HBE. rewrite HB. by right.
      + intros x y Hx Hy. apply (conn_replace B _ e'); [| |by apply HBc].
        * intros t Ht. rewrite HB in Ht.
          apply elem_of_cons in Ht as [->|Ht]; [by left|right; by right].
        * assert (Hab' : conn (e :: Rest) a b).
          { eapply conn_trans; [apply conn_cons, conn_sym, Hua|].
            eapply conn_step; [by left|by left|].
            by apply conn_cons, conn_sym. }
          destruct Hab as [[<- <-]|[<- <-]]; [done|by apply conn_sym].
    - rewrite Hlen, HB. done. }
  rewrite (weight_sum_perm _ _ HA'), !weight_sum_cons in H1.
  rewrite (weight_sum_perm _ _ HB), !weight_sum_cons in H2.
  lia.
Qed.

End TreeExchange.

Section TreeAgreement.
Context {Any : Type} `{GoSort}.
Implicit Types (g : @Graph Any) (e p : @Edge Any).

Lemma distinct_weights_same_edge g e e' :
  NoDup (Weight <$> Edges g) ->
  e ∈ Edges g -> e' ∈ Edges g -> Weight e = Weight e' -> e = e'.
Proof.
  intros Hnd (i & Hi)%list_elem_of_lookup (j & Hj)%list_elem_of_lookup Hw.
  assert (i = j); [|congruence].
  apply (NoDup_lookup (Weight <$> Edges g) i j (Weight e)); [done| |].
  - by rewrite list_lookup_fmap, Hi.
  - by rewrite list_lookup_fmap, Hj, Hw.
Qed.

Lemma weights_perm_sum (l l' : list (@Edge Any)) :
  Weight <$> l ≡ₚ Weight <$> l' ->
  weight_sum (tri_of <$> l) = weight_sum (tri_of <$> l').
Proof.
  assert (Hsum : forall k : list (@Edge Any),
            weight_sum (tri_of <$> k) = foldr Z.add 0%Z (Weight <$> k)).
  { induction k as [|e k IH]; [done|].
    cbn [fmap list_fmap foldr]. rewrite weight_sum_cons. by rewrite IH. }
  rewrite !Hsum. generalize (Weight <$> l) (Weight <$> l').
  induction 1; simpl; lia.
Qed.


End TreeAgreement.

(** ** Small graphs, and the algorithms compared *)

Section Degenerate.
Context {Any : Type} `{GoSort}.
Implicit Types (g : @Graph Any) (e a : @Edge Any).

Lemma prim_loop_stops g fuel pq totalWeight visited :
  (vertexCount g <= 1)%Z \/ pq = [] ->
  prim_loop (S fuel) g pq [] totalWeight visited = Returned ([], totalWeight).
Proof.
  intros Hstop. rewrite prim_loop_S. cbn [length].
  destruct Hstop as [Hv| ->]; [|done].
  assert ((Z.of_nat 0 <? vertexCount g - 1)%Z = false) as ->
    by (apply Z.ltb_ge; simpl; lia).
  by rewrite andb_false_r.
Qed.



End Degenerate.

(** * Concrete graphs *)

Section Examples.

Definition mk_vertex (id : Z) (name : string) : @Vertex unit :=
  mkVertex id name None [].

Definition mk_edge (a b w : Z) : @Edge unit :=
  mkEdge (mk_vertex a "") (mk_vertex b "") w None.

(** [AddEdge] for each edge of the list, in order, on a new graph. *)
Definition build (directed : bool) (l : list (@Edge unit)) : @Graph unit :=
  foldl (fun g e => snd (AddEdge e g)) (NewGraph directed) l.

Definition keys (g : @Graph unit) : list Z := (map_to_list (Vertices g)).*1.

(** The triangle of the specification: A-B 4, B-C 2, A-C 3. *)
Definition triangle : @Graph unit :=
  build false [mk_edge 0 1 4; mk_edge 1 2 2; mk_edge 0 2 3].

(** Two components: 0-1 and 2-3. *)
Definition two_islands : @Graph unit :=
  build false [mk_edge 0 1 1; mk_edge 2 3 1].

(** A path whose two edges weigh the same. *)
Definition tied_path : @Graph unit :=
  build false [mk_edge 0 1 1; mk_edge 1 2 1].

(** The six vertices and nine edges of the tests. *)
Definition six_vertices : @Graph unit :=
  build false [mk_edge 0 1 4; mk_edge 0 2 2; mk_edge 1 2 1; mk_edge 1 3 5;
               mk_edge 2 3 8; mk_edge 2 4 10; mk_edge 3 4 2; mk_edge 3 5 6;
               mk_edge 4 5 3].

(** The edges and the weight a call returned, each edge as its endpoints and
    weight. *)
Definition summary (o : outcome (list (@Edge unit) * Z))
  : option (list tri * Z) :=
  match o with
  | Returned (mst, w) => Some (tri_of <$> mst, w)
  | _ => None
  end.

Definition summary_nilable (o : outcome (option (list (@Edge unit)) * Z))
  : option (list tri * Z) :=
  match o with
  | Returned (Some mst, w) => Some (tri_of <$> mst, w)
  | _ => None
  end.

Example triangle_Kruskal :
  summary (fst (Kruskal (H:=insertion_GoSort) (keys triangle) triangle))
  = Some ([(1, 2, 2); (0, 2, 3)]%Z, 5%Z).
Proof. vm_compute. reflexivity. Qed.

Example triangle_Prim :
  summary_nilable (fst (Prim 0%Z triangle))
  = Some ([(0, 2, 3); (2, 1, 2)]%Z, 5%Z).
Proof. vm_compute. reflexivity. Qed.

Example six_vertices_Kruskal :
  summary (fst (Kruskal (H:=insertion_GoSort) (keys six_vertices) six_vertices))
  = Some ([(1, 2, 1); (0, 2, 2); (3, 4, 2); (4, 5, 3); (1, 3, 5)]%Z, 13%Z).
Proof. vm_compute. reflexivity. Qed.

Example six_vertices_Prim :
  summary_nilable (fst (Prim 0%Z six_vertices))
  = Some ([(0, 2, 2); (2, 1, 1); (1, 3, 5); (3, 4, 2); (4, 5, 3)]%Z, 13%Z).
Proof. vm_compute. reflexivity. Qed.

Example six_vertices_IsConnected :
  fst (IsConnected (keys six_vertices) six_vertices) = Returned true.
Proof. vm_compute. reflexivity. Qed.

Example two_islands_IsConnected :
  fst (IsConnected (keys two_islands) two_islands) = Returned false.
Proof. vm_compute. reflexivity. Qed.

Lemma Built_build directed l :
  Forall (fun e => VEdges (From e) = [] /\ VEdges (To e) = []) l ->
  Built (build directed l).
Proof.
  unfold build. generalize (Built_new (Any:=unit) directed).
  generalize (NewGraph (Any:=unit) directed).
  induction l as [|e l IH]; intros g Hg Hall; simpl; [done|].
  apply Forall_cons in Hall as [[Hf Ht] Hall].
  apply IH; [|done]. by apply Built_edge.
Qed.

Lemma keys_range_order g : range_order g (keys g).
Proof. by unfold range_order, keys. Qed.

Lemma keys_elem g x : x ∈ vertex_ids g <-> x ∈ keys g.
Proof.
  unfold vertex_ids, keys.
  rewrite elem_of_dom, list_elem_of_fmap. split.
  - intros [v Hv]. exists (x, v). split; [done|]. by apply elem_of_map_to_list.
  - intros ([k v] & -> & Hkv). apply elem_of_map_to_list in Hkv. by eexists.
Qed.

(** A set of vertices that no edge leaves holds what its members reach. *)
Lemma conn_closed (S : Z -> Prop) G x y :
  (forall e a b, e ∈ G -> ends e a b -> S a -> S b) ->
  conn G x y -> S x -> S y.
Proof. intros Hcl. induction 1; eauto. Qed.

Lemma triangle_Built : Built triangle.
Proof. apply Built_build. repeat constructor. Qed.

Lemma triangle_edges :
  tri_of <$> Edges triangle = [(0, 1, 4); (1, 2, 2); (0, 2, 3)]%Z.
Proof. vm_compute. reflexivity. Qed.

Lemma triangle_connected : connected triangle.
Proof.
  assert (Hstar : forall x, x ∈ vertex_ids triangle ->
                            conn (tri_of <$> Edges triangle) 0%Z x).
  { intros x Hx. apply keys_elem in Hx.
    assert (Hk : keys triangle = [2; 1; 0]%Z) by (vm_compute; reflexivity).
    rewrite Hk in Hx. rewrite triangle_edges.
    repeat (apply elem_of_cons in Hx as [->|Hx]).
    - apply (conn_edge _ (0, 2, 3)%Z); [|by left].
      do 2 apply list_elem_of_further. apply list_elem_of_here.
    - apply (conn_edge _ (0, 1, 4)%Z); [|by left]. apply list_elem_of_here.
    - apply conn_refl.
    - by apply elem_of_nil in Hx. }
  intros x y Hx Hy.
  eapply conn_trans; [apply conn_sym|]; by apply Hstar.
Qed.

Lemma two_islands_Built : Built two_islands.
Proof. apply Built_build. repeat constructor. Qed.

Lemma two_islands_apart :
  ~ conn (tri_of <$> Edges two_islands) 0%Z 2%Z.
Proof.
  assert (HE : tri_of <$> Edges two_islands = [(0, 1, 1); (2, 3, 1)]%Z)
    by (vm_compute; reflexivity).
  rewrite HE. intros Hc.
  apply (conn_closed (fun z => z = 0 \/ z = 1)%Z) in Hc; [lia| |lia].
  intros e a b He Hends Ha.
  repeat (apply elem_of_cons in He as [->|He]);
    [| |by apply elem_of_nil in He];
    unfold ends, src, dst in Hends; simpl in Hends; lia.
Qed.

End Examples.

(** * The claims at concrete inputs *)

Section Witnesses.

Local Existing Instance insertion_GoSort.

(** C1, counterexample.  On the empty directed graph both algorithms end in
    a panic: the caller receives no value at all. *)
Lemma directed_call_is_a_panic :
  is_panic (fst (Kruskal [] (NewGraph (Any:=unit) true))) = true /\
  is_panic (fst (Prim 0%Z (NewGraph (Any:=unit) true))) = true /\
  (forall r, fst (Kruskal [] (NewGraph (Any:=unit) true)) ≠ Returned r) /\
  (forall r, fst (Prim 0%Z (NewGraph (Any:=unit) true)) ≠ Returned r).
Proof. split_and!; [reflexivity|reflexivity|discriminate|discriminate]. Qed.

Lemma directed_graph_panics_witness :
  Directed (NewGraph (Any:=unit) true) = true /\
  Kruskal [] (NewGraph (Any:=unit) true) =
    (Panicked "Kruskal algorithm only works for undirected graphs",
     NewGraph true) /\
  Prim 7%Z (NewGraph (Any:=unit) true) =
    (Panicked "Prim algorithm only works for undirected graphs",
     NewGraph true).
Proof.
  split; [reflexivity|].
  apply (directed_graph_panics (NewGraph (Any:=unit) true) [] 7%Z).
  reflexivity.
Defined.

(** C2, counterexample.  On the empty undirected graph, [Prim] from the
    absent identity 7 returns normally, with the nil slice and weight 0. *)
Lemma Prim_absent_start_is_a_return :
  fst (Prim 7%Z (NewGraph (Any:=unit) false)) = Returned (None, 0%Z) /\
  is_returned (fst (Prim 7%Z (NewGraph (Any:=unit) false))) = true /\
  is_panic (fst (Prim 7%Z (NewGraph (Any:=unit) false))) = false.
Proof. split_and!; reflexivity. Qed.

Lemma Prim_absent_start_witness :
  Vertices (NewGraph (Any:=unit) false) !! 7%Z = None /\
  Prim 7%Z (NewGraph (Any:=unit) false) = (Returned (None, 0%Z), NewGraph false).
Proof.
  split; [reflexivity|].
  apply (Prim_absent_start (NewGraph (Any:=unit) false) 7%Z). reflexivity.
Defined.



Lemma triangle_has_vertex_0 : 0%Z ∈ vertex_ids triangle.
Proof. apply keys_elem. vm_compute. do 2 apply list_elem_of_further. apply list_elem_of_here. Qed.


Lemma two_islands_vertices :
  0%Z ∈ vertex_ids two_islands /\ 2%Z ∈ vertex_ids two_islands.
Proof.
  split; apply keys_elem; vm_compute.
  - do 3 apply list_elem_of_further. apply list_elem_of_here.
  - do 1 apply list_elem_of_further. apply list_elem_of_here.
Qed.


Lemma uf_two_trees_repr :
  repr uf_two_trees 1%Z 1%Z /\ repr uf_two_trees 3%Z 2%Z.
Proof.
  split.
  - exists 0. apply reprn_root. vm_compute. reflexivity.
  - exists 1. apply reprn_step.
    + intros Heq. vm_compute in Heq. discriminate.
    + replace (parent_at uf_two_trees 3%Z) with 2%Z by (vm_compute; reflexivity).
      apply reprn_root. vm_compute. reflexivity.
Qed.

Lemma Union_by_rank_witness :
  repr uf_two_trees 1%Z 1%Z /\ repr uf_two_trees 3%Z 2%Z /\
  exists fuel0, forall fuel, fuel0 <= fuel ->
    fst <$> Find fuel 1%Z uf_two_trees = Some 1%Z /\
    fst <$> Find fuel 3%Z uf_two_trees = Some 2%Z.
Proof.
  destruct uf_two_trees_repr as [H1 H3].
  split_and!; [exact H1|exact H3|].
  destruct (Union_by_rank uf_two_trees 1%Z 3%Z 1%Z 2%Z H1 H3) as (fuel0 & Hf).
  exists fuel0. intros fuel Hle. destruct (Hf fuel Hle) as (Ha & Hb & _).
  split; [exact Ha|exact Hb].
Defined.


Lemma AddVertex_first_writer_wins_witness :
  let g := snd (AddVertex (mk_vertex 0 "A") (NewGraph false)) in
  let later := mkVertex 0%Z "B" (Some tt) [] in
  Vertices g !! ID later = Some (mk_vertex 0 "A") /\
  AddVertex later g = (Returned (mk_vertex 0 "A"), g).
Proof.
  cbv zeta.
  assert (Hk : Vertices (snd (AddVertex (mk_vertex 0 "A") (NewGraph false)))
               !! ID (mkVertex 0%Z "B" (Some tt) []) = Some (mk_vertex 0 "A"))
    by (vm_compute; reflexivity).
  split; [exact Hk|].
  exact (proj1 (AddVertex_first_writer_wins _ _ _ Hk)).
Defined.

Lemma algorithms_are_deterministic_witness :
  range_order triangle (keys triangle) /\
  range_order triangle (rev (keys triangle)) /\
  fst (Kruskal (rev (keys triangle)) (snd (Kruskal (keys triangle) triangle)))
    = fst (Kruskal (keys triangle) triangle) /\
  fst (Prim 0%Z (snd (Prim 0%Z triangle))) = fst (Prim 0%Z triangle).
Proof.
  assert (Hrev : range_order triangle (rev (keys triangle))).
  { unfold range_order. rewrite <- Permutation_rev. apply keys_range_order. }
  split_and!; [apply keys_range_order | exact Hrev | |];
    apply (algorithms_are_deterministic triangle (keys triangle)
             (rev (keys triangle)) 0%Z (keys_range_order triangle) Hrev).
Defined.

End Witnesses.

(** * Further properties at concrete inputs *)

Section FurtherInstances.

Local Existing Instance insertion_GoSort.

(** A directed graph with the single edge 0 -> 1. *)
Definition one_way : @Graph unit := build true [mk_edge 0 1 7].

Lemma NewGraph_ids_agree directed : ids_agree (NewGraph (Any:=unit) directed).
Proof. intros k v Hk. simpl in Hk. rewrite lookup_empty in Hk. discriminate. Qed.

Lemma one_way_Built : Built one_way.
Proof. apply Built_build. repeat constructor. Qed.

Lemma triangle_closed : edges_closed triangle.
Proof. destruct (Built_binv triangle triangle_Built) as (_ & Hc & _). exact Hc. Qed.

Lemma two_islands_closed : edges_closed two_islands.
Proof. destruct (Built_binv two_islands two_islands_Built) as (_ & Hc & _). exact Hc. Qed.

Lemma singleton_heap_ok : heap_ok [mk_edge 0 1 4].
Proof. intros k Hk. simpl in Hk. lia. Qed.



Lemma ids_agree_kept_witness :
  ids_agree (NewGraph (Any:=unit) false) /\
  ids_agree (snd (AddVertex (mk_vertex 3 "C") (NewGraph false))) /\
  ids_agree (snd (AddEdge (mk_edge 0 1 4) (NewGraph false))).
Proof.
  split; [apply NewGraph_ids_agree|].
  exact (ids_agree_kept (NewGraph false) (mk_vertex 3 "C") (mk_edge 0 1 4)
           (NewGraph_ids_agree false)).
Defined.



Lemma Built_handshake_witness :
  Built triangle /\ adjacency_total triangle = 2 * length (Edges triangle).
Proof.
  split; [exact triangle_Built|].
  exact (Built_handshake triangle triangle_Built).
Defined.

Lemma Find_compresses_path_witness :
  repr uf_two_trees 3%Z 2%Z /\
  exists fuel0, forall fuel, fuel0 <= fuel ->
    exists uf',
      Find fuel 3%Z uf_two_trees = Some (2%Z, uf') /\
      Find fuel 3%Z uf' = Some (2%Z, uf').
Proof.
  destruct uf_two_trees_repr as [_ H3].
  split; [exact H3|].
  destruct (Find_compresses_path uf_two_trees 3%Z 2%Z H3) as (fuel0 & Hf).
  exists fuel0. intros fuel Hle.
  destruct (Hf fuel Hle) as (uf' & Hrun & _ & _ & _ & _ & Hagain).
  exists uf'. split; [exact Hrun|exact Hagain].
Defined.

Lemma NewUnionFind_zero_root : repr NewUnionFind 0%Z 0%Z.
Proof. exists 0. apply reprn_root. reflexivity. Qed.

Lemma Find_unregistered_witness :
  parent NewUnionFind !! 5%Z = None /\ repr NewUnionFind 0%Z 0%Z /\
  exists fuel0, forall fuel, fuel0 <= fuel ->
    exists uf',
      Find fuel 5%Z NewUnionFind = Some (0%Z, uf') /\
      (5%Z ≠ 0%Z -> parent uf' !! 5%Z = Some 0%Z).
Proof.
  split; [reflexivity|]. split; [exact NewUnionFind_zero_root|].
  destruct (Find_unregistered NewUnionFind 5%Z 0%Z eq_refl NewUnionFind_zero_root)
    as (fuel0 & Hf).
  exists fuel0. intros fuel Hle.
  destruct (Hf fuel Hle) as (uf' & Hrun & _ & Hreg & _).
  exists uf'. split; [exact Hrun|exact Hreg].
Defined.

Lemma Union_unregistered_witness :
  parent NewUnionFind !! 1%Z = None /\ parent NewUnionFind !! 2%Z = None /\
  repr NewUnionFind 0%Z 0%Z /\
  exists fuel0, forall fuel, fuel0 <= fuel ->
    exists uf', Union fuel 1%Z 2%Z NewUnionFind = Some (false, uf').
Proof.
  split; [reflexivity|]. split; [reflexivity|].
  split; [exact NewUnionFind_zero_root|].
  destruct (Union_unregistered NewUnionFind 1%Z 2%Z 0%Z eq_refl eq_refl
              NewUnionFind_zero_root) as (fuel0 & Hf).
  exists fuel0. intros fuel Hle.
  destruct (Hf fuel Hle) as (uf' & Hrun & _).
  exists uf'. exact Hrun.
Defined.

Lemma heap_lightest_first_witness :
  heap_ok [mk_edge 0 1 4] /\
  (exists h', heap_Push [mk_edge 0 1 4] (mk_edge 1 2 2) = Returned h' /\
              heap_ok h') /\
  exists e h',
    heap_Pop [mk_edge 0 1 4] = Returned (e, h') /\
    [mk_edge 0 1 4] ≡ₚ e :: h'.
Proof.
  split; [exact singleton_heap_ok|].
  destruct (heap_lightest_first [mk_edge 0 1 4] (mk_edge 1 2 2)
              singleton_heap_ok) as [HPush HPop].
  split.
  - destruct HPush as (h' & Hrun & _ & Hok & _).
    exists h'. split; [exact Hrun|exact Hok].
  - destruct (HPop Nat.lt_0_1) as (e & h' & Hrun & Hperm & _).
    exists e, h'. split; [exact Hrun|exact Hperm].
Defined.



Lemma Kruskal_spanning_forest_witness :
  Directed two_islands = false /\ edges_closed two_islands /\
  range_order two_islands (keys two_islands) /\
  exists mst total,
    Kruskal (keys two_islands) two_islands = (Returned (mst, total), two_islands) /\
    forest (tri_of <$> mst) /\ total = GetMSTWeight mst.
Proof.
  split; [reflexivity|]. split; [exact two_islands_closed|].
  split; [apply keys_range_order|].
  destruct (Kruskal_spanning_forest two_islands (keys two_islands) eq_refl
              two_islands_closed (keys_range_order two_islands))
    as (mst & total & R & Hrun & _ & Hforest & _ & Htotal & _).
  exists mst, total. split_and!; [exact Hrun|exact Hforest|exact Htotal].
Defined.

Lemma Kruskal_minimum_spanning_tree_witness :
  Directed triangle = false /\ edges_closed triangle /\ connected triangle /\
  range_order triangle (keys triangle) /\
  exists mst total,
    Kruskal (keys triangle) triangle = (Returned (mst, total), triangle) /\
    length mst = size (vertex_ids triangle) - 1.
Proof.
  split; [reflexivity|]. split; [exact triangle_closed|].
  split; [exact triangle_connected|]. split; [apply keys_range_order|].
  destruct (Kruskal_minimum_spanning_tree triangle (keys triangle) eq_refl
              triangle_closed triangle_connected (keys_range_order triangle))
    as (mst & total & Hrun & _ & Hlen & _).
  exists mst, total. split; [exact Hrun|exact Hlen].
Defined.




Lemma triangle_weights_distinct : NoDup (Weight <$> Edges triangle).
Proof.
  assert (Hw : Weight <$> Edges triangle = [4; 2; 3]%Z)
    by (vm_compute; reflexivity).
  rewrite Hw. apply (bool_decide_unpack _). vm_compute. exact I.
Qed.




End FurtherInstances.
